(** * salesforce-cli-mcpb: a shallow embedding of the two MCP servers

    The repository holds two variants of one tool server:
    - [Cli]  (the variant that shells out to the [sf] executable), and
    - [Rest] (src/server/index.js, the variant that talks to the REST API and
      keeps its own OAuth credentials in [credentials.json]).

    Both run on Node.js.  The part of JavaScript the two files rely on is
    written out first, in [JS]: strings as sequences of UTF-16 code units,
    JSON values, truthiness, ordinary objects with their prototype and their
    key order, and [JSON.stringify]. *)

From Stdlib Require Import List NArith ZArith Bool Lia String Ascii DecimalString.
From Stdlib Require Import Permutation Sorted.
Import ListNotations.

Set Implicit Arguments.
Set Warnings "-register-all".

(* ================================================================== *)
(** * The JavaScript fragment                                          *)
(* ================================================================== *)

Module JS.

(** A JavaScript string is a sequence of 16-bit code units. *)
Definition jsstring := list N.

(** The code units of an ASCII literal of the source. *)
Definition js (s : string) : jsstring :=
  map N_of_ascii (list_ascii_of_string s).

Fixpoint eqb (a b : jsstring) : bool :=
  match a, b with
  | [], [] => true
  | x :: a', y :: b' => N.eqb x y && eqb a' b'
  | _, _ => false
  end.

(** Values that [JSON.parse] can produce.  Numbers are the integers that
    JavaScript holds exactly and prints digit by digit (up to 2^53 in
    absolute value); fractions and larger numbers are left out.  An object is
    the list of its own properties in enumeration order. *)
Inductive json : Type :=
| JNull
| JBool (b : bool)
| JNum (n : Z)
| JStr (s : jsstring)
| JArr (items : list json)
| JObj (fields : list (jsstring * json)).

(** A value that may be [undefined] ([None]). *)
Definition jsval := option json.

Definition undefined : jsval := None.

(** ToBoolean. *)
Definition truthy (v : jsval) : bool :=
  match v with
  | None => false
  | Some JNull => false
  | Some (JBool b) => b
  | Some (JNum n) => negb (Z.eqb n 0)
  | Some (JStr s) => match s with [] => false | _ => true end
  | Some (JArr _) => true
  | Some (JObj _) => true
  end.

(** [a || b] on strings that may be undefined. *)
Definition str_truthy (s : option jsstring) : bool :=
  match s with
  | Some (_ :: _) => true
  | _ => false
  end.

Definition str_or (a b : option jsstring) : option jsstring :=
  if str_truthy a then a else b.

(** [a || b] on values. *)
Definition val_or (a b : jsval) : jsval :=
  if truthy a then a else b.

(** ** Ordinary objects

    An object literal and the result of [JSON.parse] are ordinary objects
    whose prototype is [Object.prototype].  [o[k]] first looks at the own
    properties and then at the prototype, whose properties are the builtins
    listed here (every one of them a function or an object, hence truthy). *)
Definition Object_prototype_keys : list jsstring :=
  map js
    [ "constructor"; "__defineGetter__"; "__defineSetter__"; "hasOwnProperty";
      "__lookupGetter__"; "__lookupSetter__"; "isPrototypeOf";
      "propertyIsEnumerable"; "toString"; "valueOf"; "__proto__";
      "toLocaleString" ]%string.

Definition inherited (k : jsstring) : bool :=
  existsb (eqb k) Object_prototype_keys.

Section Objects.
Variable A : Type.

(** An object used as a map from keys to [A]: its own properties, in the
    order [Object.keys] lists them. *)
Definition object := list (jsstring * A).

Inductive property : Type :=
| Own (a : A)        (* an own property *)
| Inherited          (* a builtin found on Object.prototype *)
| Absent.            (* undefined *)

Fixpoint own (k : jsstring) (o : object) : option A :=
  match o with
  | [] => None
  | (k', a) :: o' => if eqb k k' then Some a else own k o'
  end.

(** [o[k]] *)
Definition get (k : jsstring) (o : object) : property :=
  match own k o with
  | Some a => Own a
  | None => if inherited k then Inherited else Absent
  end.

Definition Object_keys (o : object) : list jsstring := map fst o.

(** [delete o[k]]: removes the own property, if there is one. *)
Fixpoint delete (k : jsstring) (o : object) : object :=
  match o with
  | [] => []
  | (k', a) :: o' => if eqb k k' then o' else (k', a) :: delete k o'
  end.

(** Array indices are the canonical decimal strings of 0 .. 2^32 - 2; an
    object lists them first, in ascending order, and the other keys after
    them in the order they were added. *)
Definition digit (c : N) : option N :=
  if (N.leb 48 c && N.leb c 57)%bool then Some (c - 48)%N else None.

Fixpoint decimal (acc : N) (s : jsstring) : option N :=
  match s with
  | [] => Some acc
  | c :: s' =>
      match digit c with
      | Some d => decimal (10 * acc + d) s'
      | None => None
      end
  end.

Definition array_index (k : jsstring) : option N :=
  match k with
  | [] => None
  | [48%N] => Some 0%N
  | 48%N :: _ => None
  | _ =>
      match decimal 0 k with
      | Some n => if N.leb n 4294967294 then Some n else None
      | None => None
      end
  end.

(** Where a new array-index key [n] goes. *)
Fixpoint add_index (n : N) (k : jsstring) (a : A) (o : object) : object :=
  match o with
  | [] => [(k, a)]
  | (k', a') :: o' =>
      match array_index k' with
      | Some m => if N.ltb m n then (k', a') :: add_index n k a o'
                  else (k, a) :: o
      | None => (k, a) :: o
      end
  end.

(** Overwrites the own property [k], which must exist, in place. *)
Fixpoint replace (k : jsstring) (a : A) (o : object) : object :=
  match o with
  | [] => []
  | (k', a') :: o' =>
      if eqb k k' then (k', a) :: o' else (k', a') :: replace k a o'
  end.

(** [o[k] = a].  An own property is overwritten where it stands.  A new
    key is added, except [__proto__]: assigning to it runs the setter
    inherited from [Object.prototype], which changes the prototype of [o]
    and leaves its own properties alone. *)
Definition set (k : jsstring) (a : A) (o : object) : object :=
  match own k o with
  | Some _ => replace k a o
  | None =>
      if eqb k (js "__proto__") then o
      else match array_index k with
           | Some n => add_index n k a o
           | None => o ++ [(k, a)]
           end
  end.

End Objects.

Arguments Inherited {A}.
Arguments Absent {A}.

(** ** JSON.stringify *)

Definition hex_digit (n : N) : N :=
  if N.ltb n 10 then (48 + n)%N else (87 + n)%N.

(** [\uXXXX] with lowercase hexadecimal digits. *)
Definition unicode_escape (c : N) : jsstring :=
  [92; 117;
   hex_digit (N.modulo (N.div c 4096) 16);
   hex_digit (N.modulo (N.div c 256) 16);
   hex_digit (N.modulo (N.div c 16) 16);
   hex_digit (N.modulo c 16)]%N.

Definition is_high_surrogate (c : N) : bool := (N.leb 55296 c && N.leb c 56319)%bool.
Definition is_low_surrogate (c : N) : bool := (N.leb 56320 c && N.leb c 57343)%bool.

Definition escape_unit (c : N) : jsstring :=
  if N.eqb c 8 then js "\b"
  else if N.eqb c 9 then js "\t"
  else if N.eqb c 10 then js "\n"
  else if N.eqb c 12 then js "\f"
  else if N.eqb c 13 then js "\r"
  else if N.eqb c 34 then [92; 34]%N
  else if N.eqb c 92 then [92; 92]%N
  else if N.ltb c 32 then unicode_escape c
  else if (is_high_surrogate c || is_low_surrogate c)%bool then unicode_escape c
  else [c].

(** The body of QuoteJSONString: a surrogate pair is copied, a lone
    surrogate is escaped. *)
Fixpoint escape (s : jsstring) : jsstring :=
  match s with
  | [] => []
  | c :: s' =>
      match s' with
      | d :: s'' =>
          if (is_high_surrogate c && is_low_surrogate d)%bool
          then c :: d :: escape s''
          else escape_unit c ++ escape s'
      | [] => escape_unit c
      end
  end.

Definition quote (s : jsstring) : jsstring := (34%N :: escape s) ++ [34%N].

Fixpoint join (sep : jsstring) (parts : list jsstring) : jsstring :=
  match parts with
  | [] => []
  | [p] => p
  | p :: ps => p ++ sep ++ join sep ps
  end.

(** An array or object with its parts already serialized; [gap] is the
    indentation unit and [ind] the indentation of the enclosing value. *)
Definition wrap (opening closing gap ind : jsstring) (parts : list jsstring)
  : jsstring :=
  match parts with
  | [] => opening ++ closing
  | _ =>
      match gap with
      | [] => opening ++ join (js ",") parts ++ closing
      | _ =>
          let inner := ind ++ gap in
          opening ++ [10%N] ++ inner
          ++ join (js "," ++ [10%N] ++ inner) parts
          ++ [10%N] ++ ind ++ closing
      end
  end.

Definition number_to_string (n : Z) : jsstring :=
  js (NilZero.string_of_int (Z.to_int n)).

Fixpoint serialize (gap ind : jsstring) (v : json) : jsstring :=
  match v with
  | JNull => js "null"
  | JBool true => js "true"
  | JBool false => js "false"
  | JNum n => number_to_string n
  | JStr s => quote s
  | JArr items =>
      wrap (js "[") (js "]") gap ind
        (map (serialize gap (ind ++ gap)) items)
  | JObj fields =>
      wrap (js "{") (js "}") gap ind
        (map (fun kv =>
                match kv with
                | (k, x) =>
                    quote k ++ js ":"
                    ++ (match gap with [] => [] | _ => js " " end)
                    ++ serialize gap (ind ++ gap) x
                end) fields)
  end.

(** [JSON.stringify(v)] *)
Definition JSON_stringify (v : json) : jsstring := serialize [] [] v.

(** [JSON.stringify(v, null, 2)] *)
Definition JSON_stringify_2 (v : json) : jsstring := serialize (js "  ") [] v.

(** An object literal whose property values may be undefined, as
    [JSON.stringify] sees it: undefined properties are left out. *)
Fixpoint literal (fields : list (string * jsval)) : list (jsstring * json) :=
  match fields with
  | [] => []
  | (k, Some v) :: fs => (js k, v) :: literal fs
  | (_, None) :: fs => literal fs
  end.

(** Thrown values: the program only ever reads [err.message]. *)
Inductive exn : Type :=
| Error (message : jsstring)
| TypeError (message : jsstring)
| SyntaxError (message : jsstring).

Definition message (e : exn) : jsstring :=
  match e with
  | Error m => m
  | TypeError m => m
  | SyntaxError m => m
  end.

(** The result of running a piece of code: a value or a thrown error. *)
Inductive outcome (A : Type) : Type :=
| Return (a : A)
| Throw (e : exn).

Arguments Throw {A}.

Definition throws {A} (r : outcome A) : bool :=
  match r with
  | Return _ => false
  | Throw _ => true
  end.

End JS.

Import JS.

(* ================================================================== *)
(** * The CallTool request handler (the same code in both variants)     *)
(* ================================================================== *)

Module Mcp.

(** The object the request handler returns.  [content] always holds one
    entry of type [text]; [isError] is [false] where the source leaves the
    property out. *)
Record response : Type := { text : json; isError : bool }.

(** [request.params.arguments], an object when present. *)
Definition arguments := list (jsstring * json).

Section Dispatch.
Variable world : Type.

(** A tool handler: an async function of the arguments object. *)
Definition handler := arguments -> world -> outcome jsstring * world.

Variable TOOL_HANDLERS : object handler.

(** What [handler(args)] does when [handler] is a builtin inherited from
    [Object.prototype], called without a receiver in module (strict) code:
    [Object(args)] hands back [args]; [toString] answers for [undefined];
    [__proto__] is not callable; [toLocaleString] refuses the missing
    receiver by name; the remaining builtins convert the missing receiver
    to an object first and fail. *)
Definition call_inherited (name : jsstring) (args : arguments) : outcome json :=
  if eqb name (js "constructor") then Return (JObj args)
  else if eqb name (js "toString") then Return (JStr (js "[object Undefined]"))
  else if eqb name (js "__proto__")
       then Throw (TypeError (js "handler is not a function"))
  else if eqb name (js "toLocaleString")
       then Throw (TypeError
                     (js "Object.prototype.toLocaleString called on "
                      ++ js "null or undefined"))
  else Throw (TypeError (js "Cannot convert undefined or null to object")).

Definition failure (msg : jsstring) : response :=
  {| text := JStr msg; isError := true |}.

(** [args || {}] *)
Definition args_or_empty (args : option arguments) : arguments :=
  match args with
  | Some a => a
  | None => []
  end.

Definition CallTool (name : jsstring) (args : option arguments) (w : world)
  : response * world :=
  match get name TOOL_HANDLERS with
  | Absent => (failure (js "Unknown tool: " ++ name), w)
  | Own h =>
      match h (args_or_empty args) w with
      | (Return result, w') => ({| text := JStr result; isError := false |}, w')
      | (Throw err, w') => (failure (js "Error: " ++ message err), w')
      end
  | Inherited =>
      match call_inherited name (args_or_empty args) with
      | Return result => ({| text := result; isError := false |}, w)
      | Throw err => (failure (js "Error: " ++ message err), w)
      end
  end.

End Dispatch.

End Mcp.

(* ================================================================== *)
(** * The variant that runs the sf executable                           *)
(* ================================================================== *)

Module Cli.

(** How [execFileAsync] ends: the child exits normally, or the promise is
    rejected with an error that carries what the child wrote. *)
Inductive exec_result : Type :=
| Exited (stdout stderr : jsstring)
| Failed (stdout stderr message : jsstring).

(** The environment: what running [sf] with given arguments gives, and the
    argument lists it has been run with so far. *)
Record world : Type := {
  execFile : list jsstring -> exec_result;
  spawned : list (list jsstring)
}.

Definition spawn (args : list jsstring) (w : world) : world :=
  {| execFile := execFile w; spawned := spawned w ++ [args] |}.

Definition nonempty (s : jsstring) : bool :=
  match s with [] => false | _ => true end.

Definition runSf (args : list jsstring) (w : world)
  : outcome jsstring * world :=
  match execFile w args with
  | Exited stdout stderr =>
      (Return (if nonempty stdout then stdout else stderr), spawn args w)
  | Failed stdout stderr msg =>
      if nonempty stdout then (Return stdout, spawn args w)
      else if nonempty stderr then (Return stderr, spawn args w)
      else (Throw (Error (js "sf command failed: " ++ msg)), spawn args w)
  end.

(** The code units the regular expression class [\s] matches. *)
Definition is_whitespace (c : N) : bool :=
  ((N.leb 9 c && N.leb c 13)
   || N.eqb c 32 || N.eqb c 160 || N.eqb c 5760
   || (N.leb 8192 c && N.leb c 8202)
   || N.eqb c 8232 || N.eqb c 8233 || N.eqb c 8239 || N.eqb c 8287
   || N.eqb c 12288 || N.eqb c 65279)%bool.

(** [s.split(/\s+/)]: [cur] is the token being read, most recent unit
    first, and [in_run] tells whether the previous unit was whitespace. *)
Fixpoint split_from (in_run : bool) (cur : jsstring) (s : jsstring)
  : list jsstring :=
  match s with
  | [] => [rev cur]
  | c :: s' =>
      if is_whitespace c
      then if in_run then split_from true cur s'
           else rev cur :: split_from true [] s'
      else split_from false (c :: cur) s'
  end.

Definition split_whitespace (s : jsstring) : list jsstring :=
  split_from false [] s.

(** A token without a whitespace unit. *)
Definition whitespace_free (t : jsstring) : Prop :=
  Forall (fun c => is_whitespace c = false) t.

(** The code units of the class [\s]: the white space and the line
    terminators of ECMAScript. *)
Definition whitespace_units : list N :=
  [ 9; 10; 11; 12; 13; 32; 160; 5760;
    8192; 8193; 8194; 8195; 8196; 8197; 8198; 8199; 8200; 8201; 8202;
    8232; 8233; 8239; 8287; 12288; 65279 ]%N.

Definition all_whitespace (sep : jsstring) : Prop :=
  Forall (fun c => is_whitespace c = true) sep.

(** A text that is empty or starts with a unit that is not whitespace. *)
Definition token_starts (s : jsstring) : Prop :=
  match s with
  | [] => True
  | c :: _ => is_whitespace c = false
  end.

(** Following the claim's words, the whitespace-split tokens of a text: the
    text is its tokens with a run of whitespace between each two of them; no
    token holds whitespace; and the runs are as long as they can be, so that
    only the first and the last token can be empty. *)
Inductive tokens_of : jsstring -> list jsstring -> Prop :=
| last_token (t : jsstring) :
    whitespace_free t -> tokens_of t [t]
| next_token (t sep rest : jsstring) (tokens : list jsstring) :
    whitespace_free t ->
    sep <> [] -> all_whitespace sep ->
    token_starts rest ->
    tokens_of rest tokens ->
    tokens_of (t ++ sep ++ rest) (t :: tokens).

(** [args.includes(x)] *)
Definition includes (args : list jsstring) (x : jsstring) : bool :=
  existsb (eqb x) args.

(** [if (!args.includes("--json")) args.push("--json")] *)
Definition ensure_json (args : list jsstring) : list jsstring :=
  if includes args (js "--json") then args else args ++ [js "--json"].

Definition sf_run_command_args (command : jsstring) : list jsstring :=
  ensure_json (split_whitespace command).

Definition sf_run_command : Mcp.handler world :=
  fun args w =>
    match own (js "command") args with
    | Some (JStr command) => runSf (sf_run_command_args command) w
    | Some JNull =>
        (Throw (TypeError
                  (js "Cannot read properties of null (reading 'split')")), w)
    | Some _ => (Throw (TypeError (js "command.split is not a function")), w)
    | None =>
        (Throw (TypeError
                  (js "Cannot read properties of undefined (reading 'split')")), w)
    end.

Definition sf_org_list : Mcp.handler world :=
  fun args w =>
    let base := [js "org"; js "list"; js "--json"] in
    runSf (if truthy (own (js "all") args) then base ++ [js "--all"] else base) w.

(** The two entries of the table that the dispatch is followed through
    here.  The source's table has nineteen more ([CliTools.HANDLERS] names
    them all); what each of them hands to [runSf] is in [CliTools]. *)
Definition TOOL_HANDLERS : object (Mcp.handler world) :=
  [ (js "sf_org_list", sf_org_list);
    (js "sf_run_command", sf_run_command) ].

Definition CallTool := Mcp.CallTool TOOL_HANDLERS.

(** An environment in which [sf] fails after writing [out] and [err]. *)
Definition failing (out err : jsstring) : world :=
  {| execFile := fun _ => Failed out err (js "Command failed: sf");
     spawned := [] |}.

End Cli.

(* ================================================================== *)
(** * The variant that calls the REST API (src/server/index.js)         *)
(* ================================================================== *)

Module Rest.

Definition API_VERSION : jsstring := js "62.0".
Definition CLIENT_ID : jsstring := js "PlatformCLI".
Definition CALLBACK_PORT : Z := 1717.

(** ** Credential records

    The object [oauthLogin] builds and [credentials.json] stores under an
    alias.  A property that is [undefined] is left out of the file and reads
    back as [undefined]. *)
Module Org.
Record t : Type := {
  accessToken : jsval;
  refreshToken : jsval;
  instanceUrl : jsval;
  loginUrl : jsval;
  username : jsval;
  orgId : jsval;
  displayName : jsval;
  authenticatedAt : jsval
}.

(** What spreading a value without own enumerable properties gives. *)
Definition empty : t :=
  {| accessToken := None; refreshToken := None; instanceUrl := None;
     loginUrl := None; username := None; orgId := None;
     displayName := None; authenticatedAt := None |}.

Definition set_accessToken (v : jsval) (o : t) : t :=
  {| accessToken := v; refreshToken := refreshToken o;
     instanceUrl := instanceUrl o; loginUrl := loginUrl o;
     username := username o; orgId := orgId o;
     displayName := displayName o; authenticatedAt := authenticatedAt o |}.

Definition set_instanceUrl (v : jsval) (o : t) : t :=
  {| accessToken := accessToken o; refreshToken := refreshToken o;
     instanceUrl := v; loginUrl := loginUrl o;
     username := username o; orgId := orgId o;
     displayName := displayName o; authenticatedAt := authenticatedAt o |}.
End Org.

(** The parsed content of [credentials.json], taken to be what [saveOrgs]
    writes: alias to record.  ([File], further down, follows the handlers
    that read nothing but the file on whatever [JSON.parse] returns.) *)
Definition store := object Org.t.

(** [{ _alias: key, ...orgs[key] }] *)
Record org : Type := { _alias : jsstring; fields : Org.t }.

(** ** The environment *)

Inductive request : Type :=
| ApiRequest (instanceUrl : jsval) (path : jsstring)
    (method : json) (token : jsval) (body : option jsstring)
| RawRequest (instanceUrl : jsval) (fullPath : jsstring)
    (method : json) (token : jsval) (body : option jsstring)
| RefreshRequest (loginUrl : jsval) (refresh_token : jsval).

(** A response: its status, and what [res.json()] gives. *)
Record response : Type := { status : Z; res_json : outcome json }.

Definition ok (r : response) : bool :=
  (Z.leb 200 (status r) && Z.leb (status r) 299)%bool.

Record world : Type := {
  (** [credentials.json]; [None] when it is missing or does not parse *)
  credentials : option store;
  (** [process.env.DEFAULT_ORG] *)
  DEFAULT_ORG : option jsstring;
  (** what the network answers to a request, given the earlier ones *)
  network : list request -> request -> outcome response;
  (** the requests issued so far, oldest first *)
  requests : list request;
  (** what [writeFileSync] has written to [credentials.json], oldest first *)
  writes : list store
}.

(** Async code that reads and changes the environment and may throw. *)
Definition M (A : Type) : Type := world -> outcome A * world.

Definition ret {A} (a : A) : M A := fun w => (Return a, w).
Definition throw {A} (e : exn) : M A := fun w => (Throw e, w).
Definition lift {A} (r : outcome A) : M A := fun w => (r, w).
Definition bind {A B} (m : M A) (k : A -> M B) : M B :=
  fun w =>
    match m w with
    | (Return a, w') => k a w'
    | (Throw e, w') => (Throw e, w')
    end.

Notation "x <- m ;; k" := (bind m (fun x => k))
  (at level 61, m at next level, right associativity).

Definition loadOrgs (w : world) : store :=
  match credentials w with
  | Some orgs => orgs
  | None => []
  end.

Definition saveOrgs (orgs : store) : M unit :=
  fun w =>
    (Return tt,
     {| credentials := Some orgs; DEFAULT_ORG := DEFAULT_ORG w;
        network := network w; requests := requests w;
        writes := writes w ++ [orgs] |}).

Definition fetch (rq : request) : M response :=
  fun w =>
    (network w (requests w) rq,
     {| credentials := credentials w; DEFAULT_ORG := DEFAULT_ORG w;
        network := network w; requests := requests w ++ [rq];
        writes := writes w |}).

Definition no_orgs_message : jsstring :=
  js "No Salesforce orgs connected. Use the sf_org_login tool to authenticate.".

Definition first_org (orgs : store) : outcome org :=
  match orgs with
  | [] => Throw (Error no_orgs_message)
  | (k, r) :: _ => Return {| _alias := k; fields := r |}
  end.

Definition getOrg (alias : option jsstring) : M org :=
  fun w =>
    let orgs := loadOrgs w in
    match str_or alias (DEFAULT_ORG w) with
    | Some ((_ :: _) as key) =>
        match get key orgs with
        | Own r => (Return {| _alias := key; fields := r |}, w)
        | Inherited => (Return {| _alias := key; fields := Org.empty |}, w)
        | Absent => (first_org orgs, w)
        end
    | _ => (first_org orgs, w)
    end.

(** [data.name] for a parsed body (none of the names the program reads is a
    builtin of a prototype). *)
Definition field (name : string) (data : json) : outcome jsval :=
  match data with
  | JNull =>
      Throw (TypeError
               (js "Cannot read properties of null (reading '"
                ++ js name ++ js "')"))
  | JObj fs => Return (own (js name) fs)
  | _ => Return None
  end.

Definition session_expired : jsstring :=
  js "Session expired. Re-authenticate with sf_org_login.".

Definition refreshToken (o : org) : M jsval :=
  res <- fetch (RefreshRequest (Org.loginUrl (fields o))
                  (Org.refreshToken (fields o))) ;;
  if negb (ok res) then throw (Error session_expired)
  else
    data <- lift (res_json res) ;;
    (fun w =>
       let orgs := loadOrgs w in
       match get (_alias o) orgs with
       | Own r =>
           (access_token <- lift (field "access_token" data) ;;
            instance_url <- lift (field "instance_url" data) ;;
            let r1 := Org.set_accessToken access_token r in
            let r2 := if truthy instance_url
                      then Org.set_instanceUrl instance_url r1 else r1 in
            _ <- saveOrgs (replace (_alias o) r2 orgs) ;;
            lift (field "access_token" data)) w
       | Inherited =>
           (* the writes land on the builtin, outside the store *)
           (_ <- lift (field "access_token" data) ;;
            _ <- lift (field "instance_url" data) ;;
            _ <- saveOrgs orgs ;;
            lift (field "access_token" data)) w
       | Absent => lift (field "access_token" data) w
       end).

(** The [opts] argument of [sfApi] and [sfRawApi]; no caller passes headers. *)
Record opts : Type := { opt_method : jsval; opt_body : jsval }.

Definition no_opts : opts := {| opt_method := None; opt_body := None |}.

Definition request_method (o : opts) : json :=
  match val_or (opt_method o) (Some (JStr (js "GET"))) with
  | Some m => m
  | None => JStr (js "GET")
  end.

Definition request_body (o : opts) : option jsstring :=
  match opt_body o with
  | None => None
  | Some JNull => None
  | Some (JStr s) => Some s
  | Some v => Some (JSON_stringify v)
  end.

Definition success_true : json := JObj [(js "success", JBool true)].

Definition sfApi (orgAlias : option jsstring) (path : jsstring) (o : opts)
  : M json :=
  org <- getOrg orgAlias ;;
  let doFetch := fun token =>
    fetch (ApiRequest (Org.instanceUrl (fields org)) path
             (request_method o) token (request_body o)) in
  res <- doFetch (Org.accessToken (fields org)) ;;
  res <- (if (Z.eqb (status res) 401
              && truthy (Org.refreshToken (fields org)))%bool
          then newToken <- refreshToken org ;; doFetch newToken
          else ret res) ;;
  if Z.eqb (status res) 204 then ret success_true
  else
    data <- lift (res_json res) ;;
    if negb (ok res) then throw (Error (JSON_stringify_2 data))
    else ret data.

Definition sfRawApi (orgAlias : option jsstring) (fullPath : jsstring) (o : opts)
  : M response :=
  org <- getOrg orgAlias ;;
  let doFetch := fun token =>
    fetch (RawRequest (Org.instanceUrl (fields org)) fullPath
             (request_method o) token (request_body o)) in
  res <- doFetch (Org.accessToken (fields org)) ;;
  res <- (if (Z.eqb (status res) 401
              && truthy (Org.refreshToken (fields org)))%bool
          then newToken <- refreshToken org ;; doFetch newToken
          else ret res) ;;
  ret res.

(** ** Tool handlers on the credential store *)

(** The property key and the text an alias turns into ([undefined] when the
    caller left it out). *)
Definition alias_key (alias : option jsstring) : jsstring :=
  match alias with
  | Some a => a
  | None => js "undefined"
  end.

Definition not_found (alias : option jsstring) : jsstring :=
  JSON_stringify
    (JObj [(js "error",
            JStr (js "Org " ++ [34%N] ++ alias_key alias ++ [34%N]
                  ++ js " not found"))]).

Definition removed (alias : option jsstring) : jsstring :=
  JSON_stringify
    (JObj (literal [("success"%string, Some (JBool true));
                    ("removed"%string, option_map JStr alias)])).

Definition sf_org_logout (alias : option jsstring) : M jsstring :=
  fun w =>
    let orgs := loadOrgs w in
    match get (alias_key alias) orgs with
    | Absent => (Return (not_found alias), w)
    | _ =>
        (_ <- saveOrgs (delete (alias_key alias) orgs) ;;
         ret (removed alias)) w
    end.

(** ** The OAuth login flow

    [oauthLogin] starts a listener, a timer and returns a promise; from
    then on the event loop runs one callback or one continuation of an
    async request handler at a time, each to its next [await] or to its end.
    [step] is one such turn. *)

(** [new URL(req.url, ...)], with the two query parameters the handler
    reads ([None] where [searchParams.get] gives [null]). *)
Record callback_url : Type := {
  pathname : jsstring;
  code : option jsstring;
  error : option jsstring
}.

(** Where a request handler that got past its checks is waiting. *)
Inductive phase : Type :=
| AwaitTokenFetch                    (* await fetch(<token endpoint>) *)
| AwaitTokenText                     (* await tokenRes.text() *)
| AwaitTokenJson                     (* await tokenRes.json() *)
| AwaitIdentityFetch (tokens : json) (* await fetch(tokens.id) *)
| AwaitIdentityJson (tokens : json)  (* await idRes.json() *)
| Finished.

(** What an awaited promise settles with. *)
Inductive resumption : Type :=
| Responded (status : Z)  (* fetch: a response with this status *)
| Text (s : jsstring)     (* text() *)
| Parsed (d : json)       (* json() *)
| Failed (e : exn).       (* the awaited promise is rejected *)

Inductive event : Type :=
| Request (url : option callback_url)
    (* [None]: [new URL(req.url, ...)] throws *)
| Resume (i : nat) (r : resumption) (now : jsstring)
    (* handler [i] continues; [now] is [new Date().toISOString()] *)
| ServerError (msg : jsstring)        (* httpServer emits 'error' *)
| Timeout.                            (* the 120000 ms timer fires *)

Inductive promise : Type :=
| Pending
| Fulfilled (orgData : Org.t)
| Rejected (e : exn).

(** One invocation of [resolve] or [reject]: the value [settled] had before
    the assignment [settled = true] that precedes the invocation, and what
    the invocation asks for. *)
Record call : Type := { settled_before : bool; verdict : promise }.

Record login : Type := {
  alias : jsstring;       (* the two arguments of oauthLogin *)
  loginUrl : jsstring;
  settled : bool;
  state : promise;        (* of the promise [oauthLogin] returned *)
  calls : list call;      (* invocations of resolve and reject, oldest first *)
  closed : bool;          (* httpServer.close() has been called *)
  replies : list Z;       (* statuses written with res.writeHead *)
  handlers : list phase;  (* request handlers that reached an await *)
  file : option store;    (* credentials.json *)
  exited : bool           (* the process has exited on an uncaught error *)
}.

Definition oauthLogin (alias loginUrl : jsstring) (creds : option store)
  : login :=
  {| alias := alias; loginUrl := loginUrl; settled := false;
     state := Pending; calls := []; closed := false;
     replies := []; handlers := []; file := creds; exited := false |}.

(** [settled = true], the reply and [httpServer.close()] where the source
    has them, then [resolve] or [reject]; a promise that is no longer
    pending ignores the invocation. *)
Definition finish (reply : list Z) (close : bool) (v : promise) (s : login)
  : login :=
  {| alias := alias s; loginUrl := loginUrl s; settled := true;
     state := match state s with Pending => v | p => p end;
     calls := calls s ++ [{| settled_before := settled s; verdict := v |}];
     closed := (closed s || close)%bool;
     replies := replies s ++ reply;
     handlers := handlers s;
     file := file s; exited := exited s |}.

Fixpoint update (i : nat) (p : phase) (hs : list phase) : list phase :=
  match hs, i with
  | [], _ => []
  | _ :: hs', O => p :: hs'
  | h :: hs', S i' => h :: update i' p hs'
  end.

Definition at_phase (i : nat) (p : phase) (s : login) : login :=
  {| alias := alias s; loginUrl := loginUrl s; settled := settled s;
     state := state s; calls := calls s;
     closed := closed s; replies := replies s;
     handlers := update i p (handlers s); file := file s;
     exited := exited s |}.

Definition and_then {A B} (r : outcome A) (k : A -> outcome B) : outcome B :=
  match r with
  | Return a => k a
  | Throw e => Throw e
  end.

Definition or_empty (v : jsval) : jsval := val_or v (Some (JStr [])).

Definition orgData (loginUrl now : jsstring) (tokens identity : json)
  : outcome Org.t :=
  and_then (field "access_token" tokens) (fun access_token =>
  and_then (field "refresh_token" tokens) (fun refresh_token =>
  and_then (field "instance_url" tokens) (fun instance_url =>
  and_then (field "username" identity) (fun username =>
  and_then (field "organization_id" identity) (fun organization_id =>
  and_then (field "display_name" identity) (fun display_name =>
  Return
    {| Org.accessToken := access_token;
       Org.refreshToken := refresh_token;
       Org.instanceUrl := instance_url;
       Org.loginUrl := Some (JStr loginUrl);
       Org.username := or_empty username;
       Org.orgId := or_empty organization_id;
       Org.displayName := or_empty display_name;
       Org.authenticatedAt := Some (JStr now) |})))))).

(** From the end of the identity lookup to the end of the handler. *)
Definition complete (now : jsstring) (tokens identity : json) (s : login)
  : login :=
  match orgData (loginUrl s) now tokens identity with
  | Return data =>
      let orgs := match file s with Some o => o | None => [] end in
      let saved :=
        {| alias := alias s; loginUrl := loginUrl s; settled := settled s;
           state := state s; calls := calls s;
           closed := closed s; replies := replies s; handlers := handlers s;
           file := Some (set (alias s) data orgs); exited := exited s |} in
      finish [200%Z] true (Fulfilled data) saved
  | Throw err => finish [500%Z] true (Rejected err) s
  end.

(** The continuation of handler [i], waiting at [p], resumed with [r]. *)
Definition resume (i : nat) (p : phase) (r : resumption) (now : jsstring)
  (s : login) : login :=
  let done := at_phase i Finished s in
  match p, r with
  | AwaitTokenFetch, Responded st =>
      if (Z.leb 200 st && Z.leb st 299)%bool
      then at_phase i AwaitTokenJson s
      else at_phase i AwaitTokenText s
  | AwaitTokenFetch, Failed err => finish [500%Z] true (Rejected err) done
  | AwaitTokenText, Text t => finish [500%Z] true (Rejected (Error t)) done
  | AwaitTokenText, Failed err => finish [500%Z] true (Rejected err) done
  | AwaitTokenJson, Parsed tokens =>
      match field "id" tokens with
      | Return _ => at_phase i (AwaitIdentityFetch tokens) s
      | Throw _ => complete now tokens (JObj []) done
      end
  | AwaitTokenJson, Failed err => finish [500%Z] true (Rejected err) done
  | AwaitIdentityFetch tokens, Responded st =>
      if (Z.leb 200 st && Z.leb st 299)%bool
      then at_phase i (AwaitIdentityJson tokens) s
      else complete now tokens (JObj []) done
  | AwaitIdentityFetch tokens, Failed _ =>
      complete now tokens (JObj []) done
  | AwaitIdentityJson tokens, Parsed identity =>
      complete now tokens identity done
  | AwaitIdentityJson tokens, Failed _ =>
      complete now tokens (JObj []) done
  | _, _ => s   (* not what this handler is waiting for *)
  end.

Definition no_code : jsstring := js "No authorization code received".

(** An error that no [try] of the listener catches: the promise the async
    listener returned is rejected and nothing handles the rejection, so Node
    ends the process before another callback runs. *)
Definition exit (s : login) : login :=
  {| alias := alias s; loginUrl := loginUrl s; settled := settled s;
     state := state s; calls := calls s;
     closed := closed s; replies := replies s;
     handlers := handlers s; file := file s; exited := true |}.

(** One callback or continuation in a process that is running.  In the
    request listener [new URL(req.url, ...)] comes after the test of
    [settled] and before the [try]. *)
Definition turn (ev : event) (s : login) : login :=
  match ev with
  | Request url =>
      if settled s then s
      else
        match url with
        | None => exit s
        | Some u =>
            if negb (eqb (pathname u) (js "/OauthRedirect"))
            then {| alias := alias s; loginUrl := loginUrl s;
                    settled := settled s; state := state s; calls := calls s;
                    closed := closed s; replies := replies s ++ [404%Z];
                    handlers := handlers s; file := file s;
                    exited := exited s |}
            else if (str_truthy (error u) || negb (str_truthy (code u)))%bool
            then finish [400%Z] true
                   (Rejected (Error (match str_or (error u) (Some no_code) with
                                     | Some m => m
                                     | None => no_code
                                     end))) s
            else {| alias := alias s; loginUrl := loginUrl s;
                    settled := settled s; state := state s; calls := calls s;
                    closed := closed s; replies := replies s;
                    handlers := handlers s ++ [AwaitTokenFetch];
                    file := file s; exited := exited s |}
        end
  | Resume i r now =>
      match nth_error (handlers s) i with
      | Some p => resume i p r now s
      | None => s
      end
  | ServerError msg =>
      if settled s then s
      else finish [] false
             (Rejected
                (Error (js "Could not start login server on port 1717: "
                        ++ msg ++ js ". Is another sf login in progress?"))) s
  | Timeout =>
      if settled s then s
      else finish [] true
             (Rejected (Error (js "Login timed out after 2 minutes. Try again."))) s
  end.

(** One turn of the event loop: nothing runs in a process that has
    exited. *)
Definition step (ev : event) (s : login) : login :=
  if exited s then s else turn ev s.

(** The state after the events of an interleaving, in order. *)
Definition run (evs : list event) (s : login) : login :=
  fold_left (fun s ev => step ev s) evs s.

(** ** Notions the properties are stated with *)

(** No alias occurs twice among the keys of the store. *)
Definition unique_aliases (orgs : store) : Prop := NoDup (Object_keys orgs).

Definition stored (f : option store) : store :=
  match f with
  | Some orgs => orgs
  | None => []
  end.

(** The request [doFetch(token)] issues in [sfApi] and in [sfRawApi]. *)
Definition api_request (o : org) (path : jsstring) (op : opts) (token : jsval)
  : request :=
  ApiRequest (Org.instanceUrl (fields o)) path
    (request_method op) token (request_body op).


(** The request [refreshToken(org)] issues. *)
Definition refresh_request (o : org) : request :=
  RefreshRequest (Org.loginUrl (fields o)) (Org.refreshToken (fields o)).

Definition is_refresh (rq : request) : bool :=
  match rq with
  | RefreshRequest _ _ => true
  | _ => false
  end.

(** The requests a call added to the log, [w] before and [w'] after it. *)
Definition issued (w w' : world) : list request :=
  skipn (List.length (requests w)) (requests w').

(** How many of them went to the token endpoint, and how many were the
    request of the call itself. *)
Definition refreshes (l : list request) : nat :=
  List.length (filter is_refresh l).

Definition request_fetches (l : list request) : nat :=
  List.length (filter (fun rq => negb (is_refresh rq)) l).

(** A refresh followed by one retry: the request, the refresh request, the
    request again. *)
Definition refresh_then_retry (l : list request) : bool :=
  match l with
  | [a; b; c] => (negb (is_refresh a) && is_refresh b && negb (is_refresh c))%bool
  | _ => false
  end.

(** The response [sfApi] turns into its result: the first one when no
    refresh is due, the one to the retry otherwise. *)
Inductive final_response (alias : option jsstring) (path : jsstring)
  (op : opts) (w : world) : response -> Prop :=
| first_is_final (o : org) (r : response) :
    getOrg alias w = (Return o, w) ->
    network w (requests w) (api_request o path op (Org.accessToken (fields o)))
    = Return r ->
    (Z.eqb (status r) 401 && truthy (Org.refreshToken (fields o)))%bool = false ->
    final_response alias path op w r
| retry_is_final (o : org) (r1 r : response) (w1 w2 : world) (token : jsval) :
    getOrg alias w = (Return o, w) ->
    fetch (api_request o path op (Org.accessToken (fields o))) w
    = (Return r1, w1) ->
    (Z.eqb (status r1) 401 && truthy (Org.refreshToken (fields o)))%bool = true ->
    refreshToken o w1 = (Return token, w2) ->
    network w2 (requests w2) (api_request o path op token) = Return r ->
    final_response alias path op w r.

(** The last lines of [sfApi], from [if (res.status === 204)] on, as a
    function of the response they read. *)
Definition result_of (r : response) : outcome json :=
  if Z.eqb (status r) 204 then Return success_true
  else match res_json r with
       | Return data =>
           if negb (ok r) then Throw (Error (JSON_stringify_2 data))
           else Return data
       | Throw e => Throw e
       end.

(** What a call whose first request [mk (accessToken)] was answered with
    [r1] has added to the log, [w] before and [w'] after the call:
    - one refresh request exactly when [r1] has status 401 and the org has a
      truthy [refreshToken], none otherwise;
    - a refresh followed by the request again exactly when, besides, the
      refresh returned a token;
    - the request of the call at most twice;
    - in full: the request; then, if the refresh is due, the refresh
      request; then, if the refresh returned, the request with the new token. *)
Definition refresh_policy (mk : jsval -> request) (o : org) (r1 : response)
  (w w' : world) : Prop :=
  let first := mk (Org.accessToken (fields o)) in
  let refreshed := fst (refreshToken o (snd (fetch first w))) in
  let new := issued w w' in
  (refreshes new = 1
   <-> status r1 = 401%Z /\ truthy (Org.refreshToken (fields o)) = true)
  /\ (refreshes new = 0
      <-> ~ (status r1 = 401%Z /\ truthy (Org.refreshToken (fields o)) = true))
  /\ (refresh_then_retry new = true
      <-> status r1 = 401%Z /\ truthy (Org.refreshToken (fields o)) = true
          /\ throws refreshed = false)
  /\ request_fetches new <= 2
  /\ new
     = first
       :: (if (Z.eqb (status r1) 401
               && truthy (Org.refreshToken (fields o)))%bool
           then refresh_request o
                :: match refreshed with
                   | Return token => [mk token]
                   | Throw _ => []
                   end
           else []).


(** What every reachable state of a login satisfies: either nothing has
    been invoked, the flag is down and the promise is pending; or the flag is
    up, the first invocation found it down and settled the promise, and every
    later invocation found it up. *)
Inductive login_invariant (s : login) : Prop :=
| still_pending :
    settled s = false -> state s = Pending -> calls s = [] ->
    login_invariant s
| settled_by_first (c : call) (later : list call) :
    settled s = true ->
    calls s = c :: later ->
    settled_before c = false ->
    verdict c <> Pending ->
    state s = verdict c ->
    Forall (fun c' => settled_before c' = true) later ->
    login_invariant s.

(** The invocations that found the flag down. *)
Definition unguarded (cs : list call) : list call :=
  filter (fun c => negb (settled_before c)) cs.

(** ** Sample environments *)

(** A network that answers the n-th request with the n-th entry. *)
Definition scripted (answers : list (outcome response))
  : list request -> request -> outcome response :=
  fun earlier _ =>
    nth (List.length earlier) answers (Throw (TypeError (js "fetch failed"))).

Definition sample_org : Org.t :=
  {| Org.accessToken := Some (JStr (js "00D-old"));
     Org.refreshToken := Some (JStr (js "5Aep"));
     Org.instanceUrl := Some (JStr (js "https://na1.my.salesforce.com"));
     Org.loginUrl := Some (JStr (js "https://login.salesforce.com"));
     Org.username := Some (JStr (js "ada@example.com"));
     Org.orgId := Some (JStr (js "00D000000000001"));
     Org.displayName := Some (JStr (js "Ada"));
     Org.authenticatedAt := Some (JStr (js "2025-01-01T00:00:00.000Z")) |}.

Definition sample_store : store :=
  [(js "prod", sample_org);
   (js "dev", Org.set_accessToken (Some (JStr (js "00D-dev"))) sample_org)].

Definition sample_world (creds : option store)
  (answers : list (outcome response)) : world :=
  {| credentials := creds; DEFAULT_ORG := None;
     network := scripted answers; requests := []; writes := [] |}.

Definition answer (st : Z) (body : json) : outcome response :=
  Return {| status := st; res_json := Return body |}.

Definition not_json (st : Z) : outcome response :=
  Return {| status := st;
            res_json := Throw (SyntaxError (js "Unexpected token < in JSON")) |}.

(** A callback with an authorization code. *)
Definition sample_callback : event :=
  Request (Some {| pathname := js "/OauthRedirect";
                   code := Some (js "aPrx"); error := None |}).

End Rest.

(* ================================================================== *)
(** * More of the JavaScript library                                    *)
(* ================================================================== *)

Module Builtins.

(** [String(v)] for a JSON value: arrays join the texts of their elements
    with commas ([null] counts as empty); an object without an own
    [toString] gives "[object Object]", and one with an own [toString]
    (never a function in JSON) cannot be converted. *)
Fixpoint ToString (v : json) : outcome jsstring :=
  match v with
  | JNull => Return (js "null")
  | JBool true => Return (js "true")
  | JBool false => Return (js "false")
  | JNum n => Return (number_to_string n)
  | JStr s => Return s
  | JArr items =>
      (fix elements (l : list json) : outcome jsstring :=
         match l with
         | [] => Return []
         | x :: l' =>
             match (match x with JNull => Return [] | _ => ToString x end) with
             | Throw e => Throw e
             | Return t =>
                 match l' with
                 | [] => Return t
                 | _ => match elements l' with
                        | Return rest => Return (t ++ js "," ++ rest)
                        | Throw e => Throw e
                        end
                 end
             end
         end) items
  | JObj fs =>
      match own (js "toString") fs with
      | None => Return (js "[object Object]")
      | Some _ =>
          Throw (TypeError (js "Cannot convert object to primitive value"))
      end
  end.

(** [String(v)] where [v] may be undefined. *)
Definition String_ (v : jsval) : outcome jsstring :=
  match v with
  | None => Return (js "undefined")
  | Some x => ToString x
  end.

(** [s.trim()] *)
Fixpoint trim_start (s : jsstring) : jsstring :=
  match s with
  | [] => []
  | c :: s' => if Cli.is_whitespace c then trim_start s' else s
  end.

Definition trim (s : jsstring) : jsstring :=
  rev (trim_start (rev (trim_start s))).

(** [s.split(",")]: [cur] is the piece being read, most recent unit first. *)
Fixpoint split_on (sep : N) (cur : jsstring) (s : jsstring) : list jsstring :=
  match s with
  | [] => [rev cur]
  | c :: s' =>
      if N.eqb c sep then rev cur :: split_on sep [] s'
      else split_on sep (c :: cur) s'
  end.

Definition split_comma (s : jsstring) : list jsstring := split_on 44 [] s.

(** ** encodeURIComponent *)

(** The units that are copied: letters, digits and [-_.!~*'()]. *)
Definition unreserved (c : N) : bool :=
  ((N.leb 65 c && N.leb c 90) || (N.leb 97 c && N.leb c 122)
   || (N.leb 48 c && N.leb c 57)
   || N.eqb c 45 || N.eqb c 95 || N.eqb c 46 || N.eqb c 33 || N.eqb c 126
   || N.eqb c 42 || N.eqb c 39 || N.eqb c 40 || N.eqb c 41)%bool.

Definition HEX (n : N) : N :=
  if N.ltb n 10 then (48 + n)%N else (55 + n)%N.

(** [%XX] with uppercase hexadecimal digits. *)
Definition percent (octet : N) : jsstring :=
  [37%N; HEX (N.modulo (N.div octet 16) 16); HEX (N.modulo octet 16)].

(** The UTF-8 octets of a code point. *)
Definition utf8 (cp : N) : list N :=
  if N.ltb cp 128 then [cp]
  else if N.ltb cp 2048 then
    [192 + N.div cp 64; 128 + N.modulo cp 64]%N
  else if N.ltb cp 65536 then
    [224 + N.div cp 4096; 128 + N.modulo (N.div cp 64) 64;
     128 + N.modulo cp 64]%N
  else
    [240 + N.modulo (N.div cp 262144) 8; 128 + N.modulo (N.div cp 4096) 64;
     128 + N.modulo (N.div cp 64) 64; 128 + N.modulo cp 64]%N.

Definition escape_code_point (cp : N) : jsstring :=
  flat_map percent (utf8 cp).

Definition URI_malformed : exn := Error (js "URI malformed").

(** Unit by unit; a surrogate pair is one code point, a surrogate on its
    own is an error. *)
Fixpoint encodeURIComponent (s : jsstring) : outcome jsstring :=
  match s with
  | [] => Return []
  | c :: s' =>
      if unreserved c then
        match encodeURIComponent s' with
        | Return rest => Return (c :: rest)
        | Throw e => Throw e
        end
      else if is_low_surrogate c then Throw URI_malformed
      else if is_high_surrogate c then
        match s' with
        | d :: s'' =>
            if is_low_surrogate d then
              match encodeURIComponent s'' with
              | Return rest =>
                  Return (escape_code_point
                            ((c - 55296) * 1024 + (d - 56320) + 65536)
                          ++ rest)
              | Throw e => Throw e
              end
            else Throw URI_malformed
        | [] => Throw URI_malformed
        end
      else
        match encodeURIComponent s' with
        | Return rest => Return (escape_code_point c ++ rest)
        | Throw e => Throw e
        end
  end.

(** The units [encodeURIComponent] can produce. *)
Definition uri_safe (c : N) : bool :=
  (unreserved c || N.eqb c 37)%bool.

(** ** Array.prototype.sort without a comparator, on strings *)

(** [a < b] by code units (equal strings are the same string, so the
    order of equal elements does not show). *)
Fixpoint lt (a b : jsstring) : bool :=
  match a, b with
  | _, [] => false
  | [], _ :: _ => true
  | x :: a', y :: b' =>
      if N.ltb x y then true
      else if N.ltb y x then false
      else lt a' b'
  end.

Fixpoint insert (x : jsstring) (l : list jsstring) : list jsstring :=
  match l with
  | [] => [x]
  | y :: l' => if lt x y then x :: l else y :: insert x l'
  end.

Fixpoint sort (l : list jsstring) : list jsstring :=
  match l with
  | [] => []
  | x :: l' => insert x (sort l')
  end.

End Builtins.

(* ================================================================== *)
(** * The sf variant: the rest of the file                              *)
(* ================================================================== *)

Module CliTools.

Import Cli.

(** ** findSfPath *)

(** A path as the list of the arguments of [join]; a literal path is a list
    of one. *)
Definition path := list jsstring.

Record host : Type := {
  SF_PATH_env : option jsstring;              (* process.env.SF_PATH *)
  home : jsstring;                            (* homedir() *)
  existsSync : path -> bool;
  readdirSync : path -> outcome (list jsstring)
}.

Definition fixed_candidates (h : host) : list path :=
  [ [home h; js ".local"; js "nodejs"; js "bin"; js "sf"];
    [home h; js ".local"; js "bin"; js "sf"];
    [home h; js ".nvm"; js "current"; js "bin"; js "sf"];
    [js "/usr/local/bin/sf"];
    [js "/opt/homebrew/bin/sf"];
    [js "/usr/bin/sf"];
    [home h; js ".volta"; js "bin"; js "sf"];
    [home h; js "AppData"; js "Roaming"; js "npm"; js "sf.cmd"];
    [home h; js "AppData"; js "Roaming"; js "npm"; js "sf"] ].

Definition nvmVersionsDir (h : host) : path :=
  [home h; js ".nvm"; js "versions"; js "node"].

(** The candidates below the nvm versions directory, newest name first;
    none when the directory is missing or cannot be read. *)
Definition nvm_candidates (h : host) : list path :=
  if existsSync h (nvmVersionsDir h) then
    match readdirSync h (nvmVersionsDir h) with
    | Return versions =>
        map (fun v => nvmVersionsDir h ++ [v; js "bin"; js "sf"])
          (rev (Builtins.sort versions))
    | Throw _ => []
    end
  else [].

Definition candidates (h : host) : list path :=
  fixed_candidates h ++ nvm_candidates h.

Definition findSfPath (h : host) : path :=
  let search :=
    match find (existsSync h) (candidates h) with
    | Some p => p
    | None => [js "sf"]
    end in
  match SF_PATH_env h with
  | Some ((_ :: _) as p) => if negb (eqb p (js "sf")) then [p] else search
  | _ => search
  end.

(** ** resolveOrg and orgArgs

    [D] is the constant [DEFAULT_ORG], that is [process.env.DEFAULT_ORG || ""].
    A string argument of a tool is a string or, when the caller left it out,
    undefined ([None]). *)

Definition DEFAULT_ORG (env : option jsstring) : jsstring :=
  match str_or env (Some []) with
  | Some d => d
  | None => []
  end.

Definition resolveOrg (D : jsstring) (orgAlias : option jsstring)
  : option jsstring :=
  match str_or (str_or orgAlias (Some D)) None with
  | Some ((_ :: _) as org) => Some org
  | _ => None
  end.

Definition orgArgs (D : jsstring) (orgAlias : option jsstring)
  : list jsstring :=
  match resolveOrg D orgAlias with
  | Some org => [js "--target-org"; org]
  | None => []
  end.

(** [if (x) args.push(flag, x)] *)
Definition flag_if (flag : string) (x : option jsstring) : list jsstring :=
  match x with
  | Some ((_ :: _) as v) => [js flag; v]
  | _ => []
  end.

(** [if (b) args.push(flag)] *)
Definition switch_if (flag : string) (b : jsval) : list jsstring :=
  if truthy b then [js flag] else [].

(** ** The argument list of each tool

    Arguments are typed as the input schema of the tool declares them:
    a required string is a string, an optional one may be undefined, a
    boolean or a number is any value. *)

Definition sf_org_list_args (all : jsval) : list jsstring :=
  [js "org"; js "list"; js "--json"] ++ switch_if "--all" all.

Definition sf_org_display_args (D : jsstring) (org : option jsstring)
  : list jsstring :=
  [js "org"; js "display"] ++ orgArgs D org ++ [js "--json"].

Definition sf_query_args (D : jsstring) (query : jsstring)
  (org : option jsstring) (tooling : jsval) : list jsstring :=
  [js "data"; js "query"; js "-q"; query] ++ orgArgs D org ++ [js "--json"]
  ++ switch_if "--use-tooling-api" tooling.

Definition sf_search_args (D : jsstring) (query : jsstring)
  (org : option jsstring) : list jsstring :=
  [js "data"; js "search"; js "-q"; query] ++ orgArgs D org ++ [js "--json"].

Definition sf_describe_args (D : jsstring) (sobject : jsstring)
  (org : option jsstring) (tooling : jsval) : list jsstring :=
  [js "sobject"; js "describe"; js "-s"; sobject] ++ orgArgs D org
  ++ [js "--json"] ++ switch_if "--use-tooling-api" tooling.

Definition sf_list_objects_args (D : jsstring) (org category : option jsstring)
  : list jsstring :=
  [js "sobject"; js "list"] ++ orgArgs D org ++ [js "--json"]
  ++ flag_if "-s" category.

Definition sf_create_record_args (D : jsstring) (sobject values : jsstring)
  (org : option jsstring) : list jsstring :=
  [js "data"; js "create"; js "record"; js "-s"; sobject; js "-v"; values]
  ++ orgArgs D org ++ [js "--json"].

Definition sf_update_record_args (D : jsstring) (sobject : jsstring)
  (record_id where_ : option jsstring) (values : jsstring)
  (org : option jsstring) : list jsstring :=
  [js "data"; js "update"; js "record"; js "-s"; sobject; js "-v"; values]
  ++ orgArgs D org ++ [js "--json"]
  ++ flag_if "-i" record_id ++ flag_if "-w" where_.

Definition sf_delete_record_args (D : jsstring) (sobject : jsstring)
  (record_id where_ org : option jsstring) : list jsstring :=
  [js "data"; js "delete"; js "record"; js "-s"; sobject]
  ++ orgArgs D org ++ [js "--json"]
  ++ flag_if "-i" record_id ++ flag_if "-w" where_.

Definition sf_get_record_args (D : jsstring) (sobject : jsstring)
  (record_id where_ org : option jsstring) : list jsstring :=
  [js "data"; js "get"; js "record"; js "-s"; sobject]
  ++ orgArgs D org ++ [js "--json"]
  ++ flag_if "-i" record_id ++ flag_if "-w" where_.

Definition sf_bulk_import_args (D : jsstring) (sobject file : jsstring)
  (org operation external_id : option jsstring) : list jsstring :=
  match operation, external_id with
  | Some op, Some ((_ :: _) as id) =>
      if eqb op (js "upsert") then
        [js "data"; js "upsert"; js "bulk"; js "-s"; sobject; js "-f"; file;
         js "-i"; id]
        ++ orgArgs D org ++ [js "--json"; js "-w"; js "10"]
      else
        [js "data"; js "import"; js "bulk"; js "-s"; sobject; js "-f"; file]
        ++ orgArgs D org ++ [js "--json"; js "-w"; js "10"]
  | _, _ =>
      [js "data"; js "import"; js "bulk"; js "-s"; sobject; js "-f"; file]
      ++ orgArgs D org ++ [js "--json"; js "-w"; js "10"]
  end.

Definition sf_bulk_export_args (D : jsstring) (query output_file : jsstring)
  (format org : option jsstring) : list jsstring :=
  [js "data"; js "export"; js "bulk"; js "-q"; query;
   js "--output-file"; output_file; js "-r";
   match str_or format (Some (js "csv")) with
   | Some f => f
   | None => js "csv"
   end]
  ++ orgArgs D org ++ [js "--json"; js "-w"; js "10"].

Definition sf_deploy_args (D : jsstring)
  (source_dir metadata manifest org : option jsstring) (dry_run : jsval)
  (test_level : option jsstring) : list jsstring :=
  [js "project"; js "deploy"; js "start"] ++ orgArgs D org ++ [js "--json"]
  ++ flag_if "-d" source_dir ++ flag_if "-m" metadata ++ flag_if "-x" manifest
  ++ switch_if "--dry-run" dry_run ++ flag_if "-l" test_level.

Definition sf_retrieve_args (D : jsstring)
  (metadata manifest source_dir output_dir org : option jsstring)
  : list jsstring :=
  [js "project"; js "retrieve"; js "start"] ++ orgArgs D org ++ [js "--json"]
  ++ flag_if "-m" metadata ++ flag_if "-x" manifest
  ++ flag_if "-d" source_dir ++ flag_if "-r" output_dir.

Definition sf_apex_test_args (D : jsstring)
  (class_names suite_names test_level org : option jsstring)
  (code_coverage : jsval) : list jsstring :=
  [js "apex"; js "run"; js "test"] ++ orgArgs D org ++ [js "--json"]
  ++ flag_if "-n" class_names ++ flag_if "-s" suite_names
  ++ flag_if "-l" test_level ++ switch_if "-c" code_coverage.

Definition is_get (action : option jsstring) : bool :=
  match action with
  | Some a => eqb a (js "get")
  | None => false
  end.

(** [String(number)] may throw, for an object that cannot be converted. *)
Definition sf_apex_log_args (D : jsstring) (action log_id : option jsstring)
  (number : jsval) (org : option jsstring) : outcome (list jsstring) :=
  if (is_get action && str_truthy log_id)%bool then
    Return ([js "apex"; js "get"; js "log"; js "-i";
             match log_id with Some i => i | None => [] end]
            ++ orgArgs D org ++ [js "--json"])
  else if (is_get action && truthy number)%bool then
    match Builtins.String_ number with
    | Return n =>
        Return ([js "apex"; js "get"; js "log"; js "-n"; n]
                ++ orgArgs D org ++ [js "--json"])
    | Throw e => Throw e
    end
  else Return ([js "apex"; js "list"; js "log"] ++ orgArgs D org ++ [js "--json"]).

Definition sf_list_metadata_args (D : jsstring) (metadata_type : jsstring)
  (org : option jsstring) : list jsstring :=
  [js "org"; js "list"; js "metadata"; js "-m"; metadata_type]
  ++ orgArgs D org ++ [js "--json"].

Definition sf_org_limits_args (D : jsstring) (org : option jsstring)
  : list jsstring :=
  [js "org"; js "list"; js "limits"] ++ orgArgs D org ++ [js "--json"].

Definition sf_rest_api_args (D : jsstring) (endpoint : jsstring)
  (method body org : option jsstring) : list jsstring :=
  [js "api"; js "request"; js "rest"; endpoint] ++ orgArgs D org
  ++ [js "--json"] ++ flag_if "-X" method ++ flag_if "-b" body.

(** ** sf_apex_run and its temporary file *)

(** What the handler does to the outside, in the order it does it. *)
Inductive action : Type :=
| Wrote (p data : jsstring)     (* writeFileSync(p, data) *)
| Ran (args : list jsstring)    (* await runSf(args) *)
| Removed (p : jsstring).       (* unlinkSync(p) *)

(** The files the handler can see: the content of each path, if any, and
    what the handler has done so far, oldest first.  Only the handler writes
    and removes here. *)
Record files : Type := {
  content : jsstring -> option jsstring;
  history : list action
}.

Definition writeFileSync (p data : jsstring) (fs : files) : files :=
  {| content := fun q => if eqb q p then Some data else content fs q;
     history := history fs ++ [Wrote p data] |}.

Definition unlinkSync (p : jsstring) (fs : files) : outcome files :=
  match content fs p with
  | Some _ =>
      Return {| content := fun q => if eqb q p then None else content fs q;
                history := history fs ++ [Removed p] |}
  | None => Throw (Error (js "ENOENT: no such file or directory, unlink"))
  end.

(** The handler has awaited [runSf(args)]. *)
Definition ran (args : list jsstring) (fs : files) : files :=
  {| content := content fs; history := history fs ++ [Ran args] |}.

Definition sf_apex_run_args (D tmpFile : jsstring)
  (code file org : option jsstring) : list jsstring :=
  [js "apex"; js "run"] ++ orgArgs D org ++ [js "--json"]
  ++ flag_if "-f" file
  ++ (if (str_truthy code && negb (str_truthy file))%bool
      then [js "-f"; tmpFile] else []).

(** [tmpFile] is [join(tmpdir(), `sf-apex-${Date.now()}.apex`)]. *)
Definition sf_apex_run (D tmpFile : jsstring) (code file org : option jsstring)
  (st : world * files) : outcome jsstring * (world * files) :=
  let (w, fs) := st in
  let args := sf_apex_run_args D tmpFile code file org in
  match code with
  | Some ((_ :: _) as text) =>
      if str_truthy file then
        let (r, w') := runSf args w in (r, (w', ran args fs))
      else
        let fs1 := ran args (writeFileSync tmpFile text fs) in
        match runSf args w with
        | (Return result, w') =>
            match unlinkSync tmpFile fs1 with
            | Return fs2 => (Return result, (w', fs2))
            | Throw e =>
                (* caught by the handler's catch, which unlinks again *)
                match unlinkSync tmpFile fs1 with
                | Return fs2 => (Throw e, (w', fs2))
                | Throw e' => (Throw e', (w', fs1))
                end
            end
        | (Throw e, w') =>
            match unlinkSync tmpFile fs1 with
            | Return fs2 => (Throw e, (w', fs2))
            | Throw e' => (Throw e', (w', fs1))
            end
        end
  | _ => let (r, w') := runSf args w in (r, (w', ran args fs))
  end.

(** ** One type for the calls of all tools *)

Inductive tool_call : Type :=
| Call_org_list (all : jsval)
| Call_org_display (org : option jsstring)
| Call_query (query : jsstring) (org : option jsstring) (tooling : jsval)
| Call_search (query : jsstring) (org : option jsstring)
| Call_describe (sobject : jsstring) (org : option jsstring) (tooling : jsval)
| Call_list_objects (org category : option jsstring)
| Call_create_record (sobject values : jsstring) (org : option jsstring)
| Call_update_record (sobject : jsstring) (record_id where_ : option jsstring)
    (values : jsstring) (org : option jsstring)
| Call_delete_record (sobject : jsstring) (record_id where_ org : option jsstring)
| Call_get_record (sobject : jsstring) (record_id where_ org : option jsstring)
| Call_bulk_import (sobject file : jsstring)
    (org operation external_id : option jsstring)
| Call_bulk_export (query output_file : jsstring) (format org : option jsstring)
| Call_deploy (source_dir metadata manifest org : option jsstring)
    (dry_run : jsval) (test_level : option jsstring)
| Call_retrieve (metadata manifest source_dir output_dir org : option jsstring)
| Call_apex_run (code file org : option jsstring)
| Call_apex_test (class_names suite_names test_level org : option jsstring)
    (code_coverage : jsval)
| Call_apex_log (action log_id : option jsstring) (number : jsval)
    (org : option jsstring)
| Call_list_metadata (metadata_type : jsstring) (org : option jsstring)
| Call_org_limits (org : option jsstring)
| Call_rest_api (endpoint : jsstring) (method body org : option jsstring)
| Call_run_command (command : jsstring).

(** The key of [TOOL_HANDLERS] a call goes to. *)
Definition tool_name (c : tool_call) : jsstring :=
  js (match c with
      | Call_org_list _ => "sf_org_list"
      | Call_org_display _ => "sf_org_display"
      | Call_query _ _ _ => "sf_query"
      | Call_search _ _ => "sf_search"
      | Call_describe _ _ _ => "sf_describe"
      | Call_list_objects _ _ => "sf_list_objects"
      | Call_create_record _ _ _ => "sf_create_record"
      | Call_update_record _ _ _ _ _ => "sf_update_record"
      | Call_delete_record _ _ _ _ => "sf_delete_record"
      | Call_get_record _ _ _ _ => "sf_get_record"
      | Call_bulk_import _ _ _ _ _ => "sf_bulk_import"
      | Call_bulk_export _ _ _ _ => "sf_bulk_export"
      | Call_deploy _ _ _ _ _ _ => "sf_deploy"
      | Call_retrieve _ _ _ _ _ => "sf_retrieve"
      | Call_apex_run _ _ _ => "sf_apex_run"
      | Call_apex_test _ _ _ _ _ => "sf_apex_test"
      | Call_apex_log _ _ _ _ => "sf_apex_log"
      | Call_list_metadata _ _ => "sf_list_metadata"
      | Call_org_limits _ => "sf_org_limits"
      | Call_rest_api _ _ _ _ => "sf_rest_api"
      | Call_run_command _ => "sf_run_command"
      end)%string.

(** The argument list the handler of a call passes to [runSf]. *)
Definition tool_args (D tmpFile : jsstring) (c : tool_call)
  : outcome (list jsstring) :=
  match c with
  | Call_org_list all => Return (sf_org_list_args all)
  | Call_org_display org => Return (sf_org_display_args D org)
  | Call_query q org t => Return (sf_query_args D q org t)
  | Call_search q org => Return (sf_search_args D q org)
  | Call_describe s org t => Return (sf_describe_args D s org t)
  | Call_list_objects org cat => Return (sf_list_objects_args D org cat)
  | Call_create_record s v org => Return (sf_create_record_args D s v org)
  | Call_update_record s i wh v org =>
      Return (sf_update_record_args D s i wh v org)
  | Call_delete_record s i wh org => Return (sf_delete_record_args D s i wh org)
  | Call_get_record s i wh org => Return (sf_get_record_args D s i wh org)
  | Call_bulk_import s f org op id =>
      Return (sf_bulk_import_args D s f org op id)
  | Call_bulk_export q o f org => Return (sf_bulk_export_args D q o f org)
  | Call_deploy d m x org dry l => Return (sf_deploy_args D d m x org dry l)
  | Call_retrieve m x d r org => Return (sf_retrieve_args D m x d r org)
  | Call_apex_run code file org =>
      Return (sf_apex_run_args D tmpFile code file org)
  | Call_apex_test n s l org c => Return (sf_apex_test_args D n s l org c)
  | Call_apex_log a i n org => sf_apex_log_args D a i n org
  | Call_list_metadata m org => Return (sf_list_metadata_args D m org)
  | Call_org_limits org => Return (sf_org_limits_args D org)
  | Call_rest_api e m b org => Return (sf_rest_api_args D e m b org)
  | Call_run_command command => Return (sf_run_command_args command)
  end.

(** The handler of a call. *)
Definition run_tool (D tmpFile : jsstring) (c : tool_call)
  (st : world * files) : outcome jsstring * (world * files) :=
  match c with
  | Call_apex_run code file org => sf_apex_run D tmpFile code file org st
  | _ =>
      match tool_args D tmpFile c with
      | Return args =>
          let (r, w') := runSf args (fst st) in (r, (w', ran args (snd st)))
      | Throw e => (Throw e, st)
      end
  end.

(** ** The catalog *)

(** The names of [TOOLS], in the order of the source. *)
Definition TOOLS : list jsstring :=
  map js
    [ "sf_org_list"; "sf_org_display"; "sf_query"; "sf_search"; "sf_describe";
      "sf_list_objects"; "sf_create_record"; "sf_update_record";
      "sf_delete_record"; "sf_get_record"; "sf_bulk_import"; "sf_bulk_export";
      "sf_deploy"; "sf_retrieve"; "sf_apex_run"; "sf_apex_test"; "sf_apex_log";
      "sf_list_metadata"; "sf_org_limits"; "sf_rest_api";
      "sf_run_command" ]%string.

(** The keys of [TOOL_HANDLERS], in the order of the source. *)
Definition HANDLERS : list jsstring :=
  map js
    [ "sf_org_list"; "sf_org_display"; "sf_query"; "sf_search"; "sf_describe";
      "sf_list_objects"; "sf_create_record"; "sf_update_record";
      "sf_delete_record"; "sf_get_record"; "sf_bulk_import"; "sf_bulk_export";
      "sf_deploy"; "sf_retrieve"; "sf_apex_run"; "sf_apex_test"; "sf_apex_log";
      "sf_list_metadata"; "sf_org_limits"; "sf_rest_api";
      "sf_run_command" ]%string.

End CliTools.

(* ================================================================== *)
(** * The REST variant: the tool handlers                               *)
(* ================================================================== *)

Module RestTools.

Import Rest.

(** Arguments are typed as the input schema of the tool declares them:
    a required string is a string, an optional one may be undefined, an
    object or a boolean is any value. *)

(** ** sf_org_list *)

Definition summary (alias : jsstring) (o : Org.t) : json :=
  JObj (literal [("alias"%string, Some (JStr alias));
                 ("username"%string, Org.username o);
                 ("instanceUrl"%string, Org.instanceUrl o);
                 ("orgId"%string, Org.orgId o);
                 ("authenticatedAt"%string, Org.authenticatedAt o)]).

Definition no_orgs_connected : jsstring :=
  JSON_stringify
    (JObj [(js "message",
            JStr (js "No orgs connected. Use sf_org_login to authenticate "
                  ++ js "a Salesforce org."))]).

Definition sf_org_list : M jsstring :=
  fun w =>
    let list := map (fun entry => summary (fst entry) (snd entry)) (loadOrgs w) in
    match list with
    | [] => (Return no_orgs_connected, w)
    | _ => (Return (JSON_stringify_2 (JArr list)), w)
    end.

(** ** sf_org_display *)

(** [versions[versions.length - 1]?.version] when [versions] is an array. *)
Definition latestApiVersion (versions : json) : jsval :=
  match versions with
  | JArr items =>
      match last (map Some items) None with
      | Some (JObj fs) => own (js "version") fs
      | _ => None
      end
  | _ => None
  end.

Definition display (o : org) (latest : jsval) : jsstring :=
  JSON_stringify_2
    (JObj (literal [("alias"%string, Some (JStr (_alias o)));
                    ("username"%string, Org.username (fields o));
                    ("instanceUrl"%string, Org.instanceUrl (fields o));
                    ("orgId"%string, Org.orgId (fields o));
                    ("authenticatedAt"%string, Org.authenticatedAt (fields o));
                    ("latestApiVersion"%string, latest)])).

Definition sf_org_display (org : option jsstring) : M jsstring :=
  o <- getOrg org ;;
  (fun w =>
     match sfApi org [] no_opts w with
     | (Return versions, w') => (Return (display o (latestApiVersion versions)), w')
     | (Throw _, w') => (Return (display o None), w')
     end).

(** ** The tools that make one API call *)

Definition method_only (m : string) : opts :=
  {| opt_method := Some (JStr (js m)); opt_body := None |}.

Definition with_body (m : string) (body : jsval) : opts :=
  {| opt_method := Some (JStr (js m)); opt_body := body |}.

Definition sf_query (query : jsstring) (org : option jsstring) (tooling : jsval)
  : M jsstring :=
  let prefix := if truthy tooling then js "/tooling" else [] in
  q <- lift (Builtins.encodeURIComponent query) ;;
  result <- sfApi org (prefix ++ js "/query?q=" ++ q) no_opts ;;
  ret (JSON_stringify_2 result).

Definition sf_search (query : jsstring) (org : option jsstring) : M jsstring :=
  q <- lift (Builtins.encodeURIComponent query) ;;
  result <- sfApi org (js "/search?q=" ++ q) no_opts ;;
  ret (JSON_stringify_2 result).

Definition sf_describe (sobject : jsstring) (org : option jsstring)
  : M jsstring :=
  result <- sfApi org (js "/sobjects/" ++ sobject ++ js "/describe") no_opts ;;
  ret (JSON_stringify_2 result).

Definition sf_list_objects (org : option jsstring) : M jsstring :=
  result <- sfApi org (js "/sobjects") no_opts ;;
  ret (JSON_stringify_2 result).

Definition sf_create_record (sobject : jsstring) (values : jsval)
  (org : option jsstring) : M jsstring :=
  result <- sfApi org (js "/sobjects/" ++ sobject) (with_body "POST" values) ;;
  ret (JSON_stringify_2 result).

Definition sf_update_record (sobject record_id : jsstring) (values : jsval)
  (org : option jsstring) : M jsstring :=
  _ <- sfApi org (js "/sobjects/" ++ sobject ++ js "/" ++ record_id)
         (with_body "PATCH" values) ;;
  ret (JSON_stringify
         (JObj [(js "success", JBool true); (js "id", JStr record_id)])).

Definition sf_delete_record (sobject record_id : jsstring)
  (org : option jsstring) : M jsstring :=
  _ <- sfApi org (js "/sobjects/" ++ sobject ++ js "/" ++ record_id)
         (method_only "DELETE") ;;
  ret (JSON_stringify
         (JObj [(js "success", JBool true); (js "deleted", JStr record_id)])).

Definition sf_get_record (sobject record_id : jsstring)
  (fields_ org : option jsstring) : M jsstring :=
  let path := js "/sobjects/" ++ sobject ++ js "/" ++ record_id in
  path <- (match fields_ with
           | Some ((_ :: _) as f) =>
               e <- lift (Builtins.encodeURIComponent f) ;;
               ret (path ++ js "?fields=" ++ e)
           | _ => ret path
           end) ;;
  result <- sfApi org path no_opts ;;
  ret (JSON_stringify_2 result).

Definition sf_apex_run (code : jsstring) (org : option jsstring) : M jsstring :=
  c <- lift (Builtins.encodeURIComponent code) ;;
  result <- sfApi org (js "/tooling/executeAnonymous?anonymousBody=" ++ c)
              no_opts ;;
  ret (JSON_stringify_2 result).

(** [class_names.split(",").map((c) => ({ className: c.trim() }))] *)
Definition tests_of (class_names : jsstring) : list json :=
  map (fun c => JObj [(js "className", JStr (Builtins.trim c))])
    (Builtins.split_comma class_names).

Definition provide_something : jsstring :=
  JSON_stringify
    (JObj [(js "error", JStr (js "Provide class_names or test_level"))]).

Definition sf_apex_test (class_names test_level org : option jsstring)
  : M jsstring :=
  match class_names, test_level with
  | Some ((_ :: _) as names), _ =>
      result <- sfApi org (js "/tooling/runTestsSynchronous")
                  (with_body "POST"
                     (Some (JObj [(js "tests", JArr (tests_of names))]))) ;;
      ret (JSON_stringify_2 result)
  | _, Some ((_ :: _) as level) =>
      result <- sfApi org (js "/tooling/runTestsAsynchronous")
                  (with_body "POST"
                     (Some (JObj [(js "testLevel", JStr level)]))) ;;
      ret (JSON_stringify_2 result)
  | _, _ => ret provide_something
  end.

Definition sf_list_metadata (metadata_type : jsstring) (org : option jsstring)
  : M jsstring :=
  let query := js "SELECT Id, Name, NamespacePrefix FROM " ++ metadata_type
               ++ js " ORDER BY Name" in
  q <- lift (Builtins.encodeURIComponent query) ;;
  result <- sfApi org (js "/tooling/query?q=" ++ q) no_opts ;;
  ret (JSON_stringify_2 result).

Definition sf_org_limits (org : option jsstring) : M jsstring :=
  result <- sfApi org (js "/limits") no_opts ;;
  ret (JSON_stringify_2 result).

(** ** The tools that read the body as text

    [res_text] is what [res.text()] gives and [JSON_parse] is [JSON.parse];
    both belong to the host. *)
Section Bodies.
Variable res_text : response -> outcome jsstring.
Variable JSON_parse : jsstring -> outcome json.

Definition log_query : jsstring :=
  js "SELECT Id, LogLength, Request, Operation, Application, Status, "
  ++ js "StartTime, DurationMilliseconds FROM ApexLog "
  ++ js "ORDER BY StartTime DESC LIMIT 20".

Definition sf_apex_log (action log_id org : option jsstring) : M jsstring :=
  match action, log_id with
  | Some a, Some ((_ :: _) as id) =>
      if eqb a (js "get") then
        res <- sfRawApi org
                 (js "/services/data/v" ++ API_VERSION
                  ++ js "/sobjects/ApexLog/" ++ id ++ js "/Body") no_opts ;;
        lift (res_text res)
      else
        q <- lift (Builtins.encodeURIComponent log_query) ;;
        result <- sfApi org (js "/tooling/query?q=" ++ q) no_opts ;;
        ret (JSON_stringify_2 result)
  | _, _ =>
      q <- lift (Builtins.encodeURIComponent log_query) ;;
      result <- sfApi org (js "/tooling/query?q=" ++ q) no_opts ;;
      ret (JSON_stringify_2 result)
  end.

Definition sf_rest_api (endpoint : jsstring) (method : option jsstring)
  (body : jsval) (org : option jsstring) : M jsstring :=
  res <- sfRawApi org endpoint
           {| opt_method := option_map JStr (str_or method (Some (js "GET")));
              opt_body := body |} ;;
  text <- lift (res_text res) ;;
  match JSON_parse text with
  | Return v => ret (JSON_stringify_2 v)
  | Throw _ => ret text
  end.

(** ** One type for the calls of the tools that leave the set of orgs alone
    (all but [sf_org_login] and [sf_org_logout]) *)

Inductive tool_call : Type :=
| Call_org_list
| Call_org_display (org : option jsstring)
| Call_query (query : jsstring) (org : option jsstring) (tooling : jsval)
| Call_search (query : jsstring) (org : option jsstring)
| Call_describe (sobject : jsstring) (org : option jsstring)
| Call_list_objects (org : option jsstring)
| Call_create_record (sobject : jsstring) (values : jsval) (org : option jsstring)
| Call_update_record (sobject record_id : jsstring) (values : jsval)
    (org : option jsstring)
| Call_delete_record (sobject record_id : jsstring) (org : option jsstring)
| Call_get_record (sobject record_id : jsstring) (fields_ org : option jsstring)
| Call_apex_run (code : jsstring) (org : option jsstring)
| Call_apex_test (class_names test_level org : option jsstring)
| Call_apex_log (action log_id org : option jsstring)
| Call_list_metadata (metadata_type : jsstring) (org : option jsstring)
| Call_org_limits (org : option jsstring)
| Call_rest_api (endpoint : jsstring) (method : option jsstring) (body : jsval)
    (org : option jsstring).

(** The handler of a call. *)
Definition run_tool (c : tool_call) : M jsstring :=
  match c with
  | Call_org_list => sf_org_list
  | Call_org_display org => sf_org_display org
  | Call_query q org t => sf_query q org t
  | Call_search q org => sf_search q org
  | Call_describe s org => sf_describe s org
  | Call_list_objects org => sf_list_objects org
  | Call_create_record s v org => sf_create_record s v org
  | Call_update_record s i v org => sf_update_record s i v org
  | Call_delete_record s i org => sf_delete_record s i org
  | Call_get_record s i f org => sf_get_record s i f org
  | Call_apex_run c org => sf_apex_run c org
  | Call_apex_test n l org => sf_apex_test n l org
  | Call_apex_log a i org => sf_apex_log a i org
  | Call_list_metadata m org => sf_list_metadata m org
  | Call_org_limits org => sf_org_limits org
  | Call_rest_api e m b org => sf_rest_api e m b org
  end.

End Bodies.

(** The units that would end or split a query parameter. *)
Definition separators : list N := [32; 35; 38; 43; 47; 61; 63]%N.

(** ** The catalog *)

(** The names of [TOOLS], in the order of the source. *)
Definition TOOLS : list jsstring :=
  map js
    [ "sf_org_login"; "sf_org_logout"; "sf_org_list"; "sf_org_display";
      "sf_query"; "sf_search"; "sf_describe"; "sf_list_objects";
      "sf_create_record"; "sf_update_record"; "sf_delete_record";
      "sf_get_record"; "sf_apex_run"; "sf_apex_test"; "sf_apex_log";
      "sf_list_metadata"; "sf_org_limits"; "sf_rest_api" ]%string.

(** The keys of [TOOL_HANDLERS], in the order of the source. *)
Definition HANDLERS : list jsstring :=
  map js
    [ "sf_org_login"; "sf_org_logout"; "sf_org_list"; "sf_org_display";
      "sf_query"; "sf_search"; "sf_describe"; "sf_list_objects";
      "sf_create_record"; "sf_update_record"; "sf_delete_record";
      "sf_get_record"; "sf_apex_run"; "sf_apex_test"; "sf_apex_log";
      "sf_list_metadata"; "sf_org_limits"; "sf_rest_api" ]%string.

(** A world that holds the credentials file of a login. *)
Definition world_of (f : option store) (env : option jsstring)
  (net : list request -> request -> outcome response) : world :=
  {| credentials := f; DEFAULT_ORG := env; network := net;
     requests := []; writes := [] |}.

(** ** A list of class names as a caller writes it *)

(** One entry of [class_names]: a name, with whitespace around it. *)
Record entry : Type := {
  lead : jsstring;
  className : jsstring;
  trail : jsstring
}.

Definition written (e : entry) : jsstring :=
  lead e ++ className e ++ trail e.

Definition blank (s : jsstring) : bool := forallb Cli.is_whitespace s.

Definition starts_clean (s : jsstring) : bool :=
  match s with
  | [] => true
  | c :: _ => negb (Cli.is_whitespace c)
  end.

(** Whitespace around the name only, and no comma in the name. *)
Definition well_written (e : entry) : bool :=
  (blank (lead e) && blank (trail e)
   && negb (existsb (N.eqb 44) (className e))
   && starts_clean (className e) && starts_clean (rev (className e)))%bool.

(** ** What a tool may do to the environment *)

(** Two records that differ in [accessToken] and [instanceUrl] at most. *)
Definition same_login (a b : Org.t) : Prop :=
  Org.refreshToken a = Org.refreshToken b
  /\ Org.loginUrl a = Org.loginUrl b
  /\ Org.username a = Org.username b
  /\ Org.orgId a = Org.orgId b
  /\ Org.displayName a = Org.displayName b
  /\ Org.authenticatedAt a = Org.authenticatedAt b.

(** Two stores with the same aliases in the same order, each alias with
    the same login. *)
Definition same_orgs (a b : store) : Prop :=
  Forall2 (fun x y => fst x = fst y /\ same_login (snd x) (snd y)) a b.

(** [w'] comes from [w] by requests and token refreshes only: the
    environment variable and the network are the same, the two logs have
    grown at their ends, the orgs are the same, and the credentials file was
    written only if a request went to the token endpoint. *)
Record kept (w w' : world) : Prop := {
  kept_env : DEFAULT_ORG w' = DEFAULT_ORG w;
  kept_network : network w' = network w;
  kept_requests : exists new, requests w' = requests w ++ new;
  kept_writes : exists new, writes w' = writes w ++ new;
  kept_orgs : same_orgs (loadOrgs w) (loadOrgs w');
  kept_file :
    refreshes (issued w w') = 0 ->
    credentials w' = credentials w /\ writes w' = writes w
}.

Definition keeps_orgs {A} (m : M A) : Prop := forall w, kept w (snd (m w)).

(** [m] sends [text] percent-encoded after [prefix]: a text that cannot be
    encoded makes [m] throw before anything is requested; otherwise every
    request of [m] other than a token refresh is a GET without a body for the
    path [prefix ++ q], where [q] is the encoded text. *)
Definition sends_encoded (prefix text : jsstring) (m : M jsstring) : Prop :=
  forall w,
    match Builtins.encodeURIComponent text with
    | Throw e => m w = (Throw e, w)
    | Return q =>
        forall rq, In rq (issued w (snd (m w))) ->
          is_refresh rq = true
          \/ exists instanceUrl token,
               rq = ApiRequest instanceUrl (prefix ++ q) (JStr (js "GET"))
                      token None
    end.

End RestTools.

(* ================================================================== *)
(** * The REST variant: the credentials file as it is                   *)
(* ================================================================== *)

(** [Rest] takes the credentials file to hold what [saveOrgs] writes: an
    object of records.  [JSON.parse] accepts more, and the two handlers that
    work on the file alone can be followed on whatever it returns. *)
Module File.

Import Rest.

(** [loadOrgs()]: the parsed content of the file, and [{}] when the file
    is missing, cannot be read or does not parse ([None]). *)
Definition loadOrgs (file : option json) : json :=
  match file with
  | Some v => v
  | None => JObj []
  end.

(** The keys "0", "1", ... of the elements of an array or a string. *)
Definition indexed {A} (l : list A) : list (jsstring * A) :=
  combine (map (fun i => number_to_string (Z.of_nat i))
             (seq 0 (List.length l))) l.

(** [Object.entries(v)]: nothing for a boolean or a number, the code units
    of a string, the elements of an array, the own properties of an
    object. *)
Definition Object_entries (v : json) : outcome (list (jsstring * json)) :=
  match v with
  | JNull => Throw (TypeError (js "Cannot convert undefined or null to object"))
  | JBool _ => Return []
  | JNum _ => Return []
  | JStr s => Return (indexed (map (fun c => JStr [c]) s))
  | JArr items => Return (indexed items)
  | JObj fs => Return fs
  end.

(** [l.map(f)] for an [f] that may throw. *)
Fixpoint map_throwing {A B} (f : A -> outcome B) (l : list A)
  : outcome (list B) :=
  match l with
  | [] => Return []
  | x :: l' =>
      and_then (f x) (fun y =>
      and_then (map_throwing f l') (fun ys => Return (y :: ys)))
  end.

(** The callback of [sf_org_list]. *)
Definition summary (alias : jsstring) (o : json) : outcome json :=
  and_then (field "username" o) (fun username =>
  and_then (field "instanceUrl" o) (fun instanceUrl =>
  and_then (field "orgId" o) (fun orgId =>
  and_then (field "authenticatedAt" o) (fun authenticatedAt =>
  Return (JObj (literal [("alias"%string, Some (JStr alias));
                         ("username"%string, username);
                         ("instanceUrl"%string, instanceUrl);
                         ("orgId"%string, orgId);
                         ("authenticatedAt"%string, authenticatedAt)])))))).

Definition sf_org_list (file : option json) : outcome jsstring :=
  and_then (Object_entries (loadOrgs file)) (fun entries =>
  and_then (map_throwing (fun e => summary (fst e) (snd e)) entries)
    (fun list =>
       match list with
       | [] => Return RestTools.no_orgs_connected
       | _ => Return (JSON_stringify_2 (JArr list))
       end)).

(** [sf_org_logout] on a file that is missing, holds [null] or holds an
    object; the second component is what [saveOrgs] wrote, if it was called.
    (A file that holds a number, a string or an array is left out: what
    [orgs[alias]] finds there depends on other prototypes.) *)
Inductive content : Type :=
| Null
| Object (orgs : object json).

(** [loadOrgs()] again, for such a file. *)
Definition loaded (file : option content) : content :=
  match file with
  | Some c => c
  | None => Object []
  end.

Definition sf_org_logout (alias : option jsstring) (file : option content)
  : outcome jsstring * option json :=
  match loaded file with
  | Null =>
      (Throw (TypeError (js "Cannot read properties of null (reading '"
                         ++ alias_key alias ++ js "')")), None)
  | Object orgs =>
      match get (alias_key alias) orgs with
      | Own v =>
          if truthy (Some v)
          then (Return (removed alias),
                Some (JObj (delete (alias_key alias) orgs)))
          else (Return (not_found alias), None)
      | Inherited => (Return (removed alias), Some (JObj orgs))
      | Absent => (Return (not_found alias), None)
      end
  end.

(** ** The file [saveOrgs] writes *)

Definition of_org (o : Org.t) : json :=
  JObj (literal [("accessToken"%string, Org.accessToken o);
                 ("refreshToken"%string, Org.refreshToken o);
                 ("instanceUrl"%string, Org.instanceUrl o);
                 ("loginUrl"%string, Org.loginUrl o);
                 ("username"%string, Org.username o);
                 ("orgId"%string, Org.orgId o);
                 ("displayName"%string, Org.displayName o);
                 ("authenticatedAt"%string, Org.authenticatedAt o)]).

Definition of_store (orgs : store) : object json :=
  map (fun e => (fst e, of_org (snd e))) orgs.

(** What [credentials.json] holds when [Rest] sees [creds]. *)
Definition of_credentials (creds : option store) : option json :=
  option_map (fun orgs => JObj (of_store orgs)) creds.

Definition content_of_credentials (creds : option store) : option content :=
  option_map (fun orgs => Object (of_store orgs)) creds.

(** A value with its two tokens taken out, when it is an object. *)
Definition is_token (k : jsstring) : bool :=
  (eqb k (js "accessToken") || eqb k (js "refreshToken"))%bool.

Definition without_tokens (o : json) : json :=
  match o with
  | JObj fs => JObj (filter (fun e => negb (is_token (fst e))) fs)
  | _ => o
  end.

End File.

(* ================================================================== *)
(** * The definitions at work                                           *)
(* ================================================================== *)

Example stringify_compact :
  JSON_stringify (JObj [(js "error", JStr (js "a" ++ [34%N] ++ js "b"))])
  = js "{" ++ [34%N] ++ js "error" ++ [34%N] ++ js ":"
    ++ [34%N] ++ js "a\" ++ [34%N] ++ js "b" ++ [34%N] ++ js "}".
Proof. reflexivity. Qed.

Example stringify_indented :
  JSON_stringify_2 (JObj [(js "a", JNum 1); (js "b", JArr [JBool true; JNull]);
                          (js "c", JObj [])])
  = js "{" ++ [10%N]
    ++ js "  " ++ [34%N] ++ js "a" ++ [34%N] ++ js ": 1," ++ [10%N]
    ++ js "  " ++ [34%N] ++ js "b" ++ [34%N] ++ js ": [" ++ [10%N]
    ++ js "    true," ++ [10%N]
    ++ js "    null" ++ [10%N]
    ++ js "  ]," ++ [10%N]
    ++ js "  " ++ [34%N] ++ js "c" ++ [34%N] ++ js ": {}" ++ [10%N]
    ++ js "}".
Proof. reflexivity. Qed.

Example stringify_escapes :
  JSON_stringify (JStr [9; 31; 55357; 56832; 56832]%N)
  = [34%N] ++ js "\t\u001f" ++ [55357; 56832]%N ++ js "\ude00" ++ [34%N].
Proof. reflexivity. Qed.

(** Keys that are array indices come first, in ascending order. *)
Example keys_after_logins :
  Object_keys (set (js "7") 3 (set (js "dev") 2 (set (js "10") 1
                 (set (js "prod") 0 []))))
  = [js "7"; js "10"; js "prod"; js "dev"].
Proof. reflexivity. Qed.

Example set_proto_adds_nothing :
  set (js "__proto__") 1 [(js "prod", 0)] = [(js "prod", 0)].
Proof. reflexivity. Qed.

Example lookups :
  (get (js "prod") [(js "prod", 0)], get (js "valueOf") [(js "prod", 0)],
   get (js "dev") [(js "prod", 0)])
  = (Own 0, Inherited, Absent).
Proof. reflexivity. Qed.

Example split_examples :
  map Cli.split_whitespace
    [js "a  b"; js " a"; js "a "; js " "; js "";
     js "org" ++ [9; 10; 160]%N ++ js "list"]
  = [[js "a"; js "b"]; [js ""; js "a"]; [js "a"; js ""]; [js ""; js ""];
     [js ""]; [js "org"; js "list"]].
Proof. reflexivity. Qed.

Example sf_run_command_args_examples :
  map Cli.sf_run_command_args
    [js "org list"; js "org list --json"; js "--json org list"]
  = [[js "org"; js "list"; js "--json"];
     [js "org"; js "list"; js "--json"];
     [js "--json"; js "org"; js "list"]].
Proof. reflexivity. Qed.

(* ================================================================== *)
(** * Facts about the JavaScript fragment                               *)
(* ================================================================== *)

Section JSFacts.

Lemma eqb_refl (a : jsstring) : eqb a a = true.
Proof.
  induction a as [|x a IH]; simpl; [reflexivity|].
  now rewrite N.eqb_refl, IH.
Qed.

Lemma eqb_eq (a b : jsstring) : eqb a b = true <-> a = b.
Proof.
  split.
  - revert b; induction a as [|x a IH]; intros [|y b]; simpl; try discriminate.
    + reflexivity.
    + intros H. apply andb_true_iff in H as [Hx Hab].
      apply N.eqb_eq in Hx. apply IH in Hab. now subst.
  - intros ->. apply eqb_refl.
Qed.

Lemma eqb_neq (a b : jsstring) : eqb a b = false <-> a <> b.
Proof.
  rewrite <- eqb_eq. destruct (eqb a b); split; congruence.
Qed.

Variable A : Type.
Implicit Types (o : object A) (k : jsstring).

Lemma own_In k o a : own k o = Some a -> In (k, a) o.
Proof.
  induction o as [|[k' a'] o IH]; simpl; [discriminate|].
  destruct (eqb k k') eqn:E.
  - apply eqb_eq in E. intros [= ->]. subst. now left.
  - intros H. right. now apply IH.
Qed.

Lemma own_None k o : own k o = None <-> ~ In k (Object_keys o).
Proof.
  induction o as [|[k' a'] o IH]; simpl.
  - split; [intros _ []|reflexivity].
  - destruct (eqb k k') eqn:E.
    + apply eqb_eq in E. subst. split; [discriminate|intros H; exfalso; auto].
    + apply eqb_neq in E. rewrite IH. split.
      * intros H [H1|H1]; [congruence|auto].
      * intros H H1. apply H. now right.
Qed.

Lemma own_Some_key k o a : own k o = Some a -> In k (Object_keys o).
Proof.
  intros H. apply own_In in H. unfold Object_keys.
  change k with (fst (k, a)). now apply in_map.
Qed.

(** [delete] *)

Lemma keys_delete_subset k j o :
  In j (Object_keys (delete k o)) -> In j (Object_keys o).
Proof.
  induction o as [|[k' a'] o IH]; simpl; [tauto|].
  destruct (eqb k k'); simpl; [now right|].
  intros [H|H]; [now left|right; auto].
Qed.

Lemma delete_NoDup k o :
  NoDup (Object_keys o) -> NoDup (Object_keys (delete k o)).
Proof.
  induction o as [|[k' a'] o IH]; simpl; [trivial|].
  intros H. inversion H as [|? ? Hnin Hnd]; subst.
  destruct (eqb k k'); simpl; [assumption|].
  constructor; [|auto].
  intros Hin. apply Hnin. eapply keys_delete_subset; eauto.
Qed.

Lemma own_delete_other k j o : j <> k -> own j (delete k o) = own j o.
Proof.
  intros Hjk. induction o as [|[k' a'] o IH]; simpl; [reflexivity|].
  destruct (eqb k k') eqn:E; simpl.
  - apply eqb_eq in E. subst k'.
    apply eqb_neq in Hjk. now rewrite Hjk.
  - now rewrite IH.
Qed.

Lemma own_delete_same k o :
  NoDup (Object_keys o) -> own k (delete k o) = None.
Proof.
  induction o as [|[k' a'] o IH]; simpl; [reflexivity|].
  intros H. inversion H as [|? ? Hnin Hnd]; subst.
  destruct (eqb k k') eqn:E; simpl.
  - apply eqb_eq in E. subst k'. now apply own_None.
  - rewrite E. auto.
Qed.

Lemma delete_absent k o : own k o = None -> delete k o = o.
Proof.
  induction o as [|[k' a'] o IH]; simpl; [reflexivity|].
  destruct (eqb k k'); [discriminate|].
  intros H. now rewrite IH.
Qed.

(** [replace] *)

Lemma keys_replace k a o : Object_keys (replace k a o) = Object_keys o.
Proof.
  induction o as [|[k' a'] o IH]; simpl; [reflexivity|].
  destruct (eqb k k'); simpl; [reflexivity|now rewrite IH].
Qed.

Lemma own_replace_same k a o :
  own k o <> None -> own k (replace k a o) = Some a.
Proof.
  induction o as [|[k' a'] o IH]; simpl; [congruence|].
  destruct (eqb k k') eqn:E; simpl; rewrite E; auto.
Qed.

Lemma own_replace_other k j a o : j <> k -> own j (replace k a o) = own j o.
Proof.
  intros Hjk. induction o as [|[k' a'] o IH]; simpl; [reflexivity|].
  destruct (eqb k k') eqn:E; simpl.
  - apply eqb_eq in E. subst k'.
    apply eqb_neq in Hjk. now rewrite Hjk.
  - now rewrite IH.
Qed.

Lemma length_replace k a o : List.length (replace k a o) = List.length o.
Proof.
  induction o as [|[k' a'] o IH]; simpl; [reflexivity|].
  destruct (eqb k k'); simpl; auto.
Qed.

(** [set] *)

Lemma keys_add_index n k a o :
  forall j, In j (Object_keys (add_index n k a o)) <-> j = k \/ In j (Object_keys o).
Proof.
  induction o as [|[k' a'] o IH]; simpl; intros j.
  - intuition.
  - destruct (array_index k') as [m|]; [destruct (N.ltb m n)|]; simpl;
      try rewrite IH; intuition.
Qed.

Lemma add_index_NoDup n k a o :
  ~ In k (Object_keys o) -> NoDup (Object_keys o) ->
  NoDup (Object_keys (add_index n k a o)).
Proof.
  induction o as [|[k' a'] o IH]; simpl; intros Hk Hnd.
  - constructor; [intros []|constructor].
  - inversion Hnd as [|? ? Hnin Hnd']; subst.
    destruct (array_index k') as [m|]; [destruct (N.ltb m n)|]; simpl.
    + constructor.
      * rewrite keys_add_index. intros [->|H]; [apply Hk; now left|auto].
      * apply IH; [intros H; apply Hk; now right|assumption].
    + constructor; [exact Hk|assumption].
    + constructor; [exact Hk|assumption].
Qed.

Lemma set_NoDup k a o :
  NoDup (Object_keys o) -> NoDup (Object_keys (set k a o)).
Proof.
  intros Hnd. unfold set. destruct (own k o) eqn:E.
  - now rewrite keys_replace.
  - destruct (eqb k (js "__proto__")); [assumption|].
    apply own_None in E.
    destruct (array_index k) as [n|].
    + now apply add_index_NoDup.
    + unfold Object_keys. rewrite map_app. simpl.
      apply NoDup_app; [assumption|constructor; [intros []|constructor]|].
      intros x Hx [<-|[]]. now apply E.
Qed.

Lemma set_existing k a o :
  own k o <> None -> set k a o = replace k a o.
Proof.
  unfold set. destruct (own k o); congruence.
Qed.

End JSFacts.

(* ================================================================== *)
(** * The CallTool request handler                                      *)
(* ================================================================== *)

Section CallToolFacts.

Variable world : Type.
Variable handlers : object (Mcp.handler world).

(** A name that is neither a key of the table nor a builtin of the
    prototype gets the error-flagged "Unknown tool" response. *)
Lemma CallTool_unknown name args w :
  own name handlers = None -> inherited name = false ->
  Mcp.CallTool handlers name args w
  = (Mcp.failure (js "Unknown tool: " ++ name), w).
Proof.
  intros Hown Hinh. unfold Mcp.CallTool, get. now rewrite Hown, Hinh.
Qed.

(** A handler that throws gives an error-flagged response whose text ends
    with the error's message. *)
Lemma CallTool_throws name h args w err w' :
  own name handlers = Some h ->
  h (Mcp.args_or_empty args) w = (Throw err, w') ->
  Mcp.CallTool handlers name args w
  = (Mcp.failure (js "Error: " ++ message err), w').
Proof.
  intros Hown Hh. unfold Mcp.CallTool, get. rewrite Hown. cbv beta iota.
  now rewrite Hh.
Qed.

(** A handler that returns gives its result without the error flag. *)
Lemma CallTool_returns name h args w result w' :
  own name handlers = Some h ->
  h (Mcp.args_or_empty args) w = (Return result, w') ->
  Mcp.CallTool handlers name args w
  = ({| Mcp.text := JStr result; Mcp.isError := false |}, w').
Proof.
  intros Hown Hh. unfold Mcp.CallTool, get. rewrite Hown. cbv beta iota.
  now rewrite Hh.
Qed.

(** C3, at the input where the code leaves the claim: the table has no
    handler called [toString], yet the lookup [TOOL_HANDLERS[name]] finds the
    builtin of that name on the prototype, so the "Unknown tool" branch is
    skipped; called without a receiver the builtin returns the text
    "[object Undefined]", and the response carries it without the error
    flag. *)
Theorem CallTool_toString_not_flagged (args : option Mcp.arguments) (w : world) :
  own (js "toString") handlers = None ->
  Mcp.CallTool handlers (js "toString") args w
  = ({| Mcp.text := JStr (js "[object Undefined]"); Mcp.isError := false |}, w).
Proof.
  intros Hown. unfold Mcp.CallTool, get. rewrite Hown. reflexivity.
Qed.

(** The same for [constructor]: [Object(args)] hands the arguments object
    back, and the response carries it as its text. *)
Lemma CallTool_constructor_not_flagged (args : option Mcp.arguments) (w : world) :
  own (js "constructor") handlers = None ->
  Mcp.CallTool handlers (js "constructor") args w
  = ({| Mcp.text := JObj (Mcp.args_or_empty args); Mcp.isError := false |}, w).
Proof.
  intros Hown. unfold Mcp.CallTool, get. rewrite Hown. reflexivity.
Qed.

(** The other builtins of the prototype throw when called this way, and
    the response is flagged like that of a handler that throws. *)
Lemma CallTool_inherited_throws name (args : option Mcp.arguments) (w : world) :
  own name handlers = None -> inherited name = true ->
  name <> js "constructor" -> name <> js "toString" ->
  Mcp.isError (fst (Mcp.CallTool handlers name args w)) = true.
Proof.
  intros Hown Hinh Hc Ht. unfold Mcp.CallTool, get. rewrite Hown, Hinh.
  unfold Mcp.call_inherited.
  apply eqb_neq in Hc, Ht. rewrite Hc, Ht.
  destruct (eqb name (js "__proto__")); [reflexivity|].
  destruct (eqb name (js "toLocaleString")); reflexivity.
Qed.

(** X1: for a tool name that is not a property of [Object.prototype] the
    request handler flags exactly the failures: a name that is no key of the table
    gets the error-flagged text "Unknown tool: <name>"; a handler that throws
    gets the error-flagged text "Error: <message>"; a handler that returns
    gets its result as the text, without the error flag. *)
Theorem CallTool_on_ordinary_names :
  (forall name args w,
      own name handlers = None -> inherited name = false ->
      Mcp.CallTool handlers name args w
      = ({| Mcp.text := JStr (js "Unknown tool: " ++ name);
            Mcp.isError := true |}, w))
  /\ (forall name h args w err w',
        own name handlers = Some h ->
        h (Mcp.args_or_empty args) w = (Throw err, w') ->
        Mcp.CallTool handlers name args w
        = ({| Mcp.text := JStr (js "Error: " ++ message err);
              Mcp.isError := true |}, w'))
  /\ (forall name h args w result w',
        own name handlers = Some h ->
        h (Mcp.args_or_empty args) w = (Return result, w') ->
        Mcp.CallTool handlers name args w
        = ({| Mcp.text := JStr result; Mcp.isError := false |}, w')).
Proof.
  split; [|split].
  - intros name args w. apply CallTool_unknown.
  - intros name h args w err w'. apply CallTool_throws.
  - intros name h args w result w'. apply CallTool_returns.
Qed.

End CallToolFacts.

(** The table of the sf variant has no handler called [toString]; a
    request for that tool is answered without the error flag. *)
Lemma CallTool_toString_not_flagged_witness :
  let w := Cli.failing [] [] in
  own (js "toString") Cli.TOOL_HANDLERS = None
  /\ Cli.CallTool (js "toString") (Some []) w
     = ({| Mcp.text := JStr (js "[object Undefined]"); Mcp.isError := false |}, w).
Proof.
  cbv zeta. split; [reflexivity|].
  exact (@CallTool_toString_not_flagged Cli.world Cli.TOOL_HANDLERS (Some [])
           (Cli.failing [] []) eq_refl).
Defined.

(* ================================================================== *)
(** * The sf variant                                                    *)
(* ================================================================== *)

Section CliFacts.

Import Cli.

Lemma includes_In (args : list jsstring) (x : jsstring) :
  includes args x = true <-> In x args.
Proof.
  unfold includes. rewrite existsb_exists. split.
  - intros [y [Hy E]]. apply eqb_eq in E. now subst.
  - intros H. exists x. split; [assumption|apply eqb_refl].
Qed.

Lemma ensure_json_includes (args : list jsstring) :
  includes (ensure_json args) (js "--json") = true.
Proof.
  unfold ensure_json. destruct (includes args (js "--json")) eqn:E; [exact E|].
  apply includes_In, in_or_app. right. now left.
Qed.

Lemma ensure_json_idempotent (args : list jsstring) :
  ensure_json (ensure_json args) = ensure_json args.
Proof.
  unfold ensure_json at 1. now rewrite ensure_json_includes.
Qed.

Lemma split_from_whitespace_free (s : jsstring) :
  forall in_run cur,
    whitespace_free cur ->
    Forall whitespace_free (split_from in_run cur s).
Proof.
  induction s as [|c s IH]; intros in_run cur Hcur; simpl.
  - constructor; [|constructor]. unfold whitespace_free in *.
    apply Forall_rev. exact Hcur.
  - destruct (is_whitespace c) eqn:E.
    + destruct in_run.
      * now apply IH.
      * constructor.
        -- unfold whitespace_free in *. apply Forall_rev. exact Hcur.
        -- apply IH. constructor.
    + apply IH. constructor; assumption.
Qed.

Lemma split_whitespace_free (s : jsstring) :
  Forall whitespace_free (split_whitespace s).
Proof. apply split_from_whitespace_free. constructor. Qed.

Lemma runSf_spawns (args : list jsstring) (w : world) :
  spawned (snd (runSf args w)) = spawned w ++ [args].
Proof.
  unfold runSf.
  destruct (execFile w args) as [out err|out err msg];
    [|destruct (nonempty out); [|destruct (nonempty err)]]; reflexivity.
Qed.

Lemma sf_run_command_string (command : jsstring) (w : world) :
  CallTool (js "sf_run_command") (Some [(js "command", JStr command)]) w
  = match runSf (sf_run_command_args command) w with
    | (Return result, w') =>
        ({| Mcp.text := JStr result; Mcp.isError := false |}, w')
    | (Throw err, w') => (Mcp.failure (js "Error: " ++ message err), w')
    end.
Proof. reflexivity. Qed.

(** ** [split] against the tokens of a text *)

Lemma rev_whitespace_free cur : whitespace_free cur -> whitespace_free (rev cur).
Proof. unfold whitespace_free. apply Forall_rev. Qed.

(** What the function returns are the tokens of the text: while it reads a
    token, and while it skips the whitespace after a token [t]. *)
Lemma split_from_tokens (s : jsstring) :
  (forall cur,
      whitespace_free cur ->
      tokens_of (rev cur ++ s) (split_from false cur s))
  /\ (forall t sep,
        whitespace_free t -> sep <> [] -> all_whitespace sep ->
        tokens_of (t ++ sep ++ s) (t :: split_from true [] s)).
Proof.
  induction s as [|c s [IHread IHskip]]; split.
  - intros cur Hcur. cbn [split_from]. rewrite app_nil_r.
    apply last_token. now apply rev_whitespace_free.
  - intros t sep Ht Hne Hsep. cbn [split_from rev].
    apply next_token; try assumption; [exact I|].
    apply last_token. constructor.
  - intros cur Hcur. cbn [split_from].
    destruct (is_whitespace c) eqn:E.
    + apply (IHskip (rev cur) [c]).
      * now apply rev_whitespace_free.
      * discriminate.
      * constructor; [exact E|constructor].
    + replace (rev cur ++ c :: s) with (rev (c :: cur) ++ s)
        by (cbn [rev]; now rewrite <- app_assoc).
      apply IHread. constructor; assumption.
  - intros t sep Ht Hne Hsep. cbn [split_from].
    destruct (is_whitespace c) eqn:E.
    + replace (t ++ sep ++ c :: s) with (t ++ (sep ++ [c]) ++ s)
        by (now rewrite <- app_assoc).
      apply IHskip; [exact Ht| |].
      * destruct sep; discriminate.
      * apply Forall_app. split; [exact Hsep|].
        constructor; [exact E|constructor].
    + apply next_token; try assumption.
      apply (IHread [c]). constructor; [exact E|constructor].
Qed.

Lemma split_from_token (t : jsstring) :
  forall cur s,
    whitespace_free t ->
    split_from false cur (t ++ s) = split_from false (rev t ++ cur) s.
Proof.
  induction t as [|c t IH]; intros cur s Ht; [reflexivity|].
  inversion Ht as [|c' t' Hc Ht']; subst.
  cbn [app split_from]. rewrite Hc. rewrite IH by exact Ht'.
  cbn [rev]. now rewrite <- app_assoc.
Qed.

Lemma split_from_run (sep : jsstring) :
  forall cur s,
    all_whitespace sep ->
    split_from true cur (sep ++ s) = split_from true cur s.
Proof.
  induction sep as [|c sep IH]; intros cur s Hsep; [reflexivity|].
  inversion Hsep as [|c' sep' Hc Hsep']; subst.
  cbn [app split_from]. rewrite Hc. now apply IH.
Qed.

Lemma split_from_start (s : jsstring) :
  token_starts s -> split_from true [] s = split_from false [] s.
Proof.
  destruct s as [|c s]; [reflexivity|].
  cbn [token_starts split_from]. intros Hc. now rewrite Hc.
Qed.

(** The tokens of a text are what the function returns, and nothing
    else. *)
Lemma tokens_of_unique (s : jsstring) (l : list jsstring) :
  tokens_of s l -> l = split_whitespace s.
Proof.
  unfold split_whitespace.
  induction 1 as [t Ht|t sep rest tokens Ht Hne Hsep Hstart Htokens IH].
  - rewrite <- (app_nil_r t) at 2. rewrite split_from_token by exact Ht.
    cbn [split_from]. now rewrite app_nil_r, rev_involutive.
  - rewrite split_from_token by exact Ht.
    destruct sep as [|c sep]; [congruence|].
    inversion Hsep as [|c' sep' Hc Hsep']; subst c' sep'.
    cbn [app split_from]. rewrite Hc.
    rewrite app_nil_r, rev_involutive. f_equal.
    rewrite split_from_run by exact Hsep'.
    rewrite split_from_start by exact Hstart. exact IH.
Qed.

Lemma is_whitespace_units (c : N) :
  is_whitespace c = true <-> In c whitespace_units.
Proof.
  split.
  - unfold is_whitespace. rewrite !orb_true_iff, !andb_true_iff.
    rewrite !N.leb_le, !N.eqb_eq. unfold whitespace_units. simpl. lia.
  - unfold whitespace_units. simpl. intros H.
    repeat (destruct H as [H|H]; [subst c; reflexivity|]).
    contradiction.
Qed.

(** Words with one space between them are split into those words. *)
Lemma tokens_of_words (words : list jsstring) :
  words <> [] ->
  Forall (fun t => t <> [] /\ whitespace_free t) words ->
  tokens_of (join (js " ") words) words.
Proof.
  intros Hne Hall. revert Hne.
  induction Hall as [|t words [Ht Hfree] Hwords IH]; intros Hne;
    [exfalso; now apply Hne|].
  destruct words as [|t' words'].
  - cbn [join]. now apply last_token.
  - change (join (js " ") (t :: t' :: words'))
      with (t ++ [32%N] ++ join (js " ") (t' :: words')).
    apply next_token; try assumption.
    + discriminate.
    + constructor; [reflexivity|constructor].
    + inversion Hwords as [|x l [Hx Hxfree] _]; subst.
      destruct t' as [|c t']; [congruence|].
      inversion Hxfree as [|c' l' Hc _]; subst.
      destruct words'; cbn [join app token_starts]; exact Hc.
    + apply IH. discriminate.
Qed.

(** C10: the argument list [sf_run_command] hands to the executable is
    the list of tokens [command.split(/\s+/)] gives, none of which holds
    whitespace, with [--json] appended exactly when no token is [--json];
    so the list always holds [--json], it is the token list itself when a
    token is [--json], and appending is idempotent.  The tokens are the
    whitespace-split tokens of the command and no other list is: the command
    is the tokens with a maximal run of whitespace between each two; words
    written with one space between them are split into those words; and
    whitespace is the class [\s]. *)
Theorem sf_run_command_json_flag (command : jsstring) :
  let tokens := split_whitespace command in
  let args := sf_run_command_args command in
  Forall whitespace_free tokens
  /\ args = tokens ++ (if includes tokens (js "--json") then [] else [js "--json"])
  /\ (includes tokens (js "--json") = true <-> In (js "--json") tokens)
  /\ In (js "--json") args
  /\ (In (js "--json") tokens -> args = tokens)
  /\ ensure_json args = args
  /\ (forall w,
        spawned (snd (CallTool (js "sf_run_command")
                        (Some [(js "command", JStr command)]) w))
        = spawned w ++ [args])
  /\ tokens_of command tokens
  /\ (forall l, tokens_of command l -> l = tokens)
  /\ (forall words,
        words <> [] ->
        Forall (fun t => t <> [] /\ whitespace_free t) words ->
        command = join (js " ") words -> tokens = words)
  /\ (forall c, is_whitespace c = true <-> In c whitespace_units).
Proof.
  cbv zeta.
  split; [apply split_whitespace_free|].
  split.
  { unfold sf_run_command_args, ensure_json.
    destruct (includes _ _); [now rewrite app_nil_r|reflexivity]. }
  split; [apply includes_In|].
  split; [apply includes_In, ensure_json_includes|].
  split.
  { intros H. apply includes_In in H.
    unfold sf_run_command_args, ensure_json. now rewrite H. }
  split; [apply ensure_json_idempotent|].
  split.
  { intros w. rewrite sf_run_command_string.
    pose proof (runSf_spawns (sf_run_command_args command) w) as H.
    destruct (runSf (sf_run_command_args command) w) as [[r|e] w']; exact H. }
  split.
  { apply (proj1 (split_from_tokens command) []). constructor. }
  split; [apply tokens_of_unique|].
  split; [|apply is_whitespace_units].
  intros words Hne Hall ->. symmetry.
  apply tokens_of_unique. now apply tokens_of_words.
Qed.

(** C4: when the child process fails, [runSf] returns what it wrote to
    stdout if that is not empty, otherwise what it wrote to stderr if that is
    not empty, unchanged and as a normal result; it throws exactly when both
    are empty.  A tool call that ends in such a [runSf] is answered with that
    output and without the error flag. *)
Theorem runSf_surfaces_child_output
  (w : world) (args : list jsstring) (out err msg : jsstring) :
  execFile w args = Failed out err msg ->
  (out <> [] -> fst (runSf args w) = Return out)
  /\ (out = [] -> err <> [] -> fst (runSf args w) = Return err)
  /\ (throws (fst (runSf args w)) = true <-> out = [] /\ err = [])
  /\ (fst (runSf args w) = Throw (Error (js "sf command failed: " ++ msg))
      <-> out = [] /\ err = [])
  /\ (forall command,
        sf_run_command_args command = args ->
        out <> [] \/ err <> [] ->
        fst (CallTool (js "sf_run_command")
               (Some [(js "command", JStr command)]) w)
        = {| Mcp.text := JStr (if nonempty out then out else err);
             Mcp.isError := false |}).
Proof.
  intros Hexec.
  assert (Htool : forall command,
             sf_run_command_args command = args ->
             fst (CallTool (js "sf_run_command")
                    (Some [(js "command", JStr command)]) w)
             = match fst (runSf args w) with
               | Return result =>
                   {| Mcp.text := JStr result; Mcp.isError := false |}
               | Throw e => Mcp.failure (js "Error: " ++ message e)
               end).
  { intros command Hc. rewrite sf_run_command_string, Hc.
    destruct (runSf args w) as [[r|e] w']; reflexivity. }
  unfold runSf in *. rewrite Hexec in *.
  destruct out as [|c out]; [destruct err as [|d err]|]; simpl in *.
  - split; [congruence|]. split; [congruence|].
    split; [tauto|]. split; [tauto|].
    intros command _ [H|H]; congruence.
  - split; [congruence|]. split; [reflexivity|].
    split; [split; [discriminate|intros [_ H]; discriminate]|].
    split; [split; [discriminate|intros [_ H]; discriminate]|].
    intros command Hc _. now apply Htool.
  - split; [reflexivity|]. split; [discriminate|].
    split; [split; [discriminate|intros [H _]; discriminate]|].
    split; [split; [discriminate|intros [H _]; discriminate]|].
    intros command Hc _. now apply Htool.
Qed.

Lemma runSf_surfaces_child_output_witness :
  let out := js "{ status: 1 }" in
  let w := failing out (js "Warning: update available") in
  let args := [js "org"; js "display"; js "--json"] in
  execFile w args = Failed out (js "Warning: update available")
                      (js "Command failed: sf")
  /\ fst (runSf args w) = Return out
  /\ fst (CallTool (js "sf_run_command")
            (Some [(js "command", JStr (js "org display"))]) w)
     = {| Mcp.text := JStr out; Mcp.isError := false |}.
Proof.
  cbv zeta.
  destruct (@runSf_surfaces_child_output
              (failing (js "{ status: 1 }") (js "Warning: update available"))
              [js "org"; js "display"; js "--json"]
              (js "{ status: 1 }") (js "Warning: update available")
              (js "Command failed: sf") eq_refl)
    as (Hout & _ & _ & _ & Htool).
  split; [reflexivity|].
  split; [apply Hout; discriminate|].
  apply (Htool (js "org display")); [reflexivity|left; discriminate].
Defined.

End CliFacts.

(* ================================================================== *)
(** * The REST variant: the credential store                            *)
(* ================================================================== *)

Section StoreFacts.

Import Rest.

Lemma getOrg_world (alias : option jsstring) (w : world) :
  snd (getOrg alias w) = w.
Proof.
  unfold getOrg.
  destruct (str_or alias (DEFAULT_ORG w)) as [[|c k]|]; try reflexivity.
  destruct (get (c :: k) (loadOrgs w)); reflexivity.
Qed.

(** The key [getOrg] looks up: the alias, or [DEFAULT_ORG] when the alias
    is missing or empty; [None] when both are. *)
Lemma getOrg_without_key (alias : option jsstring) (w : world) :
  str_truthy (str_or alias (DEFAULT_ORG w)) = false ->
  getOrg alias w = (first_org (loadOrgs w), w).
Proof.
  unfold getOrg.
  destruct (str_or alias (DEFAULT_ORG w)) as [[|c k]|]; simpl;
    [reflexivity|discriminate|reflexivity].
Qed.

(** Where the key is not the name of a builtin, [getOrg] throws exactly
    when the store is empty. *)
Lemma getOrg_throws_iff_empty (alias : option jsstring) (w : world) :
  (forall key, str_or alias (DEFAULT_ORG w) = Some key -> inherited key = false) ->
  throws (fst (getOrg alias w)) = true <-> loadOrgs w = [].
Proof.
  intros Hkey. unfold getOrg.
  destruct (str_or alias (DEFAULT_ORG w)) as [[|c k]|] eqn:E.
  - destruct (loadOrgs w) as [|[a r] orgs]; simpl; split; congruence.
  - unfold get. specialize (Hkey _ eq_refl).
    destruct (own (c :: k) (loadOrgs w)) eqn:Hown.
    + simpl. split; [discriminate|].
      intros H. rewrite H in Hown. discriminate.
    + rewrite Hkey.
      destruct (loadOrgs w) as [|[a r] orgs]; simpl; split; congruence.
  - destruct (loadOrgs w) as [|[a r] orgs]; simpl; split; congruence.
Qed.

(** Where the key is no key of a store that is not empty, and not the
    name of a builtin either, [getOrg] returns the first org of the store. *)
Lemma getOrg_falls_back (alias : option jsstring) (w : world)
  (a : jsstring) (r : Org.t) (orgs : store) :
  loadOrgs w = (a, r) :: orgs ->
  (forall key, str_or alias (DEFAULT_ORG w) = Some key ->
               own key (loadOrgs w) = None /\ inherited key = false) ->
  getOrg alias w = (Return {| _alias := a; fields := r |}, w).
Proof.
  intros Hstore Hkey. unfold getOrg.
  destruct (str_or alias (DEFAULT_ORG w)) as [[|c k]|] eqn:E;
    try (rewrite Hstore; reflexivity).
  destruct (Hkey _ eq_refl) as [Hown Hinh].
  unfold get. rewrite Hown, Hinh, Hstore. reflexivity.
Qed.

(** C8, at the input where the code leaves the claim: the store is empty
    and the alias is [constructor].  The lookup [orgs[key]] finds the builtin
    on the prototype, which is truthy, so [getOrg] does not reach the check
    for an empty store: it returns an org that has the alias and no other
    property instead of throwing. *)
Theorem getOrg_constructor_on_empty_store
  (env : option jsstring) (net : list request -> request -> outcome response)
  (log : list request) (written : list store) :
  let w := {| credentials := None; DEFAULT_ORG := env; network := net;
              requests := log; writes := written |} in
  loadOrgs w = []
  /\ getOrg (Some (js "constructor")) w
     = (Return {| _alias := js "constructor"; fields := Org.empty |}, w).
Proof. split; reflexivity. Qed.

(** The same with a store that is not empty: the first org is not what
    [getOrg] returns. *)
Lemma getOrg_constructor_on_sample_store :
  getOrg (Some (js "constructor")) (sample_world (Some sample_store) [])
  = (Return {| _alias := js "constructor"; fields := Org.empty |},
     sample_world (Some sample_store) []).
Proof. reflexivity. Qed.

(** ** sf_org_logout *)

(** An alias that is a key of the store: the record is deleted, the rest
    of the store is written back and the response reports success. *)
Lemma sf_org_logout_present (alias : option jsstring) (w : world) (r : Org.t) :
  own (alias_key alias) (loadOrgs w) = Some r ->
  let w' := snd (sf_org_logout alias w) in
  fst (sf_org_logout alias w) = Return (removed alias)
  /\ loadOrgs w' = delete (alias_key alias) (loadOrgs w)
  /\ writes w' = writes w ++ [delete (alias_key alias) (loadOrgs w)]
  /\ (forall k, k <> alias_key alias -> own k (loadOrgs w') = own k (loadOrgs w))
  /\ (unique_aliases (loadOrgs w) -> own (alias_key alias) (loadOrgs w') = None).
Proof.
  intros Hown. unfold sf_org_logout, get. rewrite Hown. simpl.
  repeat split.
  - intros k Hk. now apply own_delete_other.
  - intros Hu. now apply own_delete_same.
Qed.

(** An alias that is no key of the store and not the name of a builtin:
    nothing is written and the response is the error object. *)
Lemma sf_org_logout_absent (alias : option jsstring) (w : world) :
  own (alias_key alias) (loadOrgs w) = None ->
  inherited (alias_key alias) = false ->
  sf_org_logout alias w = (Return (not_found alias), w).
Proof.
  intros Hown Hinh. unfold sf_org_logout, get. now rewrite Hown, Hinh.
Qed.

(** C6, at the input where the code leaves the claim: no org is stored and
    the alias is [constructor].  [orgs[alias]] finds the builtin on the
    prototype, so the "not found" branch is skipped: the store is written
    back as it was and the response reports success. *)
Theorem sf_org_logout_constructor_reports_success
  (env : option jsstring) (net : list request -> request -> outcome response)
  (log : list request) (written : list store) :
  let w := {| credentials := None; DEFAULT_ORG := env; network := net;
              requests := log; writes := written |} in
  own (js "constructor") (loadOrgs w) = None
  /\ sf_org_logout (Some (js "constructor")) w
     = (Return (removed (Some (js "constructor"))),
        {| credentials := Some []; DEFAULT_ORG := env; network := net;
           requests := log; writes := written ++ [[]] |}).
Proof. split; reflexivity. Qed.

(** X2: for a key that is not a property of [Object.prototype], [getOrg]
    throws exactly when the store is empty, and with a
    store that is not empty and does not hold the key it returns the first
    org of the store. *)
Theorem getOrg_on_ordinary_keys :
  (forall alias w,
      (forall key, str_or alias (DEFAULT_ORG w) = Some key ->
                   inherited key = false) ->
      (throws (fst (getOrg alias w)) = true <-> loadOrgs w = [])
      /\ (loadOrgs w = [] ->
          getOrg alias w = (Throw (Error no_orgs_message), w)))
  /\ (forall alias w a r orgs,
        loadOrgs w = (a, r) :: orgs ->
        (forall key, str_or alias (DEFAULT_ORG w) = Some key ->
                     own key (loadOrgs w) = None /\ inherited key = false) ->
        getOrg alias w = (Return {| _alias := a; fields := r |}, w)).
Proof.
  split.
  - intros alias w Hkey. split; [now apply getOrg_throws_iff_empty|].
    intros Hempty. unfold getOrg.
    destruct (str_or alias (DEFAULT_ORG w)) as [[|c k]|] eqn:E;
      try (rewrite Hempty; reflexivity).
    unfold get. rewrite Hempty. simpl own. rewrite (Hkey _ eq_refl).
    reflexivity.
  - intros alias w a r orgs. apply getOrg_falls_back.
Qed.

End StoreFacts.

(* ================================================================== *)
(** * The REST variant: token refresh                                   *)
(* ================================================================== *)

Section RefreshFacts.

Import Rest.

Ltac break_match :=
  match goal with
  | |- context [match ?x with _ => _ end] => destruct x eqn:?
  | H : context [match ?x with _ => _ end] |- _ => destruct x eqn:?
  end.

(** [refreshToken] issues its one request whatever comes of it. *)
Lemma refreshToken_requests (o : org) (w : world) :
  requests (snd (refreshToken o w)) = requests w ++ [refresh_request o].
Proof.
  unfold refreshToken, bind, fetch, lift, throw, saveOrgs, ret, loadOrgs.
  simpl. repeat (break_match; simpl in *; try congruence);
    repeat match goal with
           | H : (_, _) = (_, _) |- _ => inversion H; subst; clear H
           end; simpl; try reflexivity.
Qed.

Lemma refreshToken_network (o : org) (w : world) :
  network (snd (refreshToken o w)) = network w.
Proof.
  unfold refreshToken, bind, fetch, lift, throw, saveOrgs, ret, loadOrgs.
  simpl. repeat (break_match; simpl in *; try congruence);
    repeat match goal with
           | H : (_, _) = (_, _) |- _ => inversion H; subst; clear H
           end; simpl; try reflexivity.
Qed.

(** What a refresh that returns has done to the store. *)
Lemma refreshToken_returns (o : org) (w w' : world) (token : jsval) :
  refreshToken o w = (Return token, w') ->
  exists (res : response) (data : json) (instance_url : jsval),
    network w (requests w) (refresh_request o) = Return res
    /\ ok res = true
    /\ res_json res = Return data
    /\ field "access_token" data = Return token
    /\ field "instance_url" data = Return instance_url
    /\ match get (_alias o) (loadOrgs w) with
       | Own r =>
           loadOrgs w'
           = replace (_alias o)
               (let r1 := Org.set_accessToken token r in
                if truthy instance_url
                then Org.set_instanceUrl instance_url r1 else r1)
               (loadOrgs w)
       | Inherited => loadOrgs w' = loadOrgs w
       | Absent => credentials w' = credentials w
       end.
Proof.
  unfold refreshToken, bind, fetch, lift, throw, saveOrgs, ret, refresh_request.
  destruct (network w (requests w) _) as [res|e] eqn:Hnet; [|discriminate].
  destruct (ok res) eqn:Hok; simpl; [|discriminate].
  destruct (res_json res) as [data|e] eqn:Hjson; [|discriminate].
  unfold loadOrgs at 1. simpl.
  change (match credentials w with Some orgs => orgs | None => [] end)
    with (loadOrgs w).
  destruct (field "access_token" data) as [access|e] eqn:Ha.
  - destruct (field "instance_url" data) as [inst|e] eqn:Hi.
    + destruct (get (_alias o) (loadOrgs w)) as [r| |] eqn:Hget;
        intros H; inversion H; subst; clear H;
        exists res, data, inst; repeat split; auto.
    + (* data.instance_url cannot throw where data.access_token did not *)
      destruct data; simpl in Ha, Hi; discriminate.
  - destruct (get (_alias o) (loadOrgs w)); discriminate.
Qed.

(** C5: a refresh that returns, for an org whose alias is a key of the
    store, writes the store back with that alias's record changed in two
    properties at most: [accessToken] becomes the token of the response (the
    value [refreshToken] returns), and [instanceUrl] becomes the response's
    [instance_url] when that is truthy; the record's other properties, the
    other aliases' records and the order of the keys stay as they were. *)
Theorem refreshToken_changes_only_the_tokens
  (o : org) (w w' : world) (token : jsval) (r : Org.t) :
  refreshToken o w = (Return token, w') ->
  own (_alias o) (loadOrgs w) = Some r ->
  exists (res : response) (data : json) (instance_url : jsval) (r' : Org.t),
    network w (requests w) (refresh_request o) = Return res
    /\ res_json res = Return data
    /\ field "access_token" data = Return token
    /\ field "instance_url" data = Return instance_url
    /\ loadOrgs w' = replace (_alias o) r' (loadOrgs w)
    /\ own (_alias o) (loadOrgs w') = Some r'
    /\ Org.accessToken r' = token
    /\ Org.instanceUrl r'
       = (if truthy instance_url then instance_url else Org.instanceUrl r)
    /\ Org.refreshToken r' = Org.refreshToken r
    /\ Org.loginUrl r' = Org.loginUrl r
    /\ Org.username r' = Org.username r
    /\ Org.orgId r' = Org.orgId r
    /\ Org.displayName r' = Org.displayName r
    /\ Org.authenticatedAt r' = Org.authenticatedAt r
    /\ (forall k, k <> _alias o -> own k (loadOrgs w') = own k (loadOrgs w))
    /\ Object_keys (loadOrgs w') = Object_keys (loadOrgs w).
Proof.
  intros Hrun Hown.
  destruct (refreshToken_returns _ _ Hrun)
    as (res & data & inst & Hnet & _ & Hjson & Ha & Hi & Hstore).
  unfold get in Hstore. rewrite Hown in Hstore.
  exists res, data, inst.
  eexists. rewrite Hstore.
  split; [exact Hnet|]. split; [exact Hjson|].
  split; [exact Ha|]. split; [exact Hi|].
  split; [reflexivity|].
  split; [apply own_replace_same; congruence|].
  split; [destruct (truthy inst); reflexivity|].
  split; [destruct (truthy inst); reflexivity|].
  repeat (split; [destruct (truthy inst); reflexivity|]).
  split.
  - intros k Hk. now apply own_replace_other.
  - apply keys_replace.
Qed.

Lemma refreshToken_changes_only_the_tokens_witness :
  let o := {| _alias := js "prod"; fields := sample_org |} in
  let w := sample_world (Some sample_store)
             [answer 200 (JObj [(js "access_token", JStr (js "00D-new"))])] in
  exists (res : response) (data : json) (instance_url : jsval) (r' : Org.t),
    network w (requests w) (refresh_request o) = Return res
    /\ res_json res = Return data
    /\ field "access_token" data = Return (Some (JStr (js "00D-new")))
    /\ field "instance_url" data = Return instance_url
    /\ loadOrgs (snd (refreshToken o w)) = replace (_alias o) r' (loadOrgs w)
    /\ own (_alias o) (loadOrgs (snd (refreshToken o w))) = Some r'
    /\ Org.accessToken r' = Some (JStr (js "00D-new"))
    /\ Org.instanceUrl r'
       = (if truthy instance_url then instance_url
          else Org.instanceUrl sample_org)
    /\ Org.refreshToken r' = Org.refreshToken sample_org
    /\ Org.loginUrl r' = Org.loginUrl sample_org
    /\ Org.username r' = Org.username sample_org
    /\ Org.orgId r' = Org.orgId sample_org
    /\ Org.displayName r' = Org.displayName sample_org
    /\ Org.authenticatedAt r' = Org.authenticatedAt sample_org
    /\ (forall k, k <> _alias o ->
                  own k (loadOrgs (snd (refreshToken o w))) = own k (loadOrgs w))
    /\ Object_keys (loadOrgs (snd (refreshToken o w))) = Object_keys (loadOrgs w).
Proof.
  cbv zeta.
  apply (@refreshToken_changes_only_the_tokens
           {| _alias := js "prod"; fields := sample_org |}
           (sample_world (Some sample_store)
              [answer 200 (JObj [(js "access_token", JStr (js "00D-new"))])])
           _ (Some (JStr (js "00D-new"))) sample_org).
  - reflexivity.
  - reflexivity.
Defined.

End RefreshFacts.

(* ================================================================== *)
(** * The REST variant: one record per alias                            *)
(* ================================================================== *)

Section AliasFacts.

Import Rest.

Lemma file_finish reply close v s : file (finish reply close v s) = file s.
Proof. reflexivity. Qed.

Lemma file_at_phase i p s : file (at_phase i p s) = file s.
Proof. reflexivity. Qed.

Lemma alias_at_phase i p s : alias (at_phase i p s) = alias s.
Proof. reflexivity. Qed.

(** The end of a request handler either leaves the file alone or writes
    the store with one assignment [orgs[alias] = orgData]. *)
Lemma file_complete now tokens identity s :
  file (complete now tokens identity s) = file s
  \/ exists data,
       orgData (loginUrl s) now tokens identity = Return data
       /\ file (complete now tokens identity s)
          = Some (set (alias s) data (stored (file s))).
Proof.
  unfold complete. destruct (orgData _ _ _ _) as [data|e].
  - right. exists data. split; reflexivity.
  - left. reflexivity.
Qed.

Lemma file_step ev s :
  file (step ev s) = file s
  \/ exists data, file (step ev s) = Some (set (alias s) data (stored (file s))).
Proof.
  assert (Hc : forall i now tokens identity,
             file (complete now tokens identity (at_phase i Finished s)) = file s
             \/ exists data,
                  file (complete now tokens identity (at_phase i Finished s))
                  = Some (set (alias s) data (stored (file s)))).
  { intros i now tokens identity.
    destruct (file_complete now tokens identity (at_phase i Finished s))
      as [H|[data [_ H]]]; [left|right; exists data]; exact H. }
  unfold step. destruct (exited s); [now left|].
  destruct ev as [[u|]|i r now|msg|]; simpl.
  - destruct (settled s); [now left|].
    destruct (negb _); [now left|].
    destruct (_ || _)%bool; now left.
  - destruct (settled s); now left.
  - destruct (nth_error (handlers s) i) as [p|]; [|now left].
    unfold resume.
    destruct p, r; try (now left); try apply Hc.
    + destruct (_ && _)%bool; now left.
    + destruct (field "id" d); [now left|apply Hc].
    + destruct (_ && _)%bool; [now left|apply Hc].
  - destruct (settled s); now left.
  - destruct (settled s); now left.
Qed.

Lemma step_keeps_aliases_unique ev s :
  unique_aliases (stored (file s)) -> unique_aliases (stored (file (step ev s))).
Proof.
  intros Hu. destruct (file_step ev s) as [H|[data H]]; rewrite H.
  - exact Hu.
  - simpl. now apply set_NoDup.
Qed.

Lemma run_keeps_aliases_unique evs :
  forall s,
    unique_aliases (stored (file s)) ->
    unique_aliases (stored (file (run evs s))).
Proof.
  induction evs as [|ev evs IH]; intros s Hu; simpl; [exact Hu|].
  apply IH. now apply step_keeps_aliases_unique.
Qed.

Lemma refreshToken_keeps_aliases_unique (o : org) (w : world) :
  unique_aliases (loadOrgs w) ->
  unique_aliases (loadOrgs (snd (refreshToken o w))).
Proof.
  intros Hu.
  destruct (refreshToken o w) as [[token|e] w'] eqn:Hrun; simpl.
  - destruct (refreshToken_returns _ _ Hrun)
      as (res & data & inst & _ & _ & _ & _ & _ & Hstore).
    destruct (get (_alias o) (loadOrgs w)).
    + rewrite Hstore. unfold unique_aliases. now rewrite keys_replace.
    + now rewrite Hstore.
    + unfold loadOrgs in *. now rewrite Hstore.
  - (* a refresh that throws has not written *)
    revert Hrun.
    unfold refreshToken, bind, fetch, lift, throw, saveOrgs, ret.
    destruct (network w (requests w) _) as [res|e0]; simpl.
    + destruct (ok res); simpl.
      * destruct (res_json res) as [data|e1]; simpl.
        -- unfold loadOrgs at 1. simpl.
           change (match credentials w with Some orgs => orgs | None => [] end)
             with (loadOrgs w).
           destruct (get (_alias o) (loadOrgs w));
             destruct (field "access_token" data) eqn:Ha; simpl;
               try (destruct (field "instance_url" data) eqn:Hi; simpl);
               intros H; inversion H; subst; try exact Hu;
               destruct data; simpl in *; discriminate.
        -- intros H; inversion H; subst; exact Hu.
      * intros H; inversion H; subst; exact Hu.
    + intros H; inversion H; subst; exact Hu.
Qed.

Lemma sf_org_logout_keeps_aliases_unique (a : option jsstring) (w : world) :
  unique_aliases (loadOrgs w) ->
  unique_aliases (loadOrgs (snd (sf_org_logout a w))).
Proof.
  intros Hu. unfold sf_org_logout.
  destruct (get (alias_key a) (loadOrgs w)); simpl;
    try (now apply delete_NoDup); exact Hu.
Qed.

(** C7: the three operations that write the credential store keep every
    alias a key of one record only.  A login ([step], of which the end of a
    request handler is the one turn that saves), a token refresh and a logout
    each take a store without a repeated alias to a store without one; and a
    login under an alias the store already holds puts the new record where
    the old one was, with the keys and their number unchanged. *)
Theorem store_operations_keep_aliases_unique :
  (forall ev s,
      unique_aliases (stored (file s)) ->
      unique_aliases (stored (file (step ev s))))
  /\ (forall evs s,
        unique_aliases (stored (file s)) ->
        unique_aliases (stored (file (run evs s))))
  /\ (forall o w,
        unique_aliases (loadOrgs w) ->
        unique_aliases (loadOrgs (snd (refreshToken o w))))
  /\ (forall a w,
        unique_aliases (loadOrgs w) ->
        unique_aliases (loadOrgs (snd (sf_org_logout a w))))
  /\ (forall now tokens identity s data old,
        orgData (loginUrl s) now tokens identity = Return data ->
        own (alias s) (stored (file s)) = Some old ->
        let orgs' := stored (file (complete now tokens identity s)) in
        orgs' = replace (alias s) data (stored (file s))
        /\ own (alias s) orgs' = Some data
        /\ Object_keys orgs' = Object_keys (stored (file s))
        /\ List.length orgs' = List.length (stored (file s))
        /\ (forall k, k <> alias s -> own k orgs' = own k (stored (file s)))).
Proof.
  split; [exact step_keeps_aliases_unique|].
  split; [exact run_keeps_aliases_unique|].
  split; [exact refreshToken_keeps_aliases_unique|].
  split; [exact sf_org_logout_keeps_aliases_unique|].
  intros now tokens identity s data old Hdata Hown. cbv zeta.
  unfold complete. rewrite Hdata. simpl.
  fold (stored (file s)).
  rewrite set_existing by congruence.
  split; [reflexivity|].
  split; [apply own_replace_same; congruence|].
  split; [apply keys_replace|].
  split; [apply length_replace|].
  intros k Hk. now apply own_replace_other.
Qed.

End AliasFacts.

(* ================================================================== *)
(** * The REST variant: sfApi and sfRawApi                              *)
(* ================================================================== *)

Section ApiFacts.

Import Rest.

Lemma issued_app (w w' : world) (new : list request) :
  requests w' = requests w ++ new -> issued w w' = new.
Proof.
  intros H. unfold issued. rewrite H.
  rewrite skipn_app, skipn_all, Nat.sub_diag. reflexivity.
Qed.

(** [sfApi], one step at a time. *)
Lemma sfApi_eq (alias : option jsstring) (path : jsstring) (op : opts) (w : world) :
  sfApi alias path op w
  = match getOrg alias w with
    | (Throw e, w0) => (Throw e, w0)
    | (Return o, w0) =>
        match fetch (api_request o path op (Org.accessToken (fields o))) w0 with
        | (Throw e, w1) => (Throw e, w1)
        | (Return r1, w1) =>
            if (Z.eqb (status r1) 401
                && truthy (Org.refreshToken (fields o)))%bool
            then match refreshToken o w1 with
                 | (Throw e, w2) => (Throw e, w2)
                 | (Return token, w2) =>
                     match fetch (api_request o path op token) w2 with
                     | (Throw e, w3) => (Throw e, w3)
                     | (Return r, w3) => (result_of r, w3)
                     end
                 end
            else (result_of r1, w1)
        end
    end.
Proof.
  assert (Htail : forall r w3,
             (if Z.eqb (status r) 204 then ret success_true
              else data <- lift (res_json r) ;;
                   (if negb (ok r) then throw (Error (JSON_stringify_2 data))
                    else ret data)) w3
             = (result_of r, w3)).
  { intros r w3. unfold result_of, bind, lift, ret, throw.
    destruct (Z.eqb (status r) 204); [reflexivity|].
    destruct (res_json r); [destruct (negb (ok r))|]; reflexivity. }
  unfold sfApi, bind, api_request.
  destruct (getOrg alias w) as [[o|e] w0]; [|reflexivity].
  cbv zeta.
  destruct (fetch _ w0) as [[r1|e] w1]; [|reflexivity].
  destruct (_ && _)%bool.
  - destruct (refreshToken o w1) as [[token|e] w2]; [|reflexivity].
    destruct (fetch _ w2) as [[r|e] w3]; [|reflexivity].
    apply Htail.
  - unfold ret at 1. apply Htail.
Qed.


Lemma fetch_requests (rq : request) (w : world) :
  requests (snd (fetch rq w)) = requests w ++ [rq].
Proof. reflexivity. Qed.

(** The log of a call whose first request was answered. *)
Lemma sfApi_requests (alias : option jsstring) (path : jsstring) (op : opts)
  (w : world) (o : org) (r1 : response) :
  getOrg alias w = (Return o, w) ->
  network w (requests w) (api_request o path op (Org.accessToken (fields o)))
  = Return r1 ->
  let first := api_request o path op (Org.accessToken (fields o)) in
  requests (snd (sfApi alias path op w))
  = requests w
    ++ first
       :: (if (Z.eqb (status r1) 401
               && truthy (Org.refreshToken (fields o)))%bool
           then refresh_request o
                :: match fst (refreshToken o (snd (fetch first w))) with
                   | Return token => [api_request o path op token]
                   | Throw _ => []
                   end
           else []).
Proof.
  intros Hget Hnet. cbv zeta. rewrite sfApi_eq, Hget.
  set (first := api_request o path op (Org.accessToken (fields o))) in *.
  set (w1 := snd (fetch first w)).
  assert (Hfirst : fetch first w = (Return r1, w1)).
  { unfold w1, fetch. rewrite Hnet. reflexivity. }
  rewrite Hfirst.
  assert (Hw1 : requests w1 = requests w ++ [first]) by reflexivity.
  destruct (_ && _)%bool; [|exact Hw1].
  pose proof (refreshToken_requests o w1) as Hreq.
  destruct (refreshToken o w1) as [[token|e] w2]; cbn [fst snd] in Hreq |- *.
  - pose proof (fetch_requests (api_request o path op token) w2) as Hf.
    destruct (fetch (api_request o path op token) w2) as [[r|e] w3];
      cbn [fst snd] in Hf |- *; rewrite Hf, Hreq, Hw1;
      now rewrite <- !app_assoc.
  - rewrite Hreq, Hw1. now rewrite <- app_assoc.
Qed.


Lemma policy_of_requests (mk : jsval -> request) (o : org) (r1 : response)
  (w w' : world) :
  (forall t, is_refresh (mk t) = false) ->
  requests w'
  = requests w
    ++ mk (Org.accessToken (fields o))
       :: (if (Z.eqb (status r1) 401
               && truthy (Org.refreshToken (fields o)))%bool
           then refresh_request o
                :: match fst (refreshToken o
                                (snd (fetch (mk (Org.accessToken (fields o))) w)))
                   with
                   | Return token => [mk token]
                   | Throw _ => []
                   end
           else []) ->
  refresh_policy mk o r1 w w'.
Proof.
  intros Hmk Hreq. unfold refresh_policy. cbv zeta.
  rewrite (@issued_app w w' _ Hreq).
  unfold refreshes, request_fetches, refresh_then_retry.
  destruct (Z.eqb_spec (status r1) 401) as [E|E];
    destruct (truthy (Org.refreshToken (fields o))) eqn:T; cbn [andb];
    [destruct (fst (refreshToken o _)) as [token|e]|..];
    cbn [filter is_refresh refresh_request negb List.length throws];
    rewrite ?Hmk; cbn [filter is_refresh negb List.length andb];
    rewrite ?Hmk; cbn [filter is_refresh negb List.length andb];
    repeat split; intros; try lia; try congruence; try tauto;
    try (intuition congruence).
Qed.

Lemma is_refresh_api o path op t : is_refresh (api_request o path op t) = false.
Proof. reflexivity. Qed.


Lemma sfApi_policy alias path op w o r1 :
  getOrg alias w = (Return o, w) ->
  network w (requests w) (api_request o path op (Org.accessToken (fields o)))
  = Return r1 ->
  refresh_policy (api_request o path op) o r1 w (snd (sfApi alias path op w)).
Proof.
  intros Hget Hnet.
  apply policy_of_requests; [apply is_refresh_api|].
  apply sfApi_requests; assumption.
Qed.







(** X4: whatever the store and the network do, one [sfApi] call fetches
    its request at most twice and the token endpoint at most once. *)
Theorem sfApi_fetches_at_most_twice alias path op w :
  request_fetches (issued w (snd (sfApi alias path op w))) <= 2
  /\ refreshes (issued w (snd (sfApi alias path op w))) <= 1.
Proof.
  pose proof (getOrg_world alias w) as Hw.
  destruct (getOrg alias w) as [[o|e] w0] eqn:Hget; simpl in Hw; subst w0.
  - destruct (network w (requests w)
                (api_request o path op (Org.accessToken (fields o))))
      as [r1|e] eqn:Hnet.
    + destruct (@sfApi_policy _ path op _ _ _ Hget Hnet)
        as (H1 & H0 & _ & H2 & _).
      split; [exact H2|].
      destruct (Z.eqb_spec (status r1) 401) as [E|E];
        destruct (truthy (Org.refreshToken (fields o))) eqn:T;
        try (rewrite (proj2 H1); [lia|tauto]);
        rewrite (proj2 H0); try lia; intros [? ?]; congruence.
    + rewrite sfApi_eq, Hget. unfold fetch. rewrite Hnet. cbn [snd].
      rewrite (@issued_app w _ [api_request o path op (Org.accessToken (fields o))])
        by reflexivity.
      split; cbn; lia.
  - rewrite sfApi_eq, Hget. cbn [snd].
    rewrite (@issued_app w w []) by (now rewrite app_nil_r).
    split; cbn; lia.
Qed.



(** ** The result of sfApi *)

Lemma sfApi_result_of alias path op w r :
  final_response alias path op w r ->
  fst (sfApi alias path op w) = result_of r.
Proof.
  intros [o r0 Hget Hnet Hdue|o r1 r0 w1 w2 token Hget Hfirst Hdue Hrefresh Hnet];
    rewrite sfApi_eq, Hget.
  - unfold fetch. rewrite Hnet, Hdue. reflexivity.
  - rewrite Hfirst, Hdue, Hrefresh. unfold fetch. rewrite Hnet. reflexivity.
Qed.

(** A call that returns a value has had a final response. *)
Lemma sfApi_returns_final_response alias path op w data :
  fst (sfApi alias path op w) = Return data ->
  exists r, final_response alias path op w r.
Proof.
  rewrite sfApi_eq.
  pose proof (getOrg_world alias w) as Hw.
  destruct (getOrg alias w) as [[o|e] w0] eqn:Hget; [|discriminate].
  simpl in Hw. subst w0.
  destruct (fetch _ w) as [[r1|e] w1] eqn:Hfirst; [|discriminate].
  destruct (_ && _)%bool eqn:Hdue.
  - destruct (refreshToken o w1) as [[token|e] w2] eqn:Hrefresh; [|discriminate].
    destruct (fetch _ w2) as [[r|e] w3] eqn:Hretry; [|discriminate].
    intros _. exists r. eapply retry_is_final; eauto.
    unfold fetch in Hretry. now inversion Hretry.
  - intros _. exists r1. eapply first_is_final; eauto.
    unfold fetch in Hfirst. now inversion Hfirst.
Qed.

Lemma ok_204 (r : response) : status r = 204%Z -> ok r = true.
Proof. unfold ok. now intros ->. Qed.

(** C9, as the code has it: the final response of an [sfApi] call (after
    any retry) is turned into the result as follows.  Status 204 gives
    [{ success: true }] and the body is not read.  Otherwise the body is
    parsed: if that fails, [sfApi] throws the parser's error, whatever the
    status; if it gives [data], an ok status returns [data] and any other
    status throws an error whose message is [JSON.stringify(data, null, 2)].
    So for a final response that has status 204 or a body that parses, [sfApi]
    throws exactly when the response is not ok (and then its status is not
    204). *)
Theorem sfApi_maps_final_response alias path op w r :
  final_response alias path op w r ->
  let result := fst (sfApi alias path op w) in
  (status r = 204%Z -> result = Return success_true)
  /\ (forall data,
        status r <> 204%Z -> res_json r = Return data -> ok r = true ->
        result = Return data)
  /\ (forall data,
        status r <> 204%Z -> res_json r = Return data -> ok r = false ->
        result = Throw (Error (JSON_stringify_2 data)))
  /\ (forall e,
        status r <> 204%Z -> res_json r = Throw e -> result = Throw e)
  /\ (status r = 204%Z \/ (exists data, res_json r = Return data) ->
      (throws result = true <-> ok r = false /\ status r <> 204%Z)).
Proof.
  intros Hfinal. cbv zeta. rewrite (sfApi_result_of Hfinal).
  unfold result_of.
  destruct (Z.eqb_spec (status r) 204) as [E|E].
  - pose proof (ok_204 r E) as Hok.
    repeat split; try congruence; try discriminate.
    intros [Hn _]. congruence.
  - split; [congruence|].
    split; [intros data _ -> ->; reflexivity|].
    split; [intros data _ -> ->; reflexivity|].
    split; [intros e _ ->; reflexivity|].
    intros [H|[data H]]; [congruence|]. rewrite H.
    destruct (ok r); simpl; split; try discriminate; try tauto.
    intros [H1 _]; discriminate.
Qed.

Lemma sfApi_maps_final_response_witness :
  let w := sample_world (Some sample_store)
             [answer 404 (JArr [JObj [(js "errorCode", JStr (js "NOT_FOUND"))]])] in
  let r := {| status := 404;
              res_json := Return (JArr [JObj [(js "errorCode",
                                               JStr (js "NOT_FOUND"))]]) |} in
  let result := fst (sfApi (Some (js "prod")) (js "/sobjects/Nope") no_opts w) in
  final_response (Some (js "prod")) (js "/sobjects/Nope") no_opts w r
  /\ result
     = Throw (Error (JSON_stringify_2
                       (JArr [JObj [(js "errorCode", JStr (js "NOT_FOUND"))]]))).
Proof.
  cbv zeta.
  assert (Hfinal : final_response (Some (js "prod")) (js "/sobjects/Nope") no_opts
                     (sample_world (Some sample_store)
                        [answer 404
                           (JArr [JObj [(js "errorCode", JStr (js "NOT_FOUND"))]])])
                     {| status := 404;
                        res_json :=
                          Return (JArr [JObj [(js "errorCode",
                                               JStr (js "NOT_FOUND"))]]) |}).
  { apply first_is_final with (o := {| _alias := js "prod"; fields := sample_org |});
      reflexivity. }
  split; [exact Hfinal|].
  destruct (sfApi_maps_final_response Hfinal) as (_ & _ & H & _).
  apply H; [discriminate|reflexivity|reflexivity].
Defined.

(** [sfApi] can throw on an ok response: here the final response has
    status 200 and a body that is not JSON, [res.json()] rejects, and the
    call throws the parser's error. *)
Lemma sfApi_throws_on_ok_response :
  let w := sample_world (Some sample_store) [not_json 200] in
  let r := {| status := 200;
              res_json := Throw (SyntaxError (js "Unexpected token < in JSON")) |} in
  let result := fst (sfApi (Some (js "prod")) (js "/limits") no_opts w) in
  final_response (Some (js "prod")) (js "/limits") no_opts w r
  /\ ok r = true
  /\ result = Throw (SyntaxError (js "Unexpected token < in JSON"))
  /\ ~ (throws result = true <-> ok r = false /\ status r <> 204%Z).
Proof.
  cbv zeta.
  split.
  { apply first_is_final with (o := {| _alias := js "prod"; fields := sample_org |});
      reflexivity. }
  split; [reflexivity|]. split; [reflexivity|].
  intros [H _].
  assert (Hthrows : throws (fst (sfApi (Some (js "prod")) (js "/limits") no_opts
                                   (sample_world (Some sample_store) [not_json 200])))
                    = true) by reflexivity.
  destruct (H Hthrows) as [Hok _]. discriminate.
Qed.

End ApiFacts.

(* ================================================================== *)
(** * The REST variant: the login promise                               *)
(* ================================================================== *)

Section LoginFacts.

Import Rest.

Lemma run_app (evs more : list event) (s : login) :
  run (evs ++ more) s = run more (run evs s).
Proof. unfold run. apply fold_left_app. Qed.

(** ** What one turn does to the flag, the promise and the invocations *)

Lemma finish_invariant reply close v s :
  v <> Pending -> login_invariant s -> login_invariant (finish reply close v s).
Proof.
  intros Hv [Hflag Hstate Hcalls|c later Hflag Hcalls Hc Hvc Hstate Hlater].
  - apply settled_by_first
      with (c := {| settled_before := false; verdict := v |}) (later := []);
      simpl; try rewrite Hcalls; try rewrite Hflag; try rewrite Hstate;
      auto.
  - apply settled_by_first
      with (c := c)
           (later := later ++ [{| settled_before := true; verdict := v |}]);
      simpl; auto.
    + rewrite Hcalls, Hflag. reflexivity.
    + rewrite Hstate. destruct (verdict c); congruence.
    + apply Forall_app. split; [assumption|]. constructor; [reflexivity|constructor].
Qed.

(** A change that leaves the three alone keeps the invariant. *)
Lemma invariant_transfer s s' :
  settled s' = settled s -> state s' = state s -> calls s' = calls s ->
  login_invariant s -> login_invariant s'.
Proof.
  intros Hf Hs Hc [Hflag Hstate Hcalls|c later Hflag Hcalls Hc0 Hvc Hstate Hlater].
  - apply still_pending; congruence.
  - apply settled_by_first with (c := c) (later := later); congruence.
Qed.

Lemma complete_invariant now tokens identity s :
  login_invariant s -> login_invariant (complete now tokens identity s).
Proof.
  intros Hinv. unfold complete.
  destruct (orgData _ _ _ _) as [data|e].
  - apply finish_invariant; [discriminate|].
    eapply invariant_transfer; [| | |exact Hinv]; reflexivity.
  - apply finish_invariant; [discriminate|exact Hinv].
Qed.

Lemma at_phase_invariant i p s :
  login_invariant s -> login_invariant (at_phase i p s).
Proof.
  intros Hinv. eapply invariant_transfer; [| | |exact Hinv]; reflexivity.
Qed.

Lemma resume_invariant i p r now s :
  login_invariant s -> login_invariant (resume i p r now s).
Proof.
  intros Hinv. unfold resume.
  destruct p, r;
    repeat match goal with
           | |- context [if ?b then _ else _] => destruct b
           | |- context [match field ?n ?d with _ => _ end] => destruct (field n d)
           end;
    try assumption;
    try (apply at_phase_invariant; assumption);
    try (apply complete_invariant, at_phase_invariant; assumption);
    apply finish_invariant; try discriminate;
    apply at_phase_invariant; assumption.
Qed.

Lemma step_invariant ev s :
  login_invariant s -> login_invariant (step ev s).
Proof.
  intros Hinv. unfold step. destruct (exited s); [assumption|].
  destruct ev as [[u|]|i r now|msg|]; simpl.
  - destruct (settled s) eqn:Hs; [assumption|].
    destruct (negb _).
    + eapply invariant_transfer; [| | |exact Hinv]; simpl; congruence.
    + destruct (_ || _)%bool.
      * apply finish_invariant; [discriminate|assumption].
      * eapply invariant_transfer; [| | |exact Hinv]; simpl; congruence.
  - destruct (settled s); [assumption|].
    eapply invariant_transfer; [| | |exact Hinv]; reflexivity.
  - destruct (nth_error (handlers s) i); [|assumption].
    now apply resume_invariant.
  - destruct (settled s); [assumption|].
    apply finish_invariant; [discriminate|assumption].
  - destruct (settled s); [assumption|].
    apply finish_invariant; [discriminate|assumption].
Qed.

Lemma run_invariant evs :
  forall s, login_invariant s -> login_invariant (run evs s).
Proof.
  induction evs as [|ev evs IH]; intros s Hinv; simpl; [assumption|].
  apply IH. now apply step_invariant.
Qed.

Lemma oauthLogin_invariant a url creds : login_invariant (oauthLogin a url creds).
Proof. now apply still_pending. Qed.

(** The flag never goes down again. *)
Lemma settled_finish reply close v s : settled (finish reply close v s) = true.
Proof. reflexivity. Qed.











(** ** A process that has exited *)

Lemma step_exited ev s : exited s = true -> step ev s = s.
Proof. intros H. unfold step. now rewrite H. Qed.

Lemma run_exited evs : forall s, exited s = true -> run evs s = s.
Proof.
  induction evs as [|ev evs IH]; intros s H; simpl; [reflexivity|].
  rewrite step_exited by exact H. now apply IH.
Qed.

Lemma exited_step ev s : exited s = true -> exited (step ev s) = true.
Proof. intros H. now rewrite step_exited. Qed.



Lemma exited_finish reply close v s : exited (finish reply close v s) = exited s.
Proof. reflexivity. Qed.

Lemma exited_complete now tokens identity s :
  exited (complete now tokens identity s) = exited s.
Proof. unfold complete. destruct (orgData _ _ _ _); reflexivity. Qed.

(** Only a request whose URL does not parse, met while the promise is not
    settled, makes the process exit. *)
Lemma step_keeps_running ev s :
  exited s = false -> ev <> Request None -> exited (step ev s) = false.
Proof.
  intros Hrun Hev. unfold step. rewrite Hrun.
  destruct ev as [[u|]|i r now|msg|]; simpl.
  - destruct (settled s); [exact Hrun|].
    destruct (negb _); [exact Hrun|].
    destruct (_ || _)%bool; exact Hrun.
  - congruence.
  - destruct (nth_error (handlers s) i) as [p|]; [|exact Hrun].
    unfold resume.
    destruct p, r;
      repeat match goal with
             | |- context [if ?b then _ else _] => destruct b
             | |- context [match field ?n ?d with _ => _ end] => destruct (field n d)
             end;
      rewrite ?exited_complete, ?exited_finish; exact Hrun.
  - destruct (settled s); exact Hrun.
  - destruct (settled s); exact Hrun.
Qed.

Lemma parsed_requests_keep_running evs :
  forall s,
    exited s = false -> ~ In (Request None) evs -> exited (run evs s) = false.
Proof.
  induction evs as [|ev evs IH]; intros s Hrun Hnone; simpl; [exact Hrun|].
  apply IH.
  - apply step_keeps_running; [exact Hrun|].
    intros E. apply Hnone. left. exact E.
  - intros Hin. apply Hnone. now right.
Qed.

(** C2: the promise is not settled on every interleaving.  A callback
    request whose URL [new URL] cannot parse, arriving while the promise is
    pending, ends the process: the statement is outside the [try] of the
    listener, whose [catch] would have replied 500 and rejected.  Whatever
    came before that left the promise pending and whatever is due after it,
    the timer included, neither [resolve] nor [reject] is ever invoked and the
    promise stays pending. *)
Theorem oauthLogin_unparsable_url_never_settles
  (a url : jsstring) (creds : option store) (before after : list event) :
  let s0 := run before (oauthLogin a url creds) in
  exited s0 = false ->
  settled s0 = false ->
  let s := run (before ++ Request None :: after) (oauthLogin a url creds) in
  exited s = true
  /\ settled s = false
  /\ state s = Pending
  /\ calls s = []
  /\ unguarded (calls s) = []
  /\ file s = file s0.
Proof.
  cbv zeta. intros Hrun Hflag.
  set (s0 := run before (oauthLogin a url creds)) in *.
  assert (Hstep : step (Request None) s0 = exit s0).
  { unfold step. rewrite Hrun. simpl. now rewrite Hflag. }
  assert (Hend : run (before ++ Request None :: after) (oauthLogin a url creds)
                 = exit s0).
  { rewrite run_app. fold s0. simpl. rewrite Hstep. now apply run_exited. }
  rewrite Hend.
  pose proof (run_invariant before (oauthLogin_invariant a url creds)) as Hinv.
  fold s0 in Hinv.
  destruct Hinv as [_ Hstate Hcalls|c later Hup _ _ _ _ _]; [|congruence].
  simpl. rewrite Hcalls. repeat split; assumption.
Qed.

Lemma oauthLogin_unparsable_url_never_settles_witness :
  let s := run [Request None; Timeout]
             (oauthLogin (js "prod") (js "https://login.salesforce.com") None) in
  exited s = true
  /\ settled s = false
  /\ state s = Pending
  /\ calls s = []
  /\ unguarded (calls s) = []
  /\ file s = None.
Proof.
  cbv zeta.
  apply (@oauthLogin_unparsable_url_never_settles
           (js "prod") (js "https://login.salesforce.com") None [] [Timeout]);
    reflexivity.
Defined.



(** A handler that outlives the timer still saves the org it obtained,
    and its [resolve] is ignored: the promise stays rejected. *)
Example login_saved_after_timeout :
  let tokens := JObj [(js "access_token", JStr (js "00D-new"));
                      (js "refresh_token", JStr (js "5Aep"));
                      (js "instance_url", JStr (js "https://na1.my.salesforce.com"));
                      (js "id", JStr (js "https://login.salesforce.com/id/1"))] in
  let s := run [sample_callback; Timeout;
                Resume 0 (Responded 200) (js "");
                Resume 0 (Parsed tokens) (js "");
                Resume 0 (Responded 500) (js "2025-01-01T00:00:00.000Z")]
             (oauthLogin (js "prod") (js "https://login.salesforce.com") None) in
  state s = Rejected (Error (js "Login timed out after 2 minutes. Try again."))
  /\ map settled_before (calls s) = [false; true]
  /\ Object_keys (stored (file s)) = [js "prod"]
  /\ replies s = [200%Z].
Proof. cbv zeta. repeat split. Qed.

End LoginFacts.

(* ================================================================== *)
(** * The sf variant: where sf is found and what it is run with         *)
(* ================================================================== *)

Section CliToolFacts.

Import Cli CliTools.

(** ** orgArgs *)

Lemma resolveOrg_alias D a c : resolveOrg D (Some (c :: a)) = Some (c :: a).
Proof. reflexivity. Qed.

(** X5: [orgArgs] names the org of the call when the caller gave one that
    is not empty, whatever the default is; it falls back to [DEFAULT_ORG]
    when the alias is missing or empty; and when both are missing or empty it
    adds nothing, so a [--target-org] flag is never followed by an empty
    value. *)
Theorem orgArgs_precedence :
  (forall D c a, orgArgs D (Some (c :: a)) = [js "--target-org"; c :: a])
  /\ (forall c d,
        orgArgs (c :: d) None = [js "--target-org"; c :: d]
        /\ orgArgs (c :: d) (Some []) = [js "--target-org"; c :: d])
  /\ (orgArgs [] None = [] /\ orgArgs [] (Some []) = [])
  /\ (forall env c a,
        orgArgs (DEFAULT_ORG env) (Some (c :: a)) = [js "--target-org"; c :: a])
  /\ (orgArgs (DEFAULT_ORG None) None = []
      /\ orgArgs (DEFAULT_ORG (Some [])) None = [])
  /\ (forall D alias,
        orgArgs D alias = []
        \/ exists c org, orgArgs D alias = [js "--target-org"; c :: org]).
Proof.
  repeat split; try reflexivity.
  intros D alias. unfold orgArgs.
  destruct (resolveOrg D alias) as [org|] eqn:E; [|now left].
  right. unfold resolveOrg in E.
  destruct (str_or (str_or alias (Some D)) None) as [[|c o]|]; try discriminate.
  inversion E; subst. now exists c, o.
Qed.

(** ** The argument lists *)

Ltac json_is_there :=
  repeat rewrite <- app_assoc;
  repeat (cbn [app];
          match goal with
          | |- In _ (_ :: _) => (left; reflexivity) || right
          | |- In _ (_ ++ _) => apply in_or_app; right
          end).

(** X6: whatever tool is called and with whatever arguments, the argument
    list handed to [sf] holds [--json]. *)
Theorem every_tool_passes_json (D tmpFile : jsstring) (c : tool_call) :
  match tool_args D tmpFile c with
  | Return args => In (js "--json") args
  | Throw _ => True
  end.
Proof.
  destruct c; cbn [tool_args];
    try (apply includes_In, ensure_json_includes);
    unfold sf_org_list_args, sf_org_display_args, sf_query_args,
      sf_search_args, sf_describe_args, sf_list_objects_args,
      sf_create_record_args, sf_update_record_args, sf_delete_record_args,
      sf_get_record_args, sf_bulk_import_args, sf_bulk_export_args,
      sf_deploy_args, sf_retrieve_args, sf_apex_run_args, sf_apex_test_args,
      sf_apex_log_args, sf_list_metadata_args, sf_org_limits_args,
      sf_rest_api_args;
    repeat match goal with
           | |- match (if ?b then _ else _) with _ => _ end => destruct b
           | |- match (match ?x with _ => _ end) with _ => _ end => destruct x
           | |- In _ (match ?x with _ => _ end) => destruct x
           | |- In _ (if ?b then _ else _) => destruct b
           end;
    try exact I; json_is_there.
Qed.

(** X7: [sf_bulk_import] runs [data upsert bulk] exactly when the operation
    is the string "upsert" and an external id that is not empty came with
    it; in every other case, an upsert without external id among them, it
    runs [data import bulk] and the external id is not passed on. *)
Theorem sf_bulk_import_upserts_only_with_external_id
  (D sobject file : jsstring) (org operation external_id : option jsstring) :
  let args := sf_bulk_import_args D sobject file org operation external_id in
  let upsert := match operation, external_id with
                | Some op, Some (_ :: _) => eqb op (js "upsert")
                | _, _ => false
                end in
  (upsert = true <->
     (operation = Some (js "upsert") /\ str_truthy external_id = true))
  /\ (upsert = true ->
      exists id,
        external_id = Some id
        /\ args = [js "data"; js "upsert"; js "bulk"; js "-s"; sobject;
                   js "-f"; file; js "-i"; id]
                  ++ orgArgs D org ++ [js "--json"; js "-w"; js "10"])
  /\ (upsert = false ->
      args = [js "data"; js "import"; js "bulk"; js "-s"; sobject;
              js "-f"; file]
             ++ orgArgs D org ++ [js "--json"; js "-w"; js "10"]).
Proof.
  cbv zeta. unfold sf_bulk_import_args.
  destruct operation as [op|].
  - destruct external_id as [[|i id]|]; cbn [str_truthy].
    + split; [split; [discriminate|intros [_ H]; discriminate]|].
      split; [discriminate|reflexivity].
    + destruct (eqb op (js "upsert")) eqn:E.
      * apply eqb_eq in E. subst op.
        split; [split; auto|].
        split; [intros _; now exists (i :: id)|discriminate].
      * apply eqb_neq in E.
        split; [split; [discriminate|intros [H _]; congruence]|].
        split; [discriminate|reflexivity].
    + split; [split; [discriminate|intros [_ H]; discriminate]|].
      split; [discriminate|reflexivity].
  - split; [split; [discriminate|intros [H _]; discriminate]|].
    split; [discriminate|].
    destruct external_id as [[|i id]|]; reflexivity.
Qed.

(** ** sf_apex_run *)

Lemma unlinkSync_after_run p data args fs :
  exists fs',
    unlinkSync p (ran args (writeFileSync p data fs)) = Return fs'
    /\ content fs' p = None
    /\ (forall q, q <> p -> content fs' q = content fs q)
    /\ history fs' = history fs ++ [Wrote p data; Ran args; Removed p].
Proof.
  unfold unlinkSync, ran, writeFileSync. cbn [content history].
  rewrite eqb_refl.
  eexists. split; [reflexivity|]. cbn [content history]. split; [|split].
  - now rewrite eqb_refl.
  - intros q Hq. apply eqb_neq in Hq. now rewrite Hq.
  - now rewrite <- !app_assoc.
Qed.

(** X8: when [sf_apex_run] gets inline code and no file, it writes the code
    to the temporary file, then runs [sf] once with [-f] and that file, then
    removes the file, in this order and doing nothing else, and answers what
    the run answered; whether the run returned or threw, the temporary file
    is gone afterwards and every other file is as it was.  When a file is
    named it is that file [sf] is run with, whatever the code, and no file is
    written or removed; nor is one when the code is missing or empty. *)
Theorem sf_apex_run_removes_its_file
  (D tmpFile : jsstring) (org : option jsstring) (w : world) (fs : files) :
  (forall c code,
      let args := [js "apex"; js "run"] ++ orgArgs D org
                  ++ [js "--json"; js "-f"; tmpFile] in
      let after := sf_apex_run D tmpFile (Some (c :: code)) None org (w, fs) in
      fst after = fst (runSf args w)
      /\ fst (snd after) = snd (runSf args w)
      /\ content (snd (snd after)) tmpFile = None
      /\ (forall q, q <> tmpFile ->
                    content (snd (snd after)) q = content fs q)
      /\ history (snd (snd after))
         = history fs
           ++ [Wrote tmpFile (c :: code); Ran args; Removed tmpFile])
  /\ (forall code c file,
        let args := [js "apex"; js "run"] ++ orgArgs D org
                    ++ [js "--json"; js "-f"; c :: file] in
        let after := sf_apex_run D tmpFile code (Some (c :: file)) org (w, fs) in
        fst after = fst (runSf args w)
        /\ fst (snd after) = snd (runSf args w)
        /\ content (snd (snd after)) = content fs
        /\ history (snd (snd after)) = history fs ++ [Ran args])
  /\ (forall file,
        let args := [js "apex"; js "run"] ++ orgArgs D org ++ [js "--json"]
                    ++ flag_if "-f" file in
        (let after := sf_apex_run D tmpFile None file org (w, fs) in
         fst after = fst (runSf args w)
         /\ content (snd (snd after)) = content fs
         /\ history (snd (snd after)) = history fs ++ [Ran args])
        /\ (let after := sf_apex_run D tmpFile (Some []) file org (w, fs) in
            fst after = fst (runSf args w)
            /\ content (snd (snd after)) = content fs
            /\ history (snd (snd after)) = history fs ++ [Ran args])).
Proof.
  split; [|split].
  - intros c code. cbv zeta.
    assert (Hargs : sf_apex_run_args D tmpFile (Some (c :: code)) None org
                    = [js "apex"; js "run"] ++ orgArgs D org
                      ++ [js "--json"; js "-f"; tmpFile]).
    { reflexivity. }
    unfold sf_apex_run. rewrite Hargs. cbn [str_truthy].
    destruct (unlinkSync_after_run tmpFile (c :: code)
                ([js "apex"; js "run"] ++ orgArgs D org
                 ++ [js "--json"; js "-f"; tmpFile]) fs)
      as (fs' & Hun & Hgone & Hrest & Hdone).
    destruct (runSf _ w) as [[result|e] w']; rewrite Hun; cbn [fst snd];
      repeat split; auto.
  - intros code c file. cbv zeta.
    assert (Hargs : sf_apex_run_args D tmpFile code (Some (c :: file)) org
                    = [js "apex"; js "run"] ++ orgArgs D org
                      ++ [js "--json"; js "-f"; c :: file]).
    { unfold sf_apex_run_args. cbn [str_truthy negb flag_if].
      rewrite andb_false_r, app_nil_r. reflexivity. }
    unfold sf_apex_run. rewrite Hargs.
    destruct code as [[|x code]|]; cbn [str_truthy];
      destruct (runSf _ w); repeat split.
  - intros file. cbv zeta.
    assert (Hnone : sf_apex_run_args D tmpFile None file org
                    = [js "apex"; js "run"] ++ orgArgs D org ++ [js "--json"]
                      ++ flag_if "-f" file).
    { unfold sf_apex_run_args. cbn [str_truthy andb].
      now rewrite app_nil_r. }
    assert (Hempty : sf_apex_run_args D tmpFile (Some []) file org
                     = [js "apex"; js "run"] ++ orgArgs D org ++ [js "--json"]
                       ++ flag_if "-f" file).
    { unfold sf_apex_run_args. cbn [str_truthy andb].
      now rewrite app_nil_r. }
    unfold sf_apex_run. rewrite Hnone, Hempty.
    destruct (runSf _ w); repeat split.
Qed.

(** ** findSfPath *)

Lemma find_first {A} (f : A -> bool) (l : list A) (x : A) :
  find f l = Some x ->
  exists before after,
    l = before ++ x :: after /\ f x = true
    /\ (forall y, In y before -> f y = false).
Proof.
  induction l as [|a l IH]; simpl; [discriminate|].
  destruct (f a) eqn:E.
  - intros [= ->]. exists [], l. repeat split; [assumption|intros y []].
  - intros H. destruct (IH H) as (before & after & -> & Hx & Hb).
    exists (a :: before), after. repeat split; [assumption|].
    intros y [<-|Hy]; auto.
Qed.

Lemma lt_irrefl a : Builtins.lt a a = false.
Proof.
  induction a as [|x a IH]; simpl; [reflexivity|].
  now rewrite N.ltb_irrefl.
Qed.

Lemma lt_asym a : forall b, Builtins.lt a b = true -> Builtins.lt b a = false.
Proof.
  induction a as [|x a IH]; intros [|y b]; simpl; try congruence.
  destruct (N.ltb x y) eqn:Exy.
  - intros _. apply N.ltb_lt in Exy.
    assert (N.ltb y x = false) as -> by (apply N.ltb_ge; lia).
    reflexivity.
  - destruct (N.ltb y x) eqn:Eyx; [discriminate|]. apply IH.
Qed.

Lemma insert_perm x l : Permutation (Builtins.insert x l) (x :: l).
Proof.
  induction l as [|y l IH]; simpl; [reflexivity|].
  destruct (Builtins.lt x y); [reflexivity|].
  rewrite IH. apply perm_swap.
Qed.

Lemma sort_perm l : Permutation (Builtins.sort l) l.
Proof.
  induction l as [|x l IH]; simpl; [reflexivity|].
  rewrite insert_perm. now constructor.
Qed.

(** [a] is not after [b]. *)
Lemma insert_sorted x l :
  Sorted (fun a b => Builtins.lt b a = false) l ->
  Sorted (fun a b => Builtins.lt b a = false) (Builtins.insert x l).
Proof.
  induction 1 as [|y l Hs IH Hhd]; simpl.
  - repeat constructor.
  - destruct (Builtins.lt x y) eqn:E.
    + constructor; [now constructor|]. constructor. now apply lt_asym.
    + constructor; [exact IH|].
      destruct l as [|z l]; simpl.
      * now constructor.
      * destruct (Builtins.lt x z); constructor; [exact E|].
        now inversion Hhd.
Qed.

Lemma sort_sorted l : Sorted (fun a b => Builtins.lt b a = false) (Builtins.sort l).
Proof.
  induction l as [|x l IH]; simpl; [constructor|]. now apply insert_sorted.
Qed.

Lemma sorted_snoc {A} (R : A -> A -> Prop) (l : list A) (x : A) :
  Sorted R l ->
  match rev l with [] => True | y :: _ => R y x end ->
  Sorted R (l ++ [x]).
Proof.
  induction 1 as [|a l Hs IH Hhd]; simpl.
  - intros _. repeat constructor.
  - intros Hlast. constructor.
    + apply IH. destruct (rev l) as [|y r] eqn:E; [exact I|exact Hlast].
    + destruct l as [|b l]; simpl in *.
      * now constructor.
      * constructor. now inversion Hhd.
Qed.

Lemma sorted_rev {A} (R : A -> A -> Prop) (l : list A) :
  Sorted R l -> Sorted (fun a b => R b a) (rev l).
Proof.
  induction 1 as [|a l Hs IH Hhd]; simpl; [constructor|].
  apply sorted_snoc; [exact IH|].
  rewrite rev_involutive. destruct Hhd; [exact I|assumption].
Qed.

Lemma candidate_is_not_sf h p : In p (candidates h) -> p <> [js "sf"].
Proof.
  unfold candidates. intros Hin. apply in_app_or in Hin as [Hin|Hin].
  - simpl in Hin.
    repeat (destruct Hin as [<-|Hin]; [discriminate|]). destruct Hin.
  - unfold nvm_candidates in Hin.
    destruct (existsSync h (nvmVersionsDir h)); [|destruct Hin].
    destruct (readdirSync h (nvmVersionsDir h)) as [versions|e]; [|destruct Hin].
    apply in_map_iff in Hin as (v & <- & _). discriminate.
Qed.

(** X9: [findSfPath] returns the [SF_PATH] of the environment when that is
    set to something other than "sf", without looking at the disk.  Otherwise
    it returns the first candidate that exists, and the bare name "sf"
    exactly when no candidate exists.  The candidates below the nvm versions
    directory come after the fixed ones, one for every entry of the
    directory, ordered so that no name is followed by a greater one. *)
Theorem findSfPath_finds_the_first_candidate (h : host) :
  (forall c p,
      SF_PATH_env h = Some (c :: p) -> c :: p <> js "sf" ->
      findSfPath h = [c :: p])
  /\ (str_truthy (SF_PATH_env h) = false \/ SF_PATH_env h = Some (js "sf") ->
      (findSfPath h = [js "sf"]
       <-> forall p, In p (candidates h) -> existsSync h p = false)
      /\ (findSfPath h = [js "sf"]
          \/ exists before after,
               candidates h = before ++ findSfPath h :: after
               /\ existsSync h (findSfPath h) = true
               /\ (forall p, In p before -> existsSync h p = false)))
  /\ (forall versions,
        existsSync h (nvmVersionsDir h) = true ->
        readdirSync h (nvmVersionsDir h) = Return versions ->
        exists ordered,
          candidates h
          = fixed_candidates h
            ++ map (fun v => nvmVersionsDir h ++ [v; js "bin"; js "sf"]) ordered
          /\ Permutation ordered versions
          /\ Sorted (fun a b => Builtins.lt a b = false) ordered).
Proof.
  split; [|split].
  - intros c p Henv Hne. unfold findSfPath. rewrite Henv.
    apply eqb_neq in Hne. now rewrite Hne.
  - intros Henv.
    assert (Hsearch : findSfPath h
                      = match find (existsSync h) (candidates h) with
                        | Some p => p
                        | None => [js "sf"]
                        end).
    { unfold findSfPath. destruct Henv as [Hf| ->]; [|reflexivity].
      destruct (SF_PATH_env h) as [[|c p]|]; try reflexivity. discriminate. }
    rewrite Hsearch.
    destruct (find (existsSync h) (candidates h)) as [p|] eqn:Hfind.
    + destruct (find_first _ _ Hfind) as (before & after & Hc & Hp & Hb).
      split.
      * split.
        -- intros ->. exfalso.
           apply (@candidate_is_not_sf h [js "sf"]); [|reflexivity].
           rewrite Hc. apply in_or_app. right. now left.
        -- intros Hnone. exfalso.
           assert (In p (candidates h))
             by (rewrite Hc; apply in_or_app; right; now left).
           rewrite (Hnone p) in Hp by assumption. discriminate.
      * right. now exists before, after.
    + split; [|now left].
      split; [|reflexivity].
      intros _ p Hin. now apply (find_none _ _ Hfind).
  - intros versions Hdir Hread.
    exists (rev (Builtins.sort versions)). split; [|split].
    + unfold candidates, nvm_candidates. now rewrite Hdir, Hread.
    + rewrite <- Permutation_rev. apply sort_perm.
    + apply (sorted_rev (sort_sorted versions)).
Qed.

End CliToolFacts.

(* ================================================================== *)
(** * The REST variant: listing, showing and finding orgs               *)
(* ================================================================== *)

Section OrgToolFacts.

Import Rest RestTools.

(** X11: [sf_org_display] fails only when no org can be found: it throws
    exactly when [getOrg] does.  Whatever the API call does, a failure
    included, the answer shows the org that [getOrg] found; the latest API
    version is left out when the call failed. *)
Theorem sf_org_display_survives_api_errors (org : option jsstring) (w : world) :
  throws (fst (sf_org_display org w)) = throws (fst (getOrg org w))
  /\ (forall o,
        getOrg org w = (Return o, w) ->
        exists latest,
          fst (sf_org_display org w) = Return (display o latest)
          /\ (throws (fst (sfApi org [] no_opts w)) = true -> latest = None)).
Proof.
  unfold sf_org_display, bind.
  pose proof (getOrg_world org w) as Hw.
  destruct (getOrg org w) as [[o|e] w0]; simpl in Hw; subst w0.
  - split.
    + destruct (sfApi org [] no_opts w) as [[v|e] w']; reflexivity.
    + intros o' [= <-].
      destruct (sfApi org [] no_opts w) as [[v|e] w'].
      * exists (latestApiVersion v). split; [reflexivity|discriminate].
      * exists None. split; reflexivity.
  - split; [reflexivity|discriminate].
Qed.

(** X12: an alias that is not empty decides on its own what [getOrg]
    returns: [DEFAULT_ORG] plays no part then, not even when the alias is
    unknown (the first org of the store is returned, not the default one).
    Without an alias, or with an empty one, a [DEFAULT_ORG] that is a key of
    the store selects that org. *)
Theorem getOrg_alias_before_default :
  (forall c a creds env env' net log written,
      fst (getOrg (Some (c :: a))
             {| credentials := creds; DEFAULT_ORG := env; network := net;
                requests := log; writes := written |})
      = fst (getOrg (Some (c :: a))
               {| credentials := creds; DEFAULT_ORG := env'; network := net;
                  requests := log; writes := written |}))
  /\ (forall w c d r,
        DEFAULT_ORG w = Some (c :: d) ->
        own (c :: d) (loadOrgs w) = Some r ->
        getOrg None w = (Return {| _alias := c :: d; fields := r |}, w)
        /\ getOrg (Some []) w = (Return {| _alias := c :: d; fields := r |}, w)).
Proof.
  split.
  - intros c a creds env env' net log written. unfold getOrg. simpl.
    destruct (get (c :: a) _); reflexivity.
  - intros w c d r Henv Hown. unfold getOrg, get. simpl.
    rewrite Henv. simpl. rewrite Hown. split; reflexivity.
Qed.

Lemma getOrg_alias_before_default_witness :
  let w := {| credentials := Some sample_store; DEFAULT_ORG := Some (js "dev");
              network := scripted []; requests := []; writes := [] |} in
  fst (getOrg (Some (js "nope")) w)
  = Return {| _alias := js "prod"; fields := sample_org |}
  /\ fst (getOrg None w)
     = Return {| _alias := js "dev";
                 fields := Org.set_accessToken (Some (JStr (js "00D-dev")))
                             sample_org |}.
Proof.
  cbv zeta. split; [reflexivity|].
  destruct (proj2 getOrg_alias_before_default
              {| credentials := Some sample_store;
                 DEFAULT_ORG := Some (js "dev");
                 network := scripted []; requests := []; writes := [] |}
              100%N (js "ev")
              (Org.set_accessToken (Some (JStr (js "00D-dev"))) sample_org)
              eq_refl eq_refl) as [H _].
  now rewrite H.
Defined.

End OrgToolFacts.

(* ================================================================== *)
(** * The REST variant: a login and what follows it                     *)
(* ================================================================== *)

Section AfterLoginFacts.

Import Rest RestTools.

Variable A : Type.
Implicit Types (o : object A) (k : jsstring).

Lemma own_app_fresh k a o : own k o = None -> own k (o ++ [(k, a)]) = Some a.
Proof.
  induction o as [|[k' a'] o IH]; simpl.
  - now rewrite eqb_refl.
  - destruct (eqb k k'); [discriminate|]. exact IH.
Qed.

Lemma own_add_index_fresh n k a o :
  own k o = None -> own k (add_index n k a o) = Some a.
Proof.
  induction o as [|[k' a'] o IH]; simpl.
  - now rewrite eqb_refl.
  - destruct (eqb k k') eqn:E; [discriminate|]. intros Hown.
    destruct (array_index k') as [m|]; [destruct (N.ltb m n)|]; simpl;
      rewrite ?eqb_refl, ?E; auto.
Qed.

Lemma own_app_other k j a o : j <> k -> own j (o ++ [(k, a)]) = own j o.
Proof.
  intros Hjk. apply eqb_neq in Hjk.
  induction o as [|[k' a'] o IH]; simpl.
  - now rewrite Hjk.
  - destruct (eqb j k'); auto.
Qed.

Lemma own_add_index_other n k j a o :
  j <> k -> own j (add_index n k a o) = own j o.
Proof.
  intros Hjk. apply eqb_neq in Hjk.
  induction o as [|[k' a'] o IH]; simpl.
  - now rewrite Hjk.
  - destruct (array_index k') as [m|]; [destruct (N.ltb m n)|]; simpl;
      rewrite ?Hjk; try reflexivity.
    destruct (eqb j k'); auto.
Qed.

(** What was assigned is what is read, except under [__proto__]. *)
Lemma own_set_same k a o :
  k <> js "__proto__" \/ own k o <> None -> own k (set k a o) = Some a.
Proof.
  intros Hk. unfold set. destruct (own k o) eqn:E.
  - apply own_replace_same. congruence.
  - destruct Hk as [Hk|Hk]; [|congruence].
    apply eqb_neq in Hk. rewrite Hk.
    destruct (array_index k).
    + now apply own_add_index_fresh.
    + now apply own_app_fresh.
Qed.

Lemma own_set_other k j a o : j <> k -> own j (set k a o) = own j o.
Proof.
  intros Hjk. unfold set. destruct (own k o).
  - now apply own_replace_other.
  - destruct (eqb k (js "__proto__")); [reflexivity|].
    destruct (array_index k).
    + now apply own_add_index_other.
    + now apply own_app_other.
Qed.

Lemma delete_app_fresh k a o : own k o = None -> delete k (o ++ [(k, a)]) = o.
Proof.
  induction o as [|[k' a'] o IH]; simpl.
  - now rewrite eqb_refl.
  - destruct (eqb k k'); [discriminate|]. intros H. now rewrite IH.
Qed.

Lemma delete_add_index_fresh n k a o :
  own k o = None -> delete k (add_index n k a o) = o.
Proof.
  induction o as [|[k' a'] o IH]; simpl.
  - now rewrite eqb_refl.
  - destruct (eqb k k') eqn:E; [discriminate|]. intros Hown.
    destruct (array_index k') as [m|]; [destruct (N.ltb m n)|]; simpl;
      rewrite ?eqb_refl, ?E; try reflexivity.
    now rewrite IH.
Qed.

(** Deleting a key that was just added gives the object back. *)
Lemma delete_set_fresh k a o :
  own k o = None -> k <> js "__proto__" -> delete k (set k a o) = o.
Proof.
  intros Hown Hk. unfold set. rewrite Hown.
  apply eqb_neq in Hk. rewrite Hk.
  destruct (array_index k).
  - now apply delete_add_index_fresh.
  - now apply delete_app_fresh.
Qed.

(** Assigning to [__proto__] adds nothing. *)
Lemma set_proto_fresh a o :
  own (js "__proto__") o = None -> set (js "__proto__") a o = o.
Proof. intros H. unfold set. now rewrite H. Qed.

End AfterLoginFacts.

Section LoginRoundTrips.

Import Rest RestTools.

Lemma complete_saves now tokens identity s data :
  orgData (loginUrl s) now tokens identity = Return data ->
  file (complete now tokens identity s)
  = Some (set (alias s) data (stored (file s))).
Proof. intros H. unfold complete. now rewrite H. Qed.

(** X13: the record a login saves is the one a lookup under its alias
    finds.  When the request handler reaches its end with the org data, and
    the alias is neither empty nor [__proto__], then in any environment that
    holds the credentials file it left, [getOrg(alias)] returns exactly that
    data, and every other alias reads as before the login.  Under the alias
    [__proto__] the assignment adds nothing: the file holds the records it
    held before. *)
Theorem login_then_getOrg
  (s : login) (now : jsstring) (tokens identity : json) (data : Org.t)
  (env : option jsstring) (net : list request -> request -> outcome response) :
  orgData (loginUrl s) now tokens identity = Return data ->
  let s' := complete now tokens identity s in
  (alias s <> [] -> alias s <> js "__proto__" ->
   getOrg (Some (alias s)) (world_of (file s') env net)
   = (Return {| _alias := alias s; fields := data |},
      world_of (file s') env net))
  /\ (forall k, k <> alias s ->
                own k (stored (file s')) = own k (stored (file s)))
  /\ (alias s = js "__proto__" ->
      own (js "__proto__") (stored (file s)) = None ->
      stored (file s') = stored (file s)).
Proof.
  intros Hdata. cbv zeta. rewrite (complete_saves _ _ _ _ Hdata).
  split; [|split].
  - intros Hne Hproto. unfold getOrg, get.
    destruct (alias s) as [|c a] eqn:Ea; [congruence|].
    cbn [str_or str_truthy world_of loadOrgs credentials].
    rewrite own_set_same by (left; congruence). reflexivity.
  - intros k Hk. cbn [stored]. now apply own_set_other.
  - intros Ha Hown. cbn [stored]. rewrite Ha. now apply set_proto_fresh.
Qed.

Lemma login_then_getOrg_witness :
  let s := oauthLogin (js "qa") (js "https://test.salesforce.com")
             (Some sample_store) in
  let tokens := JObj [(js "access_token", JStr (js "00D-qa"))] in
  let s' := complete (js "2025-02-02T00:00:00.000Z") tokens (JObj []) s in
  exists data,
    orgData (loginUrl s) (js "2025-02-02T00:00:00.000Z") tokens (JObj [])
    = Return data
    /\ getOrg (Some (js "qa")) (world_of (file s') None (scripted []))
       = (Return {| _alias := js "qa"; fields := data |},
          world_of (file s') None (scripted [])).
Proof.
  cbv zeta. eexists. split; [reflexivity|].
  apply (@login_then_getOrg
           (oauthLogin (js "qa") (js "https://test.salesforce.com")
              (Some sample_store))
           (js "2025-02-02T00:00:00.000Z")
           (JObj [(js "access_token", JStr (js "00D-qa"))]) (JObj [])
           _ None (scripted []) eq_refl);
    discriminate.
Defined.

(** X14: a logout undoes a login under a new alias.  When the request
    handler saves the org data under an alias the store did not hold (and
    that is not [__proto__]), [sf_org_logout] of that alias reports success
    and writes back the store exactly as it was before the login, the order
    of the orgs included. *)
Theorem logout_undoes_login
  (s : login) (now : jsstring) (tokens identity : json) (data : Org.t)
  (env : option jsstring) (net : list request -> request -> outcome response) :
  orgData (loginUrl s) now tokens identity = Return data ->
  own (alias s) (stored (file s)) = None ->
  alias s <> js "__proto__" ->
  let w := world_of (file (complete now tokens identity s)) env net in
  fst (sf_org_logout (Some (alias s)) w) = Return (removed (Some (alias s)))
  /\ loadOrgs (snd (sf_org_logout (Some (alias s)) w)) = stored (file s)
  /\ writes (snd (sf_org_logout (Some (alias s)) w)) = [stored (file s)].
Proof.
  intros Hdata Hfresh Hproto. cbv zeta.
  rewrite (complete_saves _ _ _ _ Hdata).
  unfold sf_org_logout, get.
  cbn [alias_key world_of loadOrgs credentials].
  rewrite own_set_same by (now left).
  cbn [bind saveOrgs ret fst snd loadOrgs credentials writes app].
  rewrite delete_set_fresh by assumption.
  repeat split.
Qed.

Lemma logout_undoes_login_witness :
  let s := oauthLogin (js "qa") (js "https://test.salesforce.com")
             (Some sample_store) in
  let tokens := JObj [(js "access_token", JStr (js "00D-qa"))] in
  let w := world_of
             (file (complete (js "2025-02-02T00:00:00.000Z") tokens (JObj []) s))
             None (scripted []) in
  Object_keys (loadOrgs w) = [js "prod"; js "dev"; js "qa"]
  /\ loadOrgs (snd (sf_org_logout (Some (js "qa")) w)) = sample_store.
Proof.
  cbv zeta. split; [reflexivity|].
  apply (@logout_undoes_login
           (oauthLogin (js "qa") (js "https://test.salesforce.com")
              (Some sample_store))
           (js "2025-02-02T00:00:00.000Z")
           (JObj [(js "access_token", JStr (js "00D-qa"))]) (JObj [])
           _ None (scripted []) eq_refl eq_refl).
  discriminate.
Defined.

(** ** The file is written by the end of a request handler only *)




End LoginRoundTrips.

(* ================================================================== *)
(** * The REST variant: what the tools leave alone                      *)
(* ================================================================== *)

Section FrameFacts.

Import Rest RestTools.

Lemma same_login_refl r : same_login r r.
Proof. repeat split. Qed.

Lemma same_login_trans a b c : same_login a b -> same_login b c -> same_login a c.
Proof. unfold same_login. intuition congruence. Qed.

Lemma same_orgs_refl o : same_orgs o o.
Proof.
  induction o as [|[k r] o IH]; constructor; auto.
  split; [reflexivity|apply same_login_refl].
Qed.

Lemma same_orgs_trans a : forall b c, same_orgs a b -> same_orgs b c -> same_orgs a c.
Proof.
  induction a as [|x a IH]; intros b c Hab Hbc.
  - inversion Hab; subst. inversion Hbc; subst. constructor.
  - inversion Hab as [|x' y b' c' [K1 L1] Hab']; subst.
    inversion Hbc as [|y' z b'' c'' [K2 L2] Hbc']; subst.
    constructor.
    + split; [congruence|]. eapply same_login_trans; eassumption.
    + eapply IH; eassumption.
Qed.

Lemma same_orgs_keys a b : same_orgs a b -> Object_keys a = Object_keys b.
Proof.
  induction 1 as [|x y a b [Hk _] _ IH]; [reflexivity|].
  unfold Object_keys in *. simpl. now rewrite Hk, IH.
Qed.

Lemma same_orgs_replace k r r' o :
  own k o = Some r -> same_login r r' -> same_orgs o (replace k r' o).
Proof.
  intros Hown Hlogin. induction o as [|[j a] o IH]; simpl in *; [constructor|].
  destruct (eqb k j) eqn:E.
  - inversion Hown; subst. constructor; [|apply same_orgs_refl].
    split; [reflexivity|exact Hlogin].
  - constructor; [|now apply IH].
    split; [reflexivity|apply same_login_refl].
Qed.

Lemma same_login_tokens (access inst : jsval) r :
  same_login r
    (if truthy inst
     then Org.set_instanceUrl inst (Org.set_accessToken access r)
     else Org.set_accessToken access r).
Proof. destruct (truthy inst); repeat split. Qed.

Lemma refreshes_app a b : refreshes (a ++ b) = refreshes a + refreshes b.
Proof. unfold refreshes. now rewrite filter_app, length_app. Qed.

Lemma kept_refl w : kept w w.
Proof.
  constructor; auto.
  - exists []. now rewrite app_nil_r.
  - exists []. now rewrite app_nil_r.
  - apply same_orgs_refl.
Qed.

Lemma kept_trans w w1 w2 : kept w w1 -> kept w1 w2 -> kept w w2.
Proof.
  intros [E1 N1 [q1 R1] [x1 W1] O1 F1] [E2 N2 [q2 R2] [x2 W2] O2 F2].
  constructor.
  - congruence.
  - congruence.
  - exists (q1 ++ q2). rewrite R2, R1. now rewrite app_assoc.
  - exists (x1 ++ x2). rewrite W2, W1. now rewrite app_assoc.
  - eapply same_orgs_trans; eassumption.
  - assert (Hall : requests w2 = requests w ++ (q1 ++ q2))
      by (rewrite R2, R1; now rewrite app_assoc).
    rewrite (@issued_app _ _ _ Hall), refreshes_app.
    rewrite (@issued_app _ _ _ R1) in F1. rewrite (@issued_app _ _ _ R2) in F2.
    intros Hzero.
    destruct F1 as [C1 V1]; [lia|]. destruct F2 as [C2 V2]; [lia|].
    split; congruence.
Qed.

Lemma kept_fetch rq w : kept w (snd (fetch rq w)).
Proof.
  constructor; simpl; auto.
  - now exists [rq].
  - exists []. now rewrite app_nil_r.
  - apply same_orgs_refl.
Qed.

(** A refresh leaves the file alone, or writes the store back with the
    tokens of one record changed, or writes the store back as it is. *)
Lemma refreshToken_world (o : org) (w : world) :
  let w' := snd (refreshToken o w) in
  DEFAULT_ORG w' = DEFAULT_ORG w
  /\ (credentials w' = credentials w /\ writes w' = writes w
      \/ (exists r access inst,
             own (_alias o) (loadOrgs w) = Some r
             /\ credentials w'
                = Some (replace (_alias o)
                          (if truthy inst
                           then Org.set_instanceUrl inst
                                  (Org.set_accessToken access r)
                           else Org.set_accessToken access r)
                          (loadOrgs w))
             /\ exists x, writes w' = writes w ++ [x])
      \/ (credentials w' = Some (loadOrgs w)
          /\ writes w' = writes w ++ [loadOrgs w])).
Proof.
  cbv zeta.
  unfold refreshToken, bind, fetch, lift, throw, saveOrgs, ret.
  destruct (network w (requests w) _) as [res|e]; [|simpl; auto].
  destruct (negb (ok res)); [simpl; auto|].
  destruct (res_json res) as [data|e]; [|simpl; auto].
  repeat match goal with
         | |- context [loadOrgs ?x] =>
             lazymatch x with
             | w => fail
             | _ => change (loadOrgs x) with (loadOrgs w)
             end
         end.
  unfold get.
  destruct (own (_alias o) (loadOrgs w)) as [r|] eqn:Hown.
  - destruct (field "access_token" data) as [access|e]; [|simpl; auto].
    destruct (field "instance_url" data) as [inst|e]; [|simpl; auto].
    simpl. split; [reflexivity|]. right. left.
    exists r, access, inst. split; [reflexivity|]. split; [reflexivity|].
    eexists. reflexivity.
  - destruct (inherited (_alias o)).
    + destruct (field "access_token" data) as [access|e]; [|simpl; auto].
      destruct (field "instance_url" data) as [inst|e]; [|simpl; auto].
      simpl. auto.
    + destruct (field "access_token" data); simpl; auto.
Qed.

Lemma kept_refreshToken o w : kept w (snd (refreshToken o w)).
Proof.
  pose proof (refreshToken_requests o w) as Hreq.
  pose proof (refreshToken_network o w) as Hnet.
  destruct (refreshToken_world o w) as [Henv Hfile].
  constructor; auto.
  - eexists. exact Hreq.
  - destruct Hfile as [[_ Hw]|[(r & a & i & _ & _ & x & Hw)|[_ Hw]]];
      rewrite Hw; [exists []; now rewrite app_nil_r|eexists; reflexivity..].
  - unfold loadOrgs at 2.
    destruct Hfile as [[Hc _]|[(r & a & i & Hown & Hc & _)|[Hc _]]]; rewrite Hc.
    + apply same_orgs_refl.
    + eapply same_orgs_replace; [exact Hown|apply same_login_tokens].
    + apply same_orgs_refl.
  - rewrite (@issued_app _ _ _ Hreq). cbv. discriminate.
Qed.

Lemma keeps_ret {A} (a : A) : keeps_orgs (ret a).
Proof. intros w. apply kept_refl. Qed.

Lemma keeps_throw {A} (e : exn) : keeps_orgs (@throw A e).
Proof. intros w. apply kept_refl. Qed.

Lemma keeps_lift {A} (r : outcome A) : keeps_orgs (lift r).
Proof. intros w. apply kept_refl. Qed.

Lemma keeps_bind {A B} (m : M A) (k : A -> M B) :
  keeps_orgs m -> (forall a, keeps_orgs (k a)) -> keeps_orgs (bind m k).
Proof.
  intros Hm Hk w. unfold bind. specialize (Hm w).
  destruct (m w) as [[a|e] w1]; [|exact Hm].
  eapply kept_trans; [exact Hm|apply Hk].
Qed.

Lemma keeps_getOrg alias : keeps_orgs (getOrg alias).
Proof. intros w. rewrite getOrg_world. apply kept_refl. Qed.

Lemma keeps_fetch rq : keeps_orgs (fetch rq).
Proof. intros w. apply kept_fetch. Qed.

Lemma keeps_refreshToken o : keeps_orgs (refreshToken o).
Proof. intros w. apply kept_refreshToken. Qed.

Ltac keeps :=
  repeat first
    [ apply keeps_ret | apply keeps_throw | apply keeps_lift
    | apply keeps_getOrg | apply keeps_fetch | apply keeps_refreshToken
    | apply keeps_bind
    | match goal with
      | |- forall _, _ => intro
      | |- keeps_orgs (if ?b then _ else _) => destruct b
      | |- keeps_orgs (match ?x with _ => _ end) => destruct x
      end ].

Lemma keeps_sfApi alias path op : keeps_orgs (sfApi alias path op).
Proof. unfold sfApi. keeps. Qed.

Lemma keeps_sfRawApi alias path op : keeps_orgs (sfRawApi alias path op).
Proof. unfold sfRawApi. keeps. Qed.

Lemma keeps_sf_org_list : keeps_orgs sf_org_list.
Proof.
  intros w. unfold sf_org_list. cbv zeta.
  destruct (map _ (loadOrgs w)); apply kept_refl.
Qed.

Lemma keeps_sf_org_display org : keeps_orgs (sf_org_display org).
Proof.
  unfold sf_org_display. apply keeps_bind; [apply keeps_getOrg|].
  intros o w. pose proof (keeps_sfApi org [] no_opts w) as H.
  destruct (sfApi org [] no_opts w) as [[v|e] w']; exact H.
Qed.

(** X16: the tools other than [sf_org_login] and [sf_org_logout] leave the
    connected orgs alone.  Whatever the arguments, the store, the network
    and the bodies of the responses, after the handler has run (returned or
    thrown) the store holds the same aliases in the same order, each record
    differing from the earlier one in [accessToken] and [instanceUrl] at
    most; [DEFAULT_ORG] is the same; the request log has only grown; and
    unless a request went to the token endpoint, the credentials file was not
    written at all. *)
Theorem tools_leave_the_orgs_alone
  (res_text : response -> outcome jsstring)
  (JSON_parse : jsstring -> outcome json) (c : tool_call) (w : world) :
  let w' := snd (run_tool res_text JSON_parse c w) in
  DEFAULT_ORG w' = DEFAULT_ORG w
  /\ (exists new, requests w' = requests w ++ new)
  /\ Object_keys (loadOrgs w') = Object_keys (loadOrgs w)
  /\ same_orgs (loadOrgs w) (loadOrgs w')
  /\ (refreshes (issued w w') = 0 ->
      credentials w' = credentials w /\ writes w' = writes w).
Proof.
  cbv zeta.
  assert (H : keeps_orgs (run_tool res_text JSON_parse c)).
  { destruct c; cbn [run_tool];
      try apply keeps_sf_org_list; try apply keeps_sf_org_display;
      unfold sf_query, sf_search, sf_describe, sf_list_objects,
        sf_create_record, sf_update_record, sf_delete_record, sf_get_record,
        sf_apex_run, sf_apex_test, sf_apex_log, sf_list_metadata,
        sf_org_limits, sf_rest_api;
      repeat first
        [ apply keeps_sfApi | apply keeps_sfRawApi
        | apply keeps_ret | apply keeps_lift | apply keeps_bind
        | match goal with
          | |- forall _, _ => intro
          | |- keeps_orgs (if ?b then _ else _) => destruct b
          | |- keeps_orgs (match ?x with _ => _ end) => destruct x
          end ]. }
  destruct (H w) as [E N R W O F].
  split; [exact E|]. split; [exact R|].
  split; [symmetry; now apply same_orgs_keys|].
  split; [exact O|exact F].
Qed.

End FrameFacts.

(* ================================================================== *)
(** * The REST variant: a refreshed token is kept                       *)
(* ================================================================== *)

Section TokenFacts.

Import Rest RestTools.






End TokenFacts.

(* ================================================================== *)
(** * The REST variant: texts in query strings                          *)
(* ================================================================== *)

Section EncodingFacts.

Import Rest RestTools Builtins.

Lemma HEX_unreserved n : (n < 16)%N -> unreserved (HEX n) = true.
Proof.
  intros H.
  assert (Hn : In n [0; 1; 2; 3; 4; 5; 6; 7; 8; 9; 10; 11; 12; 13; 14; 15]%N).
  { simpl. lia. }
  simpl in Hn.
  repeat (destruct Hn as [Hn|Hn]; [subst n; reflexivity|]).
  contradiction.
Qed.

Lemma percent_safe octet : Forall (fun c => uri_safe c = true) (percent octet).
Proof.
  unfold percent. repeat constructor; unfold uri_safe.
  - rewrite HEX_unreserved; [reflexivity|]. apply N.mod_lt. discriminate.
  - rewrite HEX_unreserved; [reflexivity|]. apply N.mod_lt. discriminate.
Qed.

Lemma escape_code_point_safe cp :
  Forall (fun c => uri_safe c = true) (escape_code_point cp).
Proof.
  unfold escape_code_point. induction (utf8 cp) as [|x l IH]; cbn [flat_map].
  - constructor.
  - apply Forall_app. split; [apply percent_safe|exact IH].
Qed.

(** What [encodeURIComponent] returns is made of letters, digits,
    [-_.!~*'()] and [%]. *)
Lemma encodeURIComponent_safe s :
  forall q, encodeURIComponent s = Return q ->
            Forall (fun c => uri_safe c = true) q.
Proof.
  assert (H : forall n s, List.length s <= n ->
              forall q, encodeURIComponent s = Return q ->
                        Forall (fun c => uri_safe c = true) q).
  { clear s. induction n as [|n IH]; intros s Hlen q.
    - destruct s; [|simpl in Hlen; lia]. simpl. intros E. inversion E.
      constructor.
    - destruct s as [|c s']; [simpl; intros E; inversion E; constructor|].
      simpl in Hlen. cbn [encodeURIComponent].
      destruct (unreserved c) eqn:Hc.
      + destruct (encodeURIComponent s') as [rest|e] eqn:Hrest; [|discriminate].
        intros E. inversion E; subst. constructor.
        * unfold uri_safe. now rewrite Hc.
        * apply (IH s'); [lia|exact Hrest].
      + destruct (is_low_surrogate c); [discriminate|].
        destruct (is_high_surrogate c).
        * destruct s' as [|d s'']; [discriminate|].
          destruct (is_low_surrogate d); [|discriminate].
          destruct (encodeURIComponent s'') as [rest|e] eqn:Hrest;
            [|discriminate].
          intros E. inversion E; subst. apply Forall_app.
          split; [apply escape_code_point_safe|].
          apply (IH s''); [simpl in Hlen; lia|exact Hrest].
        * destruct (encodeURIComponent s') as [rest|e] eqn:Hrest;
            [|discriminate].
          intros E. inversion E; subst. apply Forall_app.
          split; [apply escape_code_point_safe|].
          apply (IH s'); [lia|exact Hrest]. }
  intros q. apply (H (List.length s)). lia.
Qed.

Lemma separators_unsafe c : In c separators -> uri_safe c = false.
Proof.
  unfold separators. simpl.
  intros H. repeat (destruct H as [H|H]; [subst c; reflexivity|]).
  contradiction.
Qed.

(** The requests of an [sfApi] call: token refreshes apart, they are
    requests for the path of the call with its method and its body. *)
Lemma sfApi_issues alias path op w rq :
  In rq (issued w (snd (sfApi alias path op w))) ->
  is_refresh rq = true
  \/ exists instanceUrl token,
       rq = ApiRequest instanceUrl path (request_method op) token
              (request_body op).
Proof.
  pose proof (getOrg_world alias w) as Hw.
  destruct (getOrg alias w) as [[o|e] w0] eqn:Hget; simpl in Hw; subst w0.
  - destruct (network w (requests w)
                (api_request o path op (Org.accessToken (fields o))))
      as [r1|e] eqn:Hnet.
    + rewrite (@issued_app _ _ _ (@sfApi_requests alias path op w o r1 Hget Hnet)).
      intros [H|H]; [right; subst rq; eexists; eexists; reflexivity|].
      destruct (_ && _)%bool; [|contradiction].
      destruct H as [H|H]; [left; now subst rq|].
      destruct (fst (refreshToken o _)); [|contradiction].
      destruct H as [H|H]; [|contradiction].
      right. subst rq. eexists; eexists; reflexivity.
    + rewrite sfApi_eq, Hget. unfold fetch at 1. rewrite Hnet. cbn [snd].
      erewrite issued_app by reflexivity.
      intros [H|H]; [|contradiction].
      right. subst rq. eexists; eexists; reflexivity.
  - rewrite sfApi_eq, Hget. cbn [snd].
    erewrite issued_app by (symmetry; apply app_nil_r).
    contradiction.
Qed.

(** A handler that encodes its text and makes one [sfApi] call with it. *)
Lemma encoded_call_sends_encoded prefix text org (k : json -> M jsstring) :
  (forall v w, snd (k v w) = w) ->
  sends_encoded prefix text
    (q <- lift (encodeURIComponent text) ;;
     result <- sfApi org (prefix ++ q) no_opts ;;
     k result).
Proof.
  intros Hk w. unfold bind at 1, lift at 1.
  destruct (encodeURIComponent text) as [q|e]; [|reflexivity].
  intros rq. unfold bind.
  pose proof (@sfApi_issues org (prefix ++ q) no_opts w rq) as H.
  destruct (sfApi org (prefix ++ q) no_opts w) as [[v|e] w1]; cbn [snd] in *.
  - rewrite Hk. exact H.
  - exact H.
Qed.

(** X18: a text that goes into a query string goes in percent-encoded.
    What [encodeURIComponent] returns holds letters, digits, [-_.!~*'()] and
    [%] only, so none of space, [#], [&], [+], [/], [=], [?]; and in
    [sf_query], [sf_search], [sf_apex_run], [sf_list_metadata] and the
    [fields] of [sf_get_record], every request other than a token refresh is
    a GET without a body whose path is the fixed prefix followed by the
    encoded text; a text that cannot be encoded (a surrogate on its own) makes
    the handler throw before anything is requested. *)
Theorem query_texts_are_percent_encoded :
  (forall text q,
      encodeURIComponent text = Return q ->
      Forall (fun c => uri_safe c = true) q
      /\ forall c, In c separators -> ~ In c q)
  /\ (forall query org tooling,
         sends_encoded
           ((if truthy tooling then js "/tooling" else []) ++ js "/query?q=")
           query (sf_query query org tooling))
  /\ (forall query org,
         sends_encoded (js "/search?q=") query (sf_search query org))
  /\ (forall code org,
         sends_encoded (js "/tooling/executeAnonymous?anonymousBody=") code
           (sf_apex_run code org))
  /\ (forall metadata_type org,
         sends_encoded (js "/tooling/query?q=")
           (js "SELECT Id, Name, NamespacePrefix FROM " ++ metadata_type
            ++ js " ORDER BY Name")
           (sf_list_metadata metadata_type org))
  /\ (forall sobject record_id c fields_ org,
         sends_encoded
           (js "/sobjects/" ++ sobject ++ js "/" ++ record_id ++ js "?fields=")
           (c :: fields_)
           (sf_get_record sobject record_id (Some (c :: fields_)) org)).
Proof.
  split; [|split; [|split; [|split; [|split]]]].
  - intros text q Hq. pose proof (encodeURIComponent_safe _ Hq) as Hsafe.
    split; [exact Hsafe|].
    intros c Hsep Hin. rewrite Forall_forall in Hsafe.
    specialize (Hsafe c Hin). rewrite (separators_unsafe Hsep) in Hsafe.
    discriminate.
  - intros query org tooling. unfold sf_query. cbv zeta.
    pose proof (@encoded_call_sends_encoded
                  ((if truthy tooling then js "/tooling" else [])
                   ++ js "/query?q=")
                  query org (fun result => ret (JSON_stringify_2 result))
                  (fun _ _ => eq_refl)) as H.
    intros w. specialize (H w). unfold bind, lift in *.
    destruct (encodeURIComponent query) as [q|e]; [|exact H].
    rewrite <- ?app_assoc in H. rewrite <- ?app_assoc. exact H.
  - intros query org.
    exact (@encoded_call_sends_encoded (js "/search?q=") query org
             (fun result => ret (JSON_stringify_2 result)) (fun _ _ => eq_refl)).
  - intros code org.
    exact (@encoded_call_sends_encoded
             (js "/tooling/executeAnonymous?anonymousBody=") code org
             (fun result => ret (JSON_stringify_2 result)) (fun _ _ => eq_refl)).
  - intros metadata_type org.
    exact (@encoded_call_sends_encoded (js "/tooling/query?q=") _ org
             (fun result => ret (JSON_stringify_2 result)) (fun _ _ => eq_refl)).
  - intros sobject record_id c fields_ org. unfold sf_get_record. cbv zeta.
    pose proof (@encoded_call_sends_encoded
                  (js "/sobjects/" ++ sobject ++ js "/" ++ record_id
                   ++ js "?fields=")
                  (c :: fields_) org
                  (fun result => ret (JSON_stringify_2 result))
                  (fun _ _ => eq_refl)) as H.
    intros w. specialize (H w). unfold bind, lift, ret in *.
    destruct (encodeURIComponent (c :: fields_)) as [q|e]; [|exact H].
    rewrite <- !app_assoc in H. rewrite <- !app_assoc. exact H.
Qed.

End EncodingFacts.

(* ================================================================== *)
(** * The REST variant: the classes sf_apex_test runs                   *)
(* ================================================================== *)

Section ApexTestFacts.

Import Rest RestTools Builtins.

Lemma split_on_app sep p : forall cur s,
  existsb (N.eqb sep) p = false ->
  split_on sep cur (p ++ s) = split_on sep (rev p ++ cur) s.
Proof.
  induction p as [|c p IH]; intros cur s Hp; [reflexivity|].
  simpl in Hp. apply orb_false_iff in Hp. destruct Hp as [Hc Hp].
  cbn [app split_on]. rewrite N.eqb_sym, Hc. rewrite IH by exact Hp.
  cbn [rev]. now rewrite <- app_assoc.
Qed.

Lemma split_join ps :
  ps <> [] ->
  Forall (fun p => existsb (N.eqb 44) p = false) ps ->
  split_comma (join (js ",") ps) = ps.
Proof.
  intros Hne Hall. unfold split_comma.
  induction Hall as [|p ps Hp Hps IH]; [congruence|].
  destruct ps as [|p' ps'].
  - cbn [join]. rewrite <- (app_nil_r p) at 1.
    rewrite split_on_app by exact Hp. cbn [split_on].
    now rewrite app_nil_r, rev_involutive.
  - change (join (js ",") (p :: p' :: ps'))
      with (p ++ 44%N :: join (js ",") (p' :: ps')).
    rewrite split_on_app by exact Hp. cbn [split_on N.eqb Pos.eqb].
    rewrite app_nil_r, rev_involutive. f_equal.
    apply IH. discriminate.
Qed.

Lemma trim_start_blank a s : blank a = true -> trim_start (a ++ s) = trim_start s.
Proof.
  induction a as [|c a IH]; [reflexivity|].
  unfold blank. simpl. intros H. apply andb_true_iff in H.
  destruct H as [Hc Ha]. rewrite Hc. now apply IH.
Qed.

Lemma trim_start_clean n s :
  n <> [] -> starts_clean n = true -> trim_start (n ++ s) = n ++ s.
Proof.
  destruct n as [|c n]; [congruence|]. simpl. intros _ H.
  now destruct (Cli.is_whitespace c).
Qed.

Lemma trim_start_all_blank b : blank b = true -> trim_start b = [].
Proof.
  intros H. rewrite <- (app_nil_r b). now rewrite trim_start_blank.
Qed.

Lemma blank_rev b : blank b = true -> blank (rev b) = true.
Proof.
  unfold blank. rewrite !forallb_forall. intros H x Hx.
  apply H. now apply in_rev.
Qed.

Lemma blank_no_comma a : blank a = true -> existsb (N.eqb 44) a = false.
Proof.
  induction a as [|c a IH]; [reflexivity|].
  unfold blank. cbn [forallb existsb]. intros H. apply andb_true_iff in H.
  destruct H as [Hc Ha]. rewrite (IH Ha), orb_false_r.
  destruct (N.eqb_spec 44 c) as [E|E]; [subst c; discriminate|reflexivity].
Qed.

(** [trim] takes the whitespace around a name away, and nothing else. *)
Lemma trim_written e : well_written e = true -> trim (written e) = className e.
Proof.
  unfold well_written, written. rewrite !andb_true_iff.
  intros [[[[Ha Hb] _] Hn] Hr]. unfold trim.
  rewrite trim_start_blank by exact Ha.
  destruct (className e) as [|c n] eqn:En.
  - cbn [app]. rewrite (trim_start_all_blank _ Hb). reflexivity.
  - rewrite trim_start_clean by (congruence || exact Hn).
    rewrite rev_app_distr, trim_start_blank by now apply blank_rev.
    rewrite <- (app_nil_r (rev (c :: n))).
    rewrite trim_start_clean.
    + now rewrite app_nil_r, rev_involutive.
    + intros E. apply (f_equal (@List.length _)) in E.
      rewrite length_rev in E. discriminate.
    + exact Hr.
Qed.

Lemma written_no_comma e :
  well_written e = true -> existsb (N.eqb 44) (written e) = false.
Proof.
  unfold well_written, written. rewrite !andb_true_iff.
  intros [[[[Ha Hb] Hn] _] _]. rewrite !existsb_app.
  rewrite (blank_no_comma _ Ha), (blank_no_comma _ Hb).
  apply negb_true_iff in Hn. now rewrite Hn.
Qed.

(** One test for each entry of the list, under its name. *)
Lemma tests_of_written (items : list entry) :
  items <> [] ->
  forallb well_written items = true ->
  tests_of (join (js ",") (map written items))
  = map (fun e => JObj [(js "className", JStr (className e))]) items.
Proof.
  intros Hne Hall. unfold tests_of. rewrite split_join.
  - rewrite map_map. apply map_ext_in. intros e He.
    rewrite forallb_forall in Hall. now rewrite trim_written by auto.
  - destruct items; [congruence|discriminate].
  - rewrite Forall_map, Forall_forall. intros e He.
    rewrite forallb_forall in Hall. apply written_no_comma. auto.
Qed.

(** X19: [sf_apex_test] runs the classes that are listed.  When
    [class_names] is a non-empty text made of names separated by commas, each
    name without a comma and with any whitespace around it, then (whatever
    [test_level] is) every request of the handler other than a token refresh
    is a POST to [/tooling/runTestsSynchronous] whose body lists one test for
    each name, in the order of the list, the whitespace around the names
    taken away. *)
Theorem sf_apex_test_runs_the_listed_classes
  (items : list entry) (test_level org : option jsstring) (w : world)
  (rq : request) :
  forallb well_written items = true ->
  let class_names := join (js ",") (map written items) in
  class_names <> [] ->
  In rq (issued w (snd (sf_apex_test (Some class_names) test_level org w))) ->
  is_refresh rq = true
  \/ exists instanceUrl token,
       rq = ApiRequest instanceUrl (js "/tooling/runTestsSynchronous")
              (JStr (js "POST")) token
              (Some (JSON_stringify
                       (JObj [(js "tests",
                               JArr (map (fun e =>
                                            JObj [(js "className",
                                                   JStr (className e))])
                                       items))]))).
Proof.
  intros Hall. cbv zeta. intros Hne.
  assert (Hitems : items <> []) by (intros E; subst items; now apply Hne).
  rewrite <- (tests_of_written Hitems Hall).
  unfold sf_apex_test.
  destruct (join (js ",") (map written items)) as [|c names] eqn:Hnames;
    [congruence|].
  unfold bind.
  pose proof (@sfApi_issues org (js "/tooling/runTestsSynchronous")
                (with_body "POST"
                   (Some (JObj [(js "tests", JArr (tests_of (c :: names)))])))
                w rq) as H.
  destruct (sfApi org _ _ w) as [[v|e] w1]; exact H.
Qed.

Lemma sf_apex_test_runs_the_listed_classes_witness :
  let items := [ {| lead := []; className := js "AccountTest"; trail := [] |};
                 {| lead := js " "; className := js "LeadTest";
                    trail := js " " |} ] in
  let w := sample_world (Some sample_store) [answer 200 (JObj [])] in
  let body :=
    JSON_stringify
      (JObj [(js "tests",
              JArr [JObj [(js "className", JStr (js "AccountTest"))];
                    JObj [(js "className", JStr (js "LeadTest"))]])]) in
  let rq := ApiRequest (Org.instanceUrl sample_org)
              (js "/tooling/runTestsSynchronous") (JStr (js "POST"))
              (Org.accessToken sample_org) (Some body) in
  join (js ",") (map written items) = js "AccountTest, LeadTest "
  /\ issued w (snd (sf_apex_test (Some (js "AccountTest, LeadTest "))
                      None None w))
     = [rq]
  /\ (is_refresh rq = true
      \/ exists instanceUrl token,
           rq = ApiRequest instanceUrl (js "/tooling/runTestsSynchronous")
                  (JStr (js "POST")) token (Some body)).
Proof.
  cbv zeta. split; [reflexivity|]. split; [reflexivity|].
  apply (@sf_apex_test_runs_the_listed_classes
           [ {| lead := []; className := js "AccountTest"; trail := [] |};
             {| lead := js " "; className := js "LeadTest"; trail := js " " |} ]
           None None
           (sample_world (Some sample_store) [answer 200 (JObj [])])
           _ eq_refl).
  - discriminate.
  - left. reflexivity.
Defined.

End ApexTestFacts.

(* ================================================================== *)
(** * More of the definitions at work                                   *)
(* ================================================================== *)

Example encodeURIComponent_examples :
  Builtins.encodeURIComponent (js "Name = 'a&b'") = Return (js "Name%20%3D%20'a%26b'")
  /\ Builtins.encodeURIComponent [233%N] = Return (js "%C3%A9")
  /\ Builtins.encodeURIComponent [8364%N] = Return (js "%E2%82%AC")
  /\ Builtins.encodeURIComponent [55357%N; 56832%N] = Return (js "%F0%9F%98%80")
  /\ Builtins.encodeURIComponent [55357%N] = Throw Builtins.URI_malformed
  /\ Builtins.encodeURIComponent [56832%N; 55357%N] = Throw Builtins.URI_malformed.
Proof. repeat split. Qed.

Example trim_and_split_examples :
  Builtins.trim (js "  a b  ") = js "a b"
  /\ Builtins.split_comma (js "a,,b,") = [js "a"; []; js "b"; []]
  /\ Builtins.split_comma [] = [[]]
  /\ RestTools.tests_of (js "A, B")
     = [JObj [(js "className", JStr (js "A"))];
        JObj [(js "className", JStr (js "B"))]].
Proof. repeat split. Qed.

Example sort_orders_by_code_units :
  Builtins.sort [js "v9.0.0"; js "v22.1.0"; js "v18.0.0"]
  = [js "v18.0.0"; js "v22.1.0"; js "v9.0.0"].
Proof. reflexivity. Qed.

Example catalogs_agree :
  CliTools.TOOLS = CliTools.HANDLERS
  /\ RestTools.TOOLS = RestTools.HANDLERS
  /\ List.length CliTools.TOOLS = 21
  /\ List.length RestTools.TOOLS = 18
  /\ forallb (fun name => negb (inherited name))
       (CliTools.TOOLS ++ RestTools.TOOLS) = true.
Proof. repeat split. Qed.

Example sf_describe_sends_its_argument_as_it_is :
  let w := Rest.sample_world (Some Rest.sample_store)
             [Rest.answer 200 (JObj [])] in
  Rest.issued w
    (snd (RestTools.sf_describe (js "Account/describe?x=1#") None w))
  = [Rest.ApiRequest (Rest.Org.instanceUrl Rest.sample_org)
       (js "/sobjects/Account/describe?x=1#/describe") (JStr (js "GET"))
       (Rest.Org.accessToken Rest.sample_org) None].
Proof. reflexivity. Qed.

(* ================================================================== *)
(** * The REST variant: the two handlers on the file as it is           *)
(* ================================================================== *)

Section FileFacts.

Import Rest.

Lemma field_throws name o : throws (field name o) = true <-> o = JNull.
Proof. destruct o; simpl; split; congruence. Qed.

Lemma summary_throws alias o : throws (File.summary alias o) = true <-> o = JNull.
Proof. destruct o; simpl; split; congruence. Qed.

Lemma map_throwing_throws {A B} (f : A -> outcome B) (l : list A) :
  throws (File.map_throwing f l) = true
  <-> exists x, In x l /\ throws (f x) = true.
Proof.
  induction l as [|x l IH]; simpl.
  - split; [discriminate|intros [x [[] _]]].
  - destruct (f x) as [y|e] eqn:Hx; simpl.
    + destruct (File.map_throwing f l) as [ys|e]; simpl in *.
      * split; [discriminate|].
        intros [z [[<-|Hz] Hthrows]]; [now rewrite Hx in Hthrows|].
        apply IH. now exists z.
      * split; [|reflexivity]. intros _.
        destruct (proj1 IH eq_refl) as [z [Hz Hthrows]].
        exists z. split; [now right|exact Hthrows].
    + split; [|reflexivity]. intros _. exists x. split; [now left|].
      now rewrite Hx.
Qed.

Lemma map_throwing_map {A B C} (h : A -> B) (g : B -> outcome C) (l : list A) :
  File.map_throwing (fun x => g (h x)) l = File.map_throwing g (map h l).
Proof.
  induction l as [|x l IH]; simpl; [reflexivity|]. now rewrite IH.
Qed.

Lemma map_throwing_returns {A B} (f : A -> B) (l : list A) :
  File.map_throwing (fun x => Return (f x)) l = Return (map f l).
Proof.
  induction l as [|x l IH]; simpl; [reflexivity|]. now rewrite IH.
Qed.

Lemma map_throwing_ext {A B} (f g : A -> outcome B) (l : list A) :
  (forall x, f x = g x) -> File.map_throwing f l = File.map_throwing g l.
Proof.
  intros H. induction l as [|x l IH]; simpl; [reflexivity|].
  now rewrite H, IH.
Qed.

(** Taking properties out does not show in the others. *)
Lemma own_filter (p : jsstring -> bool) (k : jsstring)
  (fs : list (jsstring * json)) :
  p k = true -> own k (filter (fun e => p (fst e)) fs) = own k fs.
Proof.
  intros Hk. induction fs as [|[k' v] fs IH]; simpl; [reflexivity|].
  destruct (eqb k k') eqn:E.
  - apply eqb_eq in E. subst k'. rewrite Hk. simpl. now rewrite eqb_refl.
  - destruct (p k'); simpl; [now rewrite E|exact IH].
Qed.

Lemma summary_without_tokens alias o :
  File.summary alias (File.without_tokens o) = File.summary alias o.
Proof.
  destruct o as [| | | | |fs]; try reflexivity.
  unfold File.summary, File.without_tokens, field.
  rewrite !(own_filter (fun k => negb (File.is_token k))) by reflexivity.
  reflexivity.
Qed.

(** A record in the file reads back as the record. *)
Lemma summary_of_org alias o :
  File.summary alias (File.of_org o) = Return (RestTools.summary alias o).
Proof.
  destruct o as [a r i l u g d t].
  destruct a, r, i, l, u, g, d, t; reflexivity.
Qed.

Lemma stringify_array_starts (x : json) (l : list json) :
  exists rest, JSON_stringify_2 (JArr (x :: l)) = 91%N :: rest.
Proof. eexists. reflexivity. Qed.

(** X10: [sf_org_list] on the credentials file as it is.  It throws exactly
    when the file holds [null] or one of its entries is [null]; it answers
    the fixed "No orgs connected" message exactly when the file has no
    entries (a missing or unreadable file among them); and its answer does
    not depend on the tokens: two files whose entries are the same once
    [accessToken] and [refreshToken] are taken out of each get the same
    answer.  On a file of records it is the handler of [RestTools], which
    issues no request and writes nothing. *)
Theorem sf_org_list_shows_no_token :
  (forall file,
      throws (File.sf_org_list file) = true
      <-> File.loadOrgs file = JNull
          \/ exists entries alias,
               File.Object_entries (File.loadOrgs file) = Return entries
               /\ In (alias, JNull) entries)
  /\ (forall file,
        File.sf_org_list file = Return RestTools.no_orgs_connected
        <-> File.Object_entries (File.loadOrgs file) = Return [])
  /\ (forall file file' entries entries',
        File.Object_entries (File.loadOrgs file) = Return entries ->
        File.Object_entries (File.loadOrgs file') = Return entries' ->
        map (fun e => (fst e, File.without_tokens (snd e))) entries'
        = map (fun e => (fst e, File.without_tokens (snd e))) entries ->
        File.sf_org_list file' = File.sf_org_list file)
  /\ (forall w,
        RestTools.sf_org_list w
        = (File.sf_org_list (File.of_credentials (credentials w)), w)).
Proof.
  split; [|split; [|split]].
  - intros file. unfold File.sf_org_list.
    destruct (File.Object_entries (File.loadOrgs file)) as [entries|e] eqn:He.
    + cbn [and_then].
      pose proof (map_throwing_throws
                    (fun e => File.summary (fst e) (snd e)) entries) as Hmap.
      destruct (File.map_throwing _ entries) as [[|y ys]|e'] eqn:Hl;
        cbn [and_then throws] in *.
      * split; [discriminate|].
        intros [Hnull|(es & alias & Hes & Hin)].
        -- rewrite Hnull in He. discriminate.
        -- inversion Hes; subst es. apply Hmap.
           exists (alias, JNull). split; [exact Hin|reflexivity].
      * split; [discriminate|].
        intros [Hnull|(es & alias & Hes & Hin)].
        -- rewrite Hnull in He. discriminate.
        -- inversion Hes; subst es. apply Hmap.
           exists (alias, JNull). split; [exact Hin|reflexivity].
      * split; [|reflexivity]. intros _. right.
        destruct (proj1 Hmap eq_refl) as [[alias o] [Hin Hthrows]].
        apply summary_throws in Hthrows. cbn [snd] in Hthrows. subst o.
        now exists entries, alias.
    + cbn [and_then throws]. split; [|reflexivity]. intros _. left.
      destruct (File.loadOrgs file); try discriminate. reflexivity.
  - intros file. unfold File.sf_org_list.
    destruct (File.Object_entries (File.loadOrgs file)) as [[|x entries]|e].
    + split; reflexivity.
    + cbn [and_then].
      destruct (File.map_throwing _ (x :: entries)) as [[|y ys]|e'] eqn:Hl;
        cbn [and_then].
      * cbn [File.map_throwing] in Hl.
        destruct (File.summary (fst x) (snd x)); cbn [and_then] in Hl;
          [|discriminate].
        destruct (File.map_throwing _ entries); discriminate.
      * destruct (stringify_array_starts y ys) as [rest ->].
        split; discriminate.
      * split; discriminate.
    + cbn [and_then]. split; discriminate.
  - intros file file' entries entries' He He' Hsame.
    unfold File.sf_org_list. rewrite He, He'. cbn [and_then].
    assert (Hmap : forall es,
               File.map_throwing (fun e => File.summary (fst e) (snd e)) es
               = File.map_throwing (fun e => File.summary (fst e) (snd e))
                   (map (fun e => (fst e, File.without_tokens (snd e))) es)).
    { intros es.
      rewrite <- (map_throwing_map
                    (fun e => (fst e, File.without_tokens (snd e)))
                    (fun e => File.summary (fst e) (snd e))).
      apply map_throwing_ext. intros [k v]. cbn [fst snd].
      symmetry. apply summary_without_tokens. }
    now rewrite (Hmap entries'), (Hmap entries), Hsame.
  - intros w. unfold RestTools.sf_org_list, File.sf_org_list, loadOrgs.
    destruct (credentials w) as [orgs|]; cbn [File.of_credentials option_map
      File.loadOrgs File.Object_entries and_then]; [|reflexivity].
    unfold File.of_store.
    rewrite <- (map_throwing_map
                  (fun e : jsstring * Org.t => (fst e, File.of_org (snd e)))
                  (fun e => File.summary (fst e) (snd e))).
    rewrite (map_throwing_ext _
               (fun e => Return (RestTools.summary (fst e) (snd e))))
      by (intros [k o]; apply summary_of_org).
    rewrite map_throwing_returns. cbn [and_then].
    destruct (map _ orgs); reflexivity.
Qed.

(** ** sf_org_logout *)

Lemma own_of_store k orgs :
  own k (File.of_store orgs) = option_map File.of_org (own k orgs).
Proof.
  induction orgs as [|[k' r] orgs IH]; simpl; [reflexivity|].
  destruct (eqb k k'); [reflexivity|exact IH].
Qed.

Lemma delete_of_store k orgs :
  delete k (File.of_store orgs) = File.of_store (delete k orgs).
Proof.
  induction orgs as [|[k' r] orgs IH]; simpl; [reflexivity|].
  destruct (eqb k k'); [reflexivity|]. simpl. now rewrite IH.
Qed.

(** X3: [sf_org_logout] on the credentials file as it is, for an alias
    that is not a property of [Object.prototype].  On a file that is missing
    or holds an object: an alias whose entry is an object (or any other
    truthy value) is deleted, the rest is written back in its order and the
    response reports success; an alias that is not stored, or whose entry is
    [null], [false], [0] or the empty string, causes no write and gets the
    error object.  On a file that holds [null] the handler throws and writes
    nothing.  On a file of records this is the handler of [Rest], for every
    alias: same response, and the same store written. *)
Theorem sf_org_logout_on_ordinary_aliases :
  (forall alias file orgs,
      inherited (alias_key alias) = false ->
      File.loaded file = File.Object orgs ->
      (forall v,
          own (alias_key alias) orgs = Some v -> truthy (Some v) = true ->
          File.sf_org_logout alias file
          = (Return (removed alias),
             Some (JObj (delete (alias_key alias) orgs))))
      /\ (forall v,
            own (alias_key alias) orgs = Some v -> truthy (Some v) = false ->
            File.sf_org_logout alias file = (Return (not_found alias), None))
      /\ (own (alias_key alias) orgs = None ->
          File.sf_org_logout alias file = (Return (not_found alias), None)))
  /\ (forall alias file,
        File.loaded file = File.Null ->
        throws (fst (File.sf_org_logout alias file)) = true
        /\ snd (File.sf_org_logout alias file) = None)
  /\ (forall alias w,
        let file := File.content_of_credentials (credentials w) in
        fst (File.sf_org_logout alias file) = fst (sf_org_logout alias w)
        /\ (snd (File.sf_org_logout alias file) = None ->
            snd (sf_org_logout alias w) = w)
        /\ (forall written,
              snd (File.sf_org_logout alias file) = Some written ->
              written = JObj (File.of_store (loadOrgs (snd (sf_org_logout alias w))))
              /\ writes (snd (sf_org_logout alias w))
                 = writes w ++ [loadOrgs (snd (sf_org_logout alias w))]))
  /\ (forall alias w r,
        own (alias_key alias) (loadOrgs w) = Some r ->
        fst (sf_org_logout alias w) = Return (removed alias)
        /\ loadOrgs (snd (sf_org_logout alias w))
           = delete (alias_key alias) (loadOrgs w)
        /\ (forall k, k <> alias_key alias ->
                      own k (loadOrgs (snd (sf_org_logout alias w)))
                      = own k (loadOrgs w))
        /\ (unique_aliases (loadOrgs w) ->
            own (alias_key alias) (loadOrgs (snd (sf_org_logout alias w)))
            = None)).
Proof.
  split; [|split; [|split]].
  - intros alias file orgs Hinh Hfile. unfold File.sf_org_logout, get.
    rewrite Hfile. repeat split.
    + intros v Hown Htruthy. now rewrite Hown, Htruthy.
    + intros v Hown Hfalsy. now rewrite Hown, Hfalsy.
    + intros Hown. now rewrite Hown, Hinh.
  - intros alias file Hfile. unfold File.sf_org_logout. rewrite Hfile.
    split; reflexivity.
  - intros alias w. cbv zeta.
    unfold File.sf_org_logout, sf_org_logout, get, loadOrgs.
    destruct (credentials w) as [orgs|] eqn:Hcreds;
      cbn [File.content_of_credentials option_map File.loaded].
    + rewrite own_of_store.
      destruct (own (alias_key alias) orgs) as [r|] eqn:Hown;
        cbn [option_map].
      * cbn [truthy File.of_org]. cbn [bind saveOrgs ret fst snd].
        split; [reflexivity|]. split; [discriminate|].
        intros written [= <-]. cbn [credentials writes].
        rewrite delete_of_store. split; reflexivity.
      * destruct (inherited (alias_key alias)).
        -- cbn [bind saveOrgs ret fst snd].
           split; [reflexivity|]. split; [discriminate|].
           intros written [= <-]. cbn [credentials writes].
           rewrite delete_absent by exact Hown. split; reflexivity.
        -- cbn [fst snd]. split; [reflexivity|]. split; [reflexivity|].
           discriminate.
    + cbn [own]. destruct (inherited (alias_key alias)).
      * cbn [bind saveOrgs ret fst snd delete].
        split; [reflexivity|]. split; [discriminate|].
        intros written [= <-]. cbn [credentials writes]. split; reflexivity.
      * cbn [fst snd]. split; [reflexivity|]. split; [reflexivity|].
        discriminate.
  - intros alias w r Hown.
    destruct (sf_org_logout_present alias w Hown) as (H1 & H2 & _ & H4 & H5).
    repeat split; assumption.
Qed.

End FileFacts.

(** ** Files that [saveOrgs] did not write *)

Example entry_null :
  let file := Some (JObj [(js "prod", JNull)]) in
  let content := Some (File.Object [(js "prod", JNull)]) in
  File.sf_org_list file
  = Throw (TypeError (js "Cannot read properties of null (reading 'username')"))
  /\ File.sf_org_logout (Some (js "prod")) content
     = (Return (Rest.not_found (Some (js "prod"))), None).
Proof. cbv zeta. split; reflexivity. Qed.

Example file_null :
  File.sf_org_list (Some JNull)
  = Throw (TypeError (js "Cannot convert undefined or null to object"))
  /\ File.sf_org_logout (Some (js "prod")) (Some File.Null)
     = (Throw (TypeError (js "Cannot read properties of null (reading 'prod')")),
        None).
Proof. split; reflexivity. Qed.

Example file_of_other_values :
  File.sf_org_list None = Return RestTools.no_orgs_connected
  /\ File.sf_org_list (Some (JNum 7)) = Return RestTools.no_orgs_connected
  /\ File.sf_org_list (Some (JStr (js "ab")))
     = Return (JSON_stringify_2
                 (JArr [JObj [(js "alias", JStr (js "0"))];
                        JObj [(js "alias", JStr (js "1"))]]))
  /\ File.sf_org_list (Some (JArr [JObj [(js "username", JStr (js "ada"))]]))
     = Return (JSON_stringify_2
                 (JArr [JObj [(js "alias", JStr (js "0"));
                              (js "username", JStr (js "ada"))]])).
Proof. repeat split. Qed.

Example file_of_records :
  File.sf_org_list (File.of_credentials (Some Rest.sample_store))
  = fst (RestTools.sf_org_list (Rest.sample_world (Some Rest.sample_store) []))
  /\ File.sf_org_logout (Some (js "dev"))
       (File.content_of_credentials (Some Rest.sample_store))
     = (Return (Rest.removed (Some (js "dev"))),
        Some (JObj [(js "prod", File.of_org Rest.sample_org)])).
Proof. split; reflexivity. Qed.

Example tokens_examples :
  Cli.tokens_of (js " org  list ") [[]; js "org"; js "list"; []]
  /\ Cli.split_whitespace (js " org  list ") = [[]; js "org"; js "list"; []]
  /\ Cli.split_whitespace [] = [[]]
  /\ Cli.split_whitespace (js "data query" ++ [9%N; 160%N] ++ js "--json")
     = [js "data"; js "query"; js "--json"]
  /\ Cli.is_whitespace 133 = false
  /\ Cli.is_whitespace 8203 = false.
Proof.
  split; [|repeat split].
  apply (@Cli.next_token [] (js " ") (js "org  list ") _);
    [constructor|discriminate|repeat constructor|reflexivity|].
  apply (@Cli.next_token (js "org") (js "  ") (js "list ") _);
    [repeat constructor|discriminate|repeat constructor|reflexivity|].
  apply (@Cli.next_token (js "list") (js " ") [] _);
    [repeat constructor|discriminate|repeat constructor|exact I|].
  apply Cli.last_token. constructor.
Qed.
